(** * graphs-algorithms-suite: the [Graph] class of
      bfs-prim-binary-complete-binary/include/graph.hpp

    A shallow embedding of the class and of the parts of the C++ standard
    library it runs on, followed by the properties of its operations.

    Conventions.
    - [Node*] is an address ([ptr]); the objects live in a memory
      [cells : ptr -> Node], so that adjacency lists, predecessors, the BFS
      queue and Prim's frontier all alias the same objects, as in the code.
    - [std::vector<unique_node_ptr> nodes] is the list of the owned
      addresses; [std::vector<unique_edge_ptr> edges] is the list of the
      owned edge objects (edges are never mutated once stored).
    - [int] is a [Z]; the places where the code narrows or does arithmetic
      on an [int] carry the 32-bit wrap-around explicitly.
    - loops that are not structural take fuel; each algorithm supplies its
      own fuel and the development proves that it is never exhausted. *)

From Stdlib Require Import String DecimalString.
From Stdlib Require Import ZArith List Bool Arith Lia Sorted.
From Stdlib Require Import FunctionalExtensionality.
From Stdlib Require Import Ascii.
Import ListNotations.

Set Implicit Arguments.

(* ================================================================== *)
(** * Machine integers *)
(* ================================================================== *)

Definition INT_MAX : Z := 2147483647.

(** Conversion of a mathematical value to a 32-bit [int] (two's complement). *)
Definition to_int (z : Z) : Z :=
  ((z + 2147483648) mod 4294967296 - 2147483648)%Z.

(** Conversion of an [int] to [size_t] (64 bits), as the usual arithmetic
    conversions do in [nodes.size() > tot_nodes]. *)
Definition to_size_t (z : Z) : Z := (z mod 18446744073709551616)%Z.

Definition int_add (a b : Z) : Z := to_int (a + b).

(* ================================================================== *)
(** * Nodes and edges *)
(* ================================================================== *)

Definition ptr := nat.

Inductive Color := white | gray | black.

Definition color_eqb (a b : Color) : bool :=
  match a, b with
  | white, white | gray, gray | black, black => true
  | _, _ => false
  end.

(** Modelled from the spec: node.hpp is not part of the sources.  A node
    carries its identity, the search state (visit marker, distance,
    predecessor) and the ordered sequence of its neighbours. *)
Record Node := mkNode {
  data : Z;
  color : Color;
  distance : Z;
  predecessor : option ptr;
  adj_list : list ptr
}.

(** Modelled from the spec: edge.hpp is not part of the sources.  An edge
    is two node references and an integer weight. *)
Record Edge := mkEdge {
  source : ptr;
  destination : ptr;
  weight : Z
}.

(** Modelled from the spec: [Node(i)], a fresh node of identity [i] with an
    empty adjacency and a blank search state. *)
Definition Node_new (i : Z) : Node := mkNode i white INT_MAX None [].

Definition node_set_color (c : Color) (n : Node) : Node :=
  mkNode (data n) c (distance n) (predecessor n) (adj_list n).
Definition node_set_distance (d : Z) (n : Node) : Node :=
  mkNode (data n) (color n) d (predecessor n) (adj_list n).
Definition node_set_predecessor (p : option ptr) (n : Node) : Node :=
  mkNode (data n) (color n) (distance n) p (adj_list n).
(** Modelled from the spec: [add_adjacent] appends to the ordered adjacency. *)
Definition node_add_adjacent (a : ptr) (n : Node) : Node :=
  mkNode (data n) (color n) (distance n) (predecessor n) (adj_list n ++ [a]).

(* ================================================================== *)
(** * Program state *)
(* ================================================================== *)

(** The memory of node objects with its allocation frontier, the four fields
    of the [Graph] object, and what has been written to [std::cerr]. *)
Record State := mkState {
  cells : ptr -> Node;
  brk : ptr;
  nodes : list ptr;
  edges : list Edge;
  tot_nodes : Z;
  tot_edges : Z;
  cerr : list string
}.

Definition upd (m : ptr -> Node) (p : ptr) (n : Node) : ptr -> Node :=
  fun q => if Nat.eqb q p then n else m q.

(** [*p = f( *p )]: in-place modification of the object at [p]. *)
Definition modify (p : ptr) (f : Node -> Node) (s : State) : State :=
  mkState (upd (cells s) p (f (cells s p))) (brk s) (nodes s) (edges s)
          (tot_nodes s) (tot_edges s) (cerr s).

Definition set_color (p : ptr) (c : Color) := modify p (node_set_color c).
Definition set_distance (p : ptr) (d : Z) := modify p (node_set_distance d).
Definition set_predecessor (p : ptr) (q : option ptr) :=
  modify p (node_set_predecessor q).
Definition add_adjacent (p : ptr) (a : ptr) := modify p (node_add_adjacent a).

Definition get_color (s : State) (p : ptr) : Color := color (cells s p).
Definition get_distance (s : State) (p : ptr) : Z := distance (cells s p).
Definition get_predecessor (s : State) (p : ptr) : option ptr :=
  predecessor (cells s p).
Definition get_adj_list (s : State) (p : ptr) : list ptr := adj_list (cells s p).
Definition get_data (s : State) (p : ptr) : Z := data (cells s p).

(** [new Node(i)]: the object is placed at a fresh address. *)
Definition alloc_node (i : Z) (s : State) : ptr * State :=
  (brk s,
   mkState (upd (cells s) (brk s) (Node_new i)) (S (brk s)) (nodes s) (edges s)
           (tot_nodes s) (tot_edges s) (cerr s)).

(* ================================================================== *)
(** * Graph: storage and lookup *)
(* ================================================================== *)

Definition reset (s : State) : State :=
  mkState (cells s) (brk s) [] [] 0%Z 0%Z (cerr s).

Definition insert_node (node : ptr) (s : State) : State :=
  let ns := nodes s ++ [node] in
  let size := Z.of_nat (length ns) in
  mkState (cells s) (brk s) ns (edges s)
          (if (to_size_t (tot_nodes s) <? size)%Z then to_int size else tot_nodes s)
          (tot_edges s) (cerr s).

Definition insert_edge (edge : Edge) (s : State) : State :=
  let s1 := add_adjacent (source edge) (destination edge) s in
  let s2 := add_adjacent (destination edge) (source edge) s1 in
  let es := edges s2 ++ [edge] in
  let size := Z.of_nat (length es) in
  mkState (cells s2) (brk s2) (nodes s2) es (tot_nodes s2)
          (if (to_size_t (tot_edges s2) <? size)%Z then to_int size else tot_edges s2)
          (cerr s2).

Fixpoint get_node_scan (s : State) (ns : list ptr) (d : Z) : option ptr :=
  match ns with
  | [] => None
  | node :: rest =>
      if (get_data s node =? d)%Z then Some node else get_node_scan s rest d
  end.

Definition string_of_Z (z : Z) : string := NilZero.string_of_int (Z.to_int z).

Definition get_node_error (d : Z) : string :=
  ("[get_node ERROR] => Node (" ++ string_of_Z d ++ ") not found")%string.

(** [std::cerr << msg << std::endl] *)
Definition write_cerr (msg : string) (s : State) : State :=
  mkState (cells s) (brk s) (nodes s) (edges s) (tot_nodes s) (tot_edges s)
          (cerr s ++ [msg]).

Definition get_node (d : Z) (s : State) : option ptr * State :=
  match get_node_scan s (nodes s) d with
  | Some node => (Some node, s)
  | None => (None, write_cerr (get_node_error d) s)
  end.

Definition edge_joins (src dest : ptr) (e : Edge) : bool :=
  (Nat.eqb (source e) src && Nat.eqb (destination e) dest)
  || (Nat.eqb (source e) dest && Nat.eqb (destination e) src).

Fixpoint get_edge_scan (es : list Edge) (src dest : ptr) : option Edge :=
  match es with
  | [] => None
  | edge :: rest =>
      if edge_joins src dest edge then Some edge else get_edge_scan rest src dest
  end.

Definition get_edge (s : State) (src dest : ptr) : option Edge :=
  get_edge_scan (edges s) src dest.

(* ================================================================== *)
(** * Graph: format_line *)
(* ================================================================== *)

(** [std::string] is a [string].  [front()] and [back()] of an empty string
    are undefined: [None]. *)
Definition front (line : string) : option ascii :=
  match line with
  | EmptyString => None
  | String c _ => Some c
  end.

Fixpoint back (line : string) : option ascii :=
  match line with
  | EmptyString => None
  | String c EmptyString => Some c
  | String _ rest => back rest
  end.

(** [line.substr(1)], for a line that is not empty. *)
Definition substr_1 (line : string) : string :=
  match line with
  | EmptyString => EmptyString
  | String _ rest => rest
  end.

Fixpoint pop_back (line : string) : string :=
  match line with
  | EmptyString => EmptyString
  | String c EmptyString => EmptyString
  | String c rest => String c (pop_back rest)
  end.

(** [for (auto& c : line) c = c == ',' ? ' ' : c;] *)
Fixpoint commas_to_spaces (line : string) : string :=
  match line with
  | EmptyString => EmptyString
  | String c rest =>
      String (if Ascii.eqb c ","%char then " "%char else c)
             (commas_to_spaces rest)
  end.

Definition format_line (line : string) : option string :=
  match front line with
  | None => None
  | Some c =>
      let line1 := if Ascii.eqb c "<"%char then substr_1 line else line in
      match back line1 with
      | None => None
      | Some b =>
          let line2 := if Ascii.eqb b ">"%char then pop_back line1 else line1 in
          Some (commas_to_spaces line2)
      end
  end.

(* ================================================================== *)
(** * Graph: load *)
(* ================================================================== *)

(** The text of the file is read by [format_line] and stream extraction;
    [load] is embedded from the point where the header has been read as two
    integers and every further line as three. *)

Fixpoint load_nodes (fuel : nat) (i : Z) (s : State) : State :=
  match fuel with
  | 0 => s
  | S fuel' =>
      if (i <? tot_nodes s)%Z then
        let '(node, s1) := alloc_node i s in
        load_nodes fuel' (to_int (i + 1)) (insert_node node s1)
      else s
  end.

Definition load_line (line : Z * Z * Z) (s : State) : State :=
  let '(src_data, dest_data, w) := line in
  let '(src, s1) := get_node src_data s in
  let '(dest, s2) := get_node dest_data s1 in
  match src, dest with
  | Some src', Some dest' => insert_edge (mkEdge src' dest' w) s2
  | _, _ => s2
  end.

Fixpoint load_lines (lines : list (Z * Z * Z)) (s : State) : State :=
  match lines with
  | [] => s
  | line :: rest => load_lines rest (load_line line s)
  end.

Definition load_header (header : Z * Z) (s : State) : State :=
  let s0 := reset s in
  mkState (cells s0) (brk s0) (nodes s0) (edges s0) (fst header) (snd header)
          (cerr s0).

Definition load (header : Z * Z) (lines : list (Z * Z * Z)) (s : State) : State :=
  let s1 := load_header header s in
  let s2 := load_nodes (Z.to_nat (tot_nodes s1)) 0%Z s1 in
  load_lines lines s2.

(** The state a program starts from: nothing allocated, nothing stored. *)
Definition boot : State :=
  mkState (fun _ => Node_new 0%Z) 0 [] [] 0%Z 0%Z [].

(* ================================================================== *)
(** * Breadth-first search *)
(* ================================================================== *)

Fixpoint bfs_reset (ns : list ptr) (s : State) : State :=
  match ns with
  | [] => s
  | node :: rest =>
      bfs_reset rest
        (set_distance node INT_MAX
           (set_predecessor node None (set_color node white s)))
  end.

(** The [for (auto& adj : node->get_adj_list())] loop; [q] is the
    [std::queue], front first. *)
Fixpoint bfs_visit (node : ptr) (adjs : list ptr) (s : State) (q : list ptr)
  : State * list ptr :=
  match adjs with
  | [] => (s, q)
  | adj :: rest =>
      if color_eqb (get_color s adj) white then
        let s1 := set_color adj gray s in
        let s2 := set_predecessor adj (Some node) s1 in
        let s3 := set_distance adj (int_add (get_distance s2 node) 1) s2 in
        bfs_visit node rest s3 (q ++ [adj])
      else bfs_visit node rest s q
  end.

(** The [while (!q.empty())] loop; [None] when the fuel is exhausted. *)
Fixpoint bfs_loop (fuel : nat) (s : State) (q : list ptr) : option State :=
  match q with
  | [] => Some s
  | node :: q' =>
      match fuel with
      | 0 => None
      | S fuel' =>
          let '(s1, q1) := bfs_visit node (get_adj_list s node) s q' in
          bfs_loop fuel' (set_color node black s1) q1
      end
  end.

Definition bfs_start (src : ptr) (s : State) : State :=
  set_predecessor src None
    (set_color src gray (set_distance src 0%Z (bfs_reset (nodes s) s))).

Definition bfs (src : ptr) (s : State) : option State :=
  bfs_loop (length (nodes s)) (bfs_start src s) [src].

(* ================================================================== *)
(** * The containers of the standard library used by [prim] *)
(* ================================================================== *)

(** [std::set<Node*>]: only [insert] and [find] are used, so the set is kept
    as a duplicate-free list of addresses. *)
Definition set_find (x : ptr) (l : list ptr) : bool := existsb (Nat.eqb x) l.
Definition set_insert (x : ptr) (l : list ptr) : list ptr :=
  if set_find x l then l else x :: l.

(** [c[i] = x] on the underlying [std::vector<Node*>]. *)
Fixpoint assign (c : list ptr) (i : nat) (x : ptr) : list ptr :=
  match c, i with
  | [], _ => []
  | _ :: t, 0 => x :: t
  | h :: t, S j => h :: assign t j x
  end.

(** [std::priority_queue<Node*, std::vector<Node*>, Compare>] is the
    container adaptor of the standard library: [push] is [push_back]
    followed by [std::push_heap], [pop] is [std::pop_heap] followed by
    [pop_back], and [top] is [front].  The two heap algorithms follow
    libstdc++ ([__push_heap], [__adjust_heap]).  The comparison is handed in
    as [comp], because [Compare] dereferences the nodes at the moment it is
    called: the keys of the queue are the current distances in memory. *)
Fixpoint push_heap_aux (fuel : nat) (comp : ptr -> ptr -> bool) (c : list ptr)
    (holeIndex topIndex : nat) (value : ptr) : list ptr :=
  match fuel with
  | 0 => assign c holeIndex value
  | S fuel' =>
      let parent := (holeIndex - 1) / 2 in
      if (topIndex <? holeIndex) && comp (nth parent c 0) value then
        push_heap_aux fuel' comp (assign c holeIndex (nth parent c 0))
                      parent topIndex value
      else assign c holeIndex value
  end.

Definition push_heap (comp : ptr -> ptr -> bool) (c : list ptr) : list ptr :=
  match length c with
  | 0 => c
  | S last => push_heap_aux last comp c last 0 (nth last c 0)
  end.

Fixpoint adjust_heap_down (fuel : nat) (comp : ptr -> ptr -> bool)
    (c : list ptr) (holeIndex secondChild len : nat) : list ptr * nat * nat :=
  match fuel with
  | 0 => (c, holeIndex, secondChild)
  | S fuel' =>
      if secondChild <? (len - 1) / 2 then
        let child := 2 * (secondChild + 1) in
        let child :=
          if comp (nth child c 0) (nth (child - 1) c 0) then child - 1 else child in
        adjust_heap_down fuel' comp (assign c holeIndex (nth child c 0))
                         child child len
      else (c, holeIndex, secondChild)
  end.

(** Called with [1 <= len] only. *)
Definition adjust_heap (comp : ptr -> ptr -> bool) (c : list ptr)
    (holeIndex len : nat) (value : ptr) : list ptr :=
  let topIndex := holeIndex in
  let '(c1, hole1, child1) :=
    adjust_heap_down len comp c holeIndex holeIndex len in
  let '(c2, hole2) :=
    if Nat.even len && Nat.eqb child1 ((len - 2) / 2) then
      let child := 2 * (child1 + 1) in
      (assign c1 hole1 (nth (child - 1) c1 0), child - 1)
    else (c1, hole1) in
  push_heap_aux hole2 comp c2 hole2 topIndex value.

Definition pop_heap (comp : ptr -> ptr -> bool) (c : list ptr) : list ptr :=
  if 1 <? length c then
    let last := length c - 1 in
    let value := nth last c 0 in
    adjust_heap comp (assign c last (nth 0 c 0)) 0 last value
  else c.

Definition pq_push (comp : ptr -> ptr -> bool) (x : ptr) (c : list ptr) :=
  push_heap comp (c ++ [x]).
Definition pq_pop (comp : ptr -> ptr -> bool) (c : list ptr) :=
  removelast (pop_heap comp c).

(* ================================================================== *)
(** * Prim *)
(* ================================================================== *)

Definition Compare (s : State) (node1 node2 : ptr) : bool :=
  (get_distance s node1 >? get_distance s node2)%Z.

(** The state of the [while] loop of [prim]: the program state, the frontier
    [pq], the committed set [in_mst], and, as a ghost component, the calls
    [get_edge(node, adj)] made so far. *)
Record PrimState := mkPrim {
  st : State;
  pq : list ptr;
  in_mst : list ptr;
  lookups : list (ptr * ptr)
}.

Inductive Outcome :=
| Finished (s : State)
| NullEdge      (* a null [Edge*] is dereferenced *)
| OutOfFuel.

Fixpoint prim_reset (ns : list ptr) (s : State) : State :=
  match ns with
  | [] => s
  | node :: rest =>
      prim_reset rest (set_predecessor node None (set_distance node INT_MAX s))
  end.

(** The [for (auto& adj : node->get_adj_list())] loop of [prim]. *)
Fixpoint prim_relax (node : ptr) (adjs : list ptr) (p : PrimState)
  : option PrimState :=
  match adjs with
  | [] => Some p
  | adj :: rest =>
      let edge := get_edge (st p) node adj in
      let calls := lookups p ++ [(node, adj)] in
      if negb (set_find adj (in_mst p)) then
        match edge with
        | None => None
        | Some e =>
            if (get_distance (st p) adj >? weight e)%Z then
              let s1 := set_predecessor adj (Some node) (st p) in
              let s2 := set_distance adj (weight e) s1 in
              prim_relax node rest
                (mkPrim s2 (pq_push (Compare s2) adj (pq p)) (in_mst p) calls)
            else prim_relax node rest (mkPrim (st p) (pq p) (in_mst p) calls)
        end
      else prim_relax node rest (mkPrim (st p) (pq p) (in_mst p) calls)
  end.

(** One turn of the [while (!pq.empty())] loop, for a non-empty frontier. *)
Definition prim_iter (p : PrimState) : option PrimState :=
  match pq p with
  | [] => Some p
  | node :: _ =>
      prim_relax node (get_adj_list (st p) node)
        (mkPrim (st p) (pq_pop (Compare (st p)) (pq p))
                (set_insert node (in_mst p)) (lookups p))
  end.

Fixpoint prim_loop (fuel : nat) (p : PrimState) : Outcome :=
  match pq p with
  | [] => Finished (st p)
  | _ :: _ =>
      match fuel with
      | 0 => OutOfFuel
      | S fuel' =>
          match prim_iter p with
          | None => NullEdge
          | Some p' => prim_loop fuel' p'
          end
      end
  end.

Definition prim_start (src : ptr) (s : State) : PrimState :=
  let s1 := set_predecessor src None
              (set_distance src 0%Z (prim_reset (nodes s) s)) in
  mkPrim s1 (pq_push (Compare s1) src []) [] [].

Definition prim_fuel (s : State) : nat := 1 + length (nodes s) * length (edges s).

Definition prim (src : ptr) (s : State) : Outcome :=
  prim_loop (prim_fuel s) (prim_start src s).

(** The loop state after [k] turns; [None] once a null edge has been
    dereferenced. *)
Fixpoint prim_steps (k : nat) (p : PrimState) : option PrimState :=
  match k with
  | 0 => Some p
  | S k' =>
      match prim_iter p with
      | None => None
      | Some p' => prim_steps k' p'
      end
  end.

(* ================================================================== *)
(** * Shape classification *)
(* ================================================================== *)

(** [adj != node->get_predecessor()] *)
Definition is_child (s : State) (node adj : ptr) : bool :=
  match get_predecessor s node with
  | Some p => negb (Nat.eqb adj p)
  | None => true
  end.

Fixpoint count_children (s : State) (node : ptr) (adjs : list ptr) (children : Z) : Z :=
  match adjs with
  | [] => children
  | adj :: rest =>
      count_children s node rest
        (if is_child s node adj then int_add children 1 else children)
  end.

Fixpoint is_binary_scan (ns : list ptr) (s : State) : bool * State :=
  match ns with
  | [] => (true, s)
  | node :: rest =>
      let children := count_children s node (get_adj_list s node) 0%Z in
      if (children >? 2)%Z then (false, s) else is_binary_scan rest s
  end.

Definition is_binary (s : State) : bool * State := is_binary_scan (nodes s) s.

Fixpoint collect_children (s : State) (node : ptr) (adjs : list ptr)
    (children : list ptr) : list ptr :=
  match adjs with
  | [] => children
  | adj :: rest =>
      collect_children s node rest
        (if is_child s node adj then children ++ [adj] else children)
  end.

Fixpoint is_complete_binary_scan (ns : list ptr) (s : State) : bool * State :=
  match ns with
  | [] => (true, s)
  | node :: rest =>
      let children := collect_children s node (get_adj_list s node) [] in
      if negb (Nat.eqb (length children) 0) && (length children <? 2)
      then (false, s)
      else is_complete_binary_scan rest s
  end.

Definition is_complete_binary (s : State) : bool * State :=
  is_complete_binary_scan (nodes s) s.

(* ================================================================== *)
(** * Vocabulary of the statements: graphs *)
(* ================================================================== *)

(** The children of a node, as the classifier understands them: the entries
    of its adjacency list that are not its predecessor. *)
Definition children_of (s : State) (node : ptr) : list ptr :=
  filter (is_child s node) (get_adj_list s node).

(** The number of entries of a node's adjacency list that are not its
    predecessor, counted without running the classifiers' test: all the
    entries, less the occurrences of the predecessor when there is one. *)
Definition child_count (s : State) (node : ptr) : nat :=
  length (get_adj_list s node) -
  match get_predecessor s node with
  | Some p => count_occ Nat.eq_dec (get_adj_list s node) p
  | None => 0
  end.

(** [hops s u v n]: there is a walk of [n] adjacency steps from [u] to [v]. *)
Inductive hops (s : State) (u : ptr) : ptr -> nat -> Prop :=
| hops_here : hops s u u 0
| hops_step : forall v w n,
    hops s u v n -> In w (get_adj_list s v) -> hops s u w (S n).

Definition reachable (s : State) (u v : ptr) : Prop := exists n, hops s u v n.

(** Store invariant of the data model: every adjacency entry of a stored
    node refers to a stored node. *)
Definition closed (s : State) : Prop :=
  forall u v, In u (nodes s) -> In v (get_adj_list s u) -> In v (nodes s).

(** Executable form of [closed]. *)
Definition closedb (s : State) : bool :=
  forallb (fun u => forallb (fun v => set_find v (nodes s)) (get_adj_list s u))
          (nodes s).

(** [connects e a b]: the endpoint pair of [e] is [{a, b}], in either
    orientation. *)
Definition connects (e : Edge) (a b : ptr) : Prop :=
  (source e = a /\ destination e = b) \/ (source e = b /\ destination e = a).

(** What [bfs] and [prim] leave alone: everything but the colour, distance
    and predecessor fields of the node objects. *)
Definition same_graph (s s' : State) : Prop :=
  nodes s' = nodes s /\ edges s' = edges s /\
  tot_nodes s' = tot_nodes s /\ tot_edges s' = tot_edges s /\
  brk s' = brk s /\ cerr s' = cerr s /\
  forall p, get_adj_list s' p = get_adj_list s p /\ get_data s' p = get_data s p.

(** [prim] also leaves the colours alone. *)
Definition same_colors (s s' : State) : Prop :=
  forall p, get_color s' p = get_color s p.

(** Objects that are not stored nodes are as they were in [s0]. *)
Definition outside_untouched (s0 s : State) : Prop :=
  forall p, ~ In p (nodes s0) -> cells s p = cells s0 p.

(* ================================================================== *)
(** * Vocabulary of the statements: load *)
(* ================================================================== *)


(** Two states that differ at most in what has been written to [std::cerr]. *)
Definition same_store (s s' : State) : Prop :=
  cells s' = cells s /\ brk s' = brk s /\ nodes s' = nodes s /\
  edges s' = edges s /\ tot_nodes s' = tot_nodes s /\ tot_edges s' = tot_edges s.

(** An edge line both of whose ids lie in [0 .. n-1]. *)
Definition line_known (n : Z) (line : Z * Z * Z) : bool :=
  let '(a, b, _) := line in
  ((0 <=? a) && (a <? n) && (0 <=? b) && (b <? n))%Z.

(** The edge object [load] builds for a line, when the nodes were allocated
    from address [base] on. *)
Definition line_edge (base : ptr) (line : Z * Z * Z) : Edge :=
  let '(a, b, w) := line in mkEdge (base + Z.to_nat a) (base + Z.to_nat b) w.

(** The stored nodes are the [n] objects at [base], [base + 1], ..., and the
    one at [base + k] has identity [k]: the layout [load] produces. *)
Definition indexed (base : ptr) (n : nat) (s : State) : Prop :=
  nodes s = seq base n /\
  forall k, k < n -> get_data s (base + k) = Z.of_nat k.

(* ================================================================== *)
(** * Vocabulary of the statements: bfs *)
(* ================================================================== *)

(** What [bfs_visit] does to a white neighbour [adj] of [node]. *)
Definition discover (node adj : ptr) (s : State) : State :=
  let s1 := set_color adj gray s in
  let s2 := set_predecessor adj (Some node) s1 in
  set_distance adj (int_add (get_distance s2 node) 1) s2.

(** Number of stored nodes that are still white. *)
Definition white_count (s : State) : nat :=
  list_sum (map (fun p => if color_eqb (get_color s p) white then 1 else 0)
                (nodes s)).

(** The node reached from [v] by following [n] predecessor pointers. *)
Fixpoint ancestor (s : State) (n : nat) (v : ptr) : option ptr :=
  match n with
  | 0 => Some v
  | S k =>
      match get_predecessor s v with
      | Some u => ancestor s k u
      | None => None
      end
  end.

(** Invariant of the [while] loop of [bfs] started on [s0], as far as
    termination and footprint go: the graph is that of [s0], only stored
    nodes have been written to, the queue holds stored nodes, and the queue
    length plus the number of white nodes is at most [m]. *)
Record bfs_run_inv (s0 : State) (m : nat) (s : State) (q : list ptr) : Prop := {
  run_graph : same_graph s0 s;
  run_outside : outside_untouched s0 s;
  run_queue : Forall (fun w => In w (nodes s0)) q;
  run_budget : length q + white_count s <= m
}.

(** Invariant of [bfs src] started on [s0], while node [u] is being
    expanded: [done] are the adjacency entries of [u] handled so far and
    [q] is the queue behind [u]. *)
Record bfs_inv (s0 : State) (src : ptr) (u : ptr) (done : list ptr)
    (s : State) (q : list ptr) : Prop := {
  inv_graph : same_graph s0 s;
  inv_queue : forall w, In w (u :: q) -> In w (nodes s0);
  inv_nodup : NoDup (u :: q);
  inv_gray : forall v, In v (nodes s0) ->
    (get_color s v = gray <-> In v (u :: q));
  inv_white : forall v, In v (nodes s0) -> get_color s v = white ->
    get_distance s v = INT_MAX /\ get_predecessor s v = None;
  inv_path : forall v, In v (nodes s0) -> get_color s v <> white ->
    (0 <= get_distance s v)%Z /\
    hops s0 src v (Z.to_nat (get_distance s v)) /\
    (get_distance s v + Z.of_nat (white_count s) <
     Z.of_nat (length (nodes s0)))%Z;
  inv_src : In src (nodes s0) /\ get_color s src <> white /\
    get_distance s src = 0%Z /\ get_predecessor s src = None;
  inv_pred : forall v, In v (nodes s0) -> get_color s v <> white -> v <> src ->
    exists w, get_predecessor s v = Some w /\ In w (nodes s0) /\
              get_color s w <> white /\ In v (get_adj_list s0 w) /\
              get_distance s v = (get_distance s w + 1)%Z;
  inv_black : forall w v, In w (nodes s0) -> get_color s w = black ->
    In v (get_adj_list s0 w) ->
    get_color s v <> white /\ (get_distance s v <= get_distance s w + 1)%Z;
  inv_black_le : forall w, In w (nodes s0) -> get_color s w = black ->
    (get_distance s w <= get_distance s u)%Z;
  inv_sorted :
    StronglySorted (fun a b => (get_distance s a <= get_distance s b)%Z) (u :: q);
  inv_near : forall w, In w q -> (get_distance s w <= get_distance s u + 1)%Z;
  inv_done : forall v, In v done ->
    get_color s v <> white /\ (get_distance s v <= get_distance s u + 1)%Z
}.

(** What holds when the queue of [bfs src] has run empty. *)
Record bfs_final (s0 : State) (src : ptr) (s : State) : Prop := {
  fin_graph : same_graph s0 s;
  fin_colors : forall v, In v (nodes s0) -> get_color s v <> gray;
  fin_white : forall v, In v (nodes s0) -> get_color s v = white ->
    get_distance s v = INT_MAX /\ get_predecessor s v = None;
  fin_path : forall v, In v (nodes s0) -> get_color s v <> white ->
    (0 <= get_distance s v)%Z /\ hops s0 src v (Z.to_nat (get_distance s v));
  fin_src : In src (nodes s0) /\ get_color s src <> white /\
    get_distance s src = 0%Z /\ get_predecessor s src = None;
  fin_pred : forall v, In v (nodes s0) -> get_color s v <> white -> v <> src ->
    exists w, get_predecessor s v = Some w /\ In w (nodes s0) /\
              get_color s w <> white /\ In v (get_adj_list s0 w) /\
              get_distance s v = (get_distance s w + 1)%Z;
  fin_black : forall w v, In w (nodes s0) -> get_color s w <> white ->
    In v (get_adj_list s0 w) ->
    get_color s v <> white /\ (get_distance s v <= get_distance s w + 1)%Z
}.

(* ================================================================== *)
(** * Vocabulary of the statements: prim *)
(* ================================================================== *)

(** Every adjacency entry has a stored edge behind it. *)
Definition backed (s : State) : Prop :=
  forall u v, In v (get_adj_list s u) -> get_edge s u v <> None.

(** No object has any adjacency entry yet. *)
Definition blank (s : State) : Prop := forall p, get_adj_list s p = [].

(** States whose adjacency entries were all created by [insert_edge]:
    starting from a memory without adjacency entries, any sequence of node
    allocations, [insert_node], [insert_edge], [get_node] and searches. *)
Inductive built : State -> Prop :=
| built_blank : forall s, blank s -> built s
| built_alloc_node : forall i s, built s -> built (snd (alloc_node i s))
| built_insert_node : forall node s, built s -> built (insert_node node s)
| built_insert_edge : forall e s, built s -> built (insert_edge e s)
| built_get_node : forall d s, built s -> built (snd (get_node d s))
| built_bfs : forall src s s', built s -> bfs src s = Some s' -> built s'
| built_prim : forall src s s', built s -> prim src s = Finished s' -> built s'.

(** How many stored edges are lighter than [d]: the number of times a
    distance equal to [d] can still be lowered by [prim]. *)
Definition rank (es : list Edge) (d : Z) : nat :=
  length (filter (fun e => (weight e <? d)%Z) es).

Definition potential (s : State) : nat :=
  list_sum (map (fun v => rank (edges s) (get_distance s v)) (nodes s)).

(** Every neighbour of a committed node is committed too or already has a
    distance no larger than the weight [prim] finds for the pair. *)
Definition relaxed (p : PrimState) : Prop :=
  forall u v, set_find u (in_mst p) = true -> In v (get_adj_list (st p) u) ->
    set_find v (in_mst p) = true \/
    exists e, get_edge (st p) u v = Some e /\
              (get_distance (st p) v <= weight e)%Z.

(** The ghost log holds adjacency pairs only. *)
Definition lookups_adjacent (p : PrimState) : Prop :=
  forall u v, In (u, v) (lookups p) -> In v (get_adj_list (st p) u).

(** Loop invariant of [prim] started on [s0]: the graph and the colours are
    those of [s0], only stored nodes have been written to, the frontier
    holds stored nodes, and the frontier size plus the number of distance
    updates still possible is at most [m]. *)
Record prim_inv (s0 : State) (m : nat) (p : PrimState) : Prop := {
  pinv_graph : same_graph s0 (st p);
  pinv_colors : same_colors s0 (st p);
  pinv_outside : outside_untouched s0 (st p);
  pinv_frontier : Forall (fun x => In x (nodes s0)) (pq p);
  pinv_budget : length (pq p) + potential (st p) <= m
}.

(* ================================================================== *)
(** * Vocabulary of the statements: spanning trees *)
(* ================================================================== *)

(** A rooted spanning tree is given by one stored edge per node other than
    the root, leading to the node's parent. *)
Definition other_end (e : Edge) (v : ptr) : ptr :=
  if Nat.eqb (source e) v then destination e else source e.

Definition edge_eqb (a b : Edge) : bool :=
  Nat.eqb (source a) (source b) && Nat.eqb (destination a) (destination b)
  && (weight a =? weight b)%Z.

Fixpoint tree_parent (t : list (ptr * Edge)) (v : ptr) : option ptr :=
  match t with
  | [] => None
  | (c, e) :: rest => if Nat.eqb c v then Some (other_end e v) else tree_parent rest v
  end.

Fixpoint climbs (t : list (ptr * Edge)) (root : ptr) (fuel : nat) (v : ptr) : bool :=
  if Nat.eqb v root then true
  else match fuel with
       | 0 => false
       | S fuel' =>
           match tree_parent t v with
           | Some u => climbs t root fuel' u
           | None => false
           end
       end.

Fixpoint ptrs_eqb (a b : list ptr) : bool :=
  match a, b with
  | [], [] => true
  | x :: a', y :: b' => Nat.eqb x y && ptrs_eqb a' b'
  | _, _ => false
  end.

(** [t] is a spanning tree of the stored graph rooted at [root]: it has
    exactly one entry for each stored node other than the root, each entry
    is a stored edge incident to its node, and every stored node climbs to
    the root. *)
Definition spanning_treeb (s : State) (root : ptr) (t : list (ptr * Edge)) : bool :=
  ptrs_eqb (map fst t) (filter (fun v => negb (Nat.eqb v root)) (nodes s))
  && forallb (fun ce => existsb (edge_eqb (snd ce)) (edges s)
                        && (Nat.eqb (source (snd ce)) (fst ce)
                            || Nat.eqb (destination (snd ce)) (fst ce))) t
  && forallb (climbs t root (length (nodes s))) (nodes s).

Definition tree_total (t : list (ptr * Edge)) : Z :=
  fold_right (fun ce acc => (weight (snd ce) + acc)%Z) 0%Z t.

(** The edges selected by the predecessor pointers: for each stored node
    with a predecessor, the stored edge found between the two. *)
Definition predecessor_tree (s : State) : list (ptr * Edge) :=
  flat_map (fun v =>
              match get_predecessor s v with
              | Some u =>
                  match get_edge s v u with
                  | Some e => [(v, e)]
                  | None => []
                  end
              | None => []
              end) (nodes s).

Definition finished (o : Outcome) (default : State) : State :=
  match o with Finished s => s | _ => default end.

(* ================================================================== *)
(** * Concrete graphs *)
(* ================================================================== *)

(** Star with centre 0 and leaves 1, 2, 3; and the same after a search from
    the centre. *)
Definition star3 : State :=
  load (4, 3)%Z [(0, 1, 1); (0, 2, 1); (0, 3, 1)]%Z boot.
Definition star3_searched : State :=
  match bfs 0 star3 with Some s => s | None => star3 end.

(** The full binary tree on seven nodes, 0 at the root, searched from the
    root: nodes 1 and 2 have three adjacency entries each, their predecessor
    and two children. *)
Definition tree7 : State :=
  load (7, 6)%Z
       [(0, 1, 1); (0, 2, 1); (1, 3, 1); (1, 4, 1); (2, 5, 1); (2, 6, 1)]%Z boot.
Definition tree7_searched : State :=
  match bfs 0 tree7 with Some s => s | None => tree7 end.


(** Triangle 0-1 (5), 0-2 (1), 2-1 (2): node 1 enters the frontier twice. *)
Definition triangle : State :=
  load (3, 3)%Z [(0, 1, 5); (0, 2, 1); (2, 1, 2)]%Z boot.

(** The loop state of [prim 0] on the triangle after three turns, when the
    frontier holds the second entry of node 1. *)
Definition triangle_stale : PrimState :=
  match prim_steps 3 (prim_start 0 triangle) with
  | Some p => p
  | None => prim_start 0 triangle
  end.

(** Two nodes joined by two edges, the heavier one stored first. *)
Definition parallel : State := load (2, 2)%Z [(0, 1, 5); (0, 1, 1)]%Z boot.
Definition parallel_mst : State := finished (prim 0 parallel) parallel.

Definition parallel_lighter_tree : list (ptr * Edge) := [(1, mkEdge 0 1 1%Z)].

(** Two nodes joined by one edge of weight [INT_MAX]. *)
Definition heavy : State := load (2, 1)%Z [(0, 1, INT_MAX)]%Z boot.
Definition heavy_mst : State := finished (prim 0 heavy) heavy.

(** Five nodes, six edges, no parallel edges:
    0-1 (5), 0-2 (7), 0-3 (6), 1-4 (8), 1-2 (3), 2-3 (1). *)
Definition kite : State :=
  load (5, 6)%Z
       [(0, 1, 5); (0, 2, 7); (0, 3, 6); (1, 4, 8); (1, 2, 3); (2, 3, 1)]%Z boot.
Definition kite_mst : State := finished (prim 0 kite) kite.
Definition kite_lighter_tree : list (ptr * Edge) :=
  [(1, mkEdge 0 1 5%Z); (2, mkEdge 1 2 3%Z); (3, mkEdge 2 3 1%Z);
   (4, mkEdge 1 4 8%Z)].

(** The loop state of [prim 0] on [kite] after two turns (nodes 0 and 1
    committed). *)
Definition kite_after_two : PrimState :=
  match prim_steps 2 (prim_start 0 kite) with
  | Some p => p
  | None => prim_start 0 kite
  end.

(* ================================================================== *)
(** * Vocabulary of the further properties *)
(* ================================================================== *)

(** [d] is one of the identities [0 .. n-1]. *)
Definition id_known (n d : Z) : bool := ((0 <=? d) && (d <? n))%Z.

(** The diagnostics [load] writes for one edge line when the stored
    identities are [0 .. n-1]: one message for each of the two identities
    that is unknown, the source first. *)
Definition line_errors (n : Z) (line : Z * Z * Z) : list string :=
  let '(a, b, _) := line in
  (if id_known n a then [] else [get_node_error a]) ++
  (if id_known n b then [] else [get_node_error b]).

(** The line names the identities [a] and [b], in either order. *)
Definition line_joins (a b : Z) (line : Z * Z * Z) : bool :=
  let '(x, y, _) := line in
  ((x =? a) && (y =? b) || (x =? b) && (y =? a))%Z.

(** Number of stored edges whose endpoint pair is [{u, v}]. *)
Definition edges_between (s : State) (u v : ptr) : nat :=
  length (filter (edge_joins u v) (edges s)).

(** Every entry of a stored node's adjacency list stands for one stored
    edge, a self-loop for two entries. *)
Definition adjacency_counted (s : State) : Prop :=
  forall u v, In u (nodes s) ->
    count_occ Nat.eq_dec (get_adj_list s u) v =
    (if Nat.eqb u v then 2 else 1) * edges_between s u v.

(** Every adjacency entry of a stored node has a stored edge behind it. *)
Definition stored_backed (s : State) : Prop :=
  forall u v, In u (nodes s) -> In v (get_adj_list s u) -> get_edge s u v <> None.

(** Executable form of [stored_backed]. *)
Definition stored_backedb (s : State) : bool :=
  forallb (fun u =>
             forallb (fun v => match get_edge s u v with
                               | Some _ => true
                               | None => false
                               end) (get_adj_list s u))
          (nodes s).

(** What the loop of [prim src], started on [s0], keeps true of the tree it
    grows: the source stays at distance 0 without predecessor; the frontier
    holds stored nodes that are the source or have a predecessor; every
    committed node is reachable and its predecessors lead to the source in
    fewer steps than there are committed nodes;
    every other stored node is untouched or hangs by a stored edge, whose
    weight is its distance, from a committed neighbour; a node that has a
    predecessor is committed or waits in the frontier; and no node is
    committed twice. *)
Record prim_tree_inv (s0 : State) (src : ptr) (p : PrimState) : Prop := {
  tinv_graph : same_graph s0 (st p);
  tinv_start : (in_mst p = [] /\ pq p = [src]) \/ In src (in_mst p);
  tinv_src : get_distance (st p) src = 0%Z /\ get_predecessor (st p) src = None;
  tinv_frontier :
    Forall (fun v => In v (nodes s0) /\
                     (v = src \/ get_predecessor (st p) v <> None)) (pq p);
  tinv_committed : forall v, In v (in_mst p) ->
    In v (nodes s0) /\ reachable s0 src v /\
    exists n, n < length (in_mst p) /\ ancestor (st p) n v = Some src;
  tinv_touched : forall v, In v (nodes s0) -> v <> src ->
    (get_predecessor (st p) v = None /\ get_distance (st p) v = INT_MAX) \/
    (exists u e, get_predecessor (st p) v = Some u /\ In u (in_mst p) /\
       In v (get_adj_list s0 u) /\ get_edge s0 u v = Some e /\
       get_distance (st p) v = weight e /\ (weight e < INT_MAX)%Z);
  tinv_queued : forall v, In v (nodes s0) ->
    get_predecessor (st p) v <> None -> In v (in_mst p) \/ In v (pq p);
  tinv_nodup : NoDup (in_mst p)
}.

(** The state [s] with the colour of every object replaced by [c]. *)
Definition repaint (c : ptr -> Color) (s : State) : State :=
  mkState (fun p => node_set_color (c p) (cells s p)) (brk s) (nodes s)
          (edges s) (tot_nodes s) (tot_edges s) (cerr s).

Definition repaint_prim (c : ptr -> Color) (p : PrimState) : PrimState :=
  mkPrim (repaint c (st p)) (pq p) (in_mst p) (lookups p).

Definition repaint_outcome (c : ptr -> Color) (o : Outcome) : Outcome :=
  match o with
  | Finished s => Finished (repaint c s)
  | NullEdge => NullEdge
  | OutOfFuel => OutOfFuel
  end.

(* ================================================================== *)
(** * Basic facts about memory updates *)
(* ================================================================== *)

Lemma upd_same : forall m p n, upd m p n p = n.
Proof. intros; unfold upd; now rewrite Nat.eqb_refl. Qed.

Lemma upd_other : forall m p n q, q <> p -> upd m p n q = m q.
Proof.
  intros m p n q H; unfold upd.
  destruct (Nat.eqb_spec q p); [contradiction | reflexivity].
Qed.

Lemma cells_modify_same : forall p f s, cells (modify p f s) p = f (cells s p).
Proof. intros; apply upd_same. Qed.

Lemma cells_modify_other : forall p f s q,
  q <> p -> cells (modify p f s) q = cells s q.
Proof. intros; now apply upd_other. Qed.

Lemma cells_modify : forall p f s q,
  cells (modify p f s) q = if Nat.eqb q p then f (cells s p) else cells s q.
Proof. reflexivity. Qed.

Lemma same_graph_refl : forall s, same_graph s s.
Proof. intro s; repeat split. Qed.

Lemma same_graph_trans : forall s1 s2 s3,
  same_graph s1 s2 -> same_graph s2 s3 -> same_graph s1 s3.
Proof.
  intros s1 s2 s3 (A1 & A2 & A3 & A4 & A5 & A6 & A7) (B1 & B2 & B3 & B4 & B5 & B6 & B7).
  repeat split; try congruence.
  - rewrite (proj1 (B7 p)); apply A7.
  - rewrite (proj2 (B7 p)); apply A7.
Qed.

Lemma same_graph_modify : forall p f s,
  (forall n, adj_list (f n) = adj_list n /\ data (f n) = data n) ->
  same_graph s (modify p f s).
Proof.
  intros p f s Hf; repeat split; unfold get_adj_list, get_data;
    rewrite cells_modify; destruct (Nat.eqb_spec p0 p); subst; auto; apply Hf.
Qed.

Lemma same_graph_set_color : forall p c s, same_graph s (set_color p c s).
Proof. intros; apply same_graph_modify; intros []; auto. Qed.

Lemma same_graph_set_distance : forall p d s, same_graph s (set_distance p d s).
Proof. intros; apply same_graph_modify; intros []; auto. Qed.

Lemma same_graph_set_predecessor : forall p q s,
  same_graph s (set_predecessor p q s).
Proof. intros; apply same_graph_modify; intros []; auto. Qed.

Create HintDb graph.
#[local] Hint Resolve same_graph_refl same_graph_set_color
  same_graph_set_distance same_graph_set_predecessor : graph.

(* ================================================================== *)
(** * get_edge *)
(* ================================================================== *)

Lemma edge_joins_connects : forall a b e,
  edge_joins a b e = true <-> connects e a b.
Proof.
  intros a b e; unfold edge_joins, connects.
  rewrite orb_true_iff, !andb_true_iff, !Nat.eqb_eq; tauto.
Qed.

Lemma edge_joins_sym : forall a b e, edge_joins a b e = edge_joins b a e.
Proof. intros; unfold edge_joins; apply orb_comm. Qed.

Lemma get_edge_scan_sym : forall es a b,
  get_edge_scan es a b = get_edge_scan es b a.
Proof.
  induction es as [|e es IH]; intros a b; simpl; [reflexivity|].
  rewrite (edge_joins_sym a b), IH; reflexivity.
Qed.

Lemma get_edge_scan_none : forall es a b,
  get_edge_scan es a b = None <-> (forall e, In e es -> ~ connects e a b).
Proof.
  induction es as [|e es IH]; intros a b; simpl.
  - split; [intros _ e [] | reflexivity].
  - destruct (edge_joins a b e) eqn:J.
    + split; [discriminate|]. intros H; exfalso.
      apply (H e); [now left | now apply edge_joins_connects].
    + rewrite IH; split.
      * intros H e' [<-|Hin]; [|now apply H].
        rewrite <- edge_joins_connects; congruence.
      * intros H e' Hin; apply H; now right.
Qed.

Lemma get_edge_scan_some : forall es a b e,
  get_edge_scan es a b = Some e <->
  exists before after,
    es = before ++ e :: after /\ connects e a b /\
    forall e', In e' before -> ~ connects e' a b.
Proof.
  induction es as [|e0 es IH]; intros a b e; simpl.
  - split; [discriminate|]. intros ([|? ?] & ? & H & _); discriminate.
  - destruct (edge_joins a b e0) eqn:J.
    + split.
      * intros [= <-]. exists [], es; repeat split.
        -- now apply edge_joins_connects.
        -- intros ? [].
      * intros (before & after & E & C & N). destruct before as [|x before].
        -- simpl in E; congruence.
        -- simpl in E; injection E as <- _. exfalso.
           apply (N e0); [now left | now apply edge_joins_connects].
    + rewrite IH; split.
      * intros (before & after & -> & C & N).
        exists (e0 :: before), after; repeat split; auto.
        intros e' [<-|Hin]; [|now apply N].
        rewrite <- edge_joins_connects; congruence.
      * intros (before & after & E & C & N). destruct before as [|x before].
        -- simpl in E; injection E as -> _.
           apply edge_joins_connects in C; congruence.
        -- simpl in E; injection E as <- ->.
           exists before, after; repeat split; auto.
           intros e' Hin; apply N; now right.
Qed.

(** C9. [get_edge(a, b)] and [get_edge(b, a)] return the same result; that
    result is the first stored edge whose endpoint pair is [{a, b}] in
    either orientation, and it is null exactly when no stored edge has that
    endpoint pair. *)
Theorem get_edge_unordered : forall s a b,
  get_edge s a b = get_edge s b a /\
  (forall e, get_edge s a b = Some e <->
     exists before after,
       edges s = before ++ e :: after /\ connects e a b /\
       forall e', In e' before -> ~ connects e' a b) /\
  (get_edge s a b = None <-> forall e, In e (edges s) -> ~ connects e a b).
Proof.
  intros s a b; unfold get_edge; repeat split.
  - apply get_edge_scan_sym.
  - apply get_edge_scan_some.
  - apply get_edge_scan_some.
  - apply get_edge_scan_none.
  - apply get_edge_scan_none.
Qed.

(* ================================================================== *)
(** * Shape classification *)
(* ================================================================== *)

Lemma to_int_small : forall z, (- 2147483648 <= z < 2147483648)%Z -> to_int z = z.
Proof.
  intros z H; unfold to_int.
  rewrite Z.mod_small; lia.
Qed.

Lemma count_children_filter : forall s node adjs c,
  (0 <= c)%Z -> (c + Z.of_nat (length adjs) <= INT_MAX)%Z ->
  count_children s node adjs c =
  (c + Z.of_nat (length (filter (is_child s node) adjs)))%Z.
Proof.
  unfold INT_MAX; induction adjs as [|adj adjs IH]; intros c H0 H; simpl in *.
  - lia.
  - destruct (is_child s node adj); simpl.
    + unfold int_add; rewrite to_int_small by lia.
      rewrite IH by lia. lia.
    + rewrite IH by lia. lia.
Qed.

Lemma collect_children_filter : forall s node adjs acc,
  collect_children s node adjs acc = acc ++ filter (is_child s node) adjs.
Proof.
  induction adjs as [|adj adjs IH]; intros acc; simpl.
  - now rewrite app_nil_r.
  - rewrite IH. destruct (is_child s node adj); [|reflexivity].
    now rewrite <- app_assoc.
Qed.

Lemma is_binary_scan_state : forall ns s, snd (is_binary_scan ns s) = s.
Proof.
  induction ns as [|n ns IH]; intros s; simpl; [reflexivity|].
  destruct (_ >? _)%Z; [reflexivity | apply IH].
Qed.

Lemma is_complete_binary_scan_state : forall ns s,
  snd (is_complete_binary_scan ns s) = s.
Proof.
  induction ns as [|n ns IH]; intros s; simpl; [reflexivity|].
  destruct (_ && _); [reflexivity | apply IH].
Qed.

Lemma is_binary_scan_true : forall s ns,
  (forall node, In node ns ->
     (Z.of_nat (length (get_adj_list s node)) <= INT_MAX)%Z) ->
  (fst (is_binary_scan ns s) = true <->
   forall node, In node ns -> length (children_of s node) <= 2).
Proof.
  intros s; induction ns as [|n ns IH]; intros Hlen; simpl.
  - split; [intros _ ? [] | reflexivity].
  - rewrite count_children_filter by (try apply Hlen; simpl; auto; lia).
    fold (children_of s n).
    destruct (_ >? _)%Z eqn:G.
    + simpl; split; [discriminate|]. intros H.
      specialize (H n (or_introl eq_refl)).
      apply Z.gtb_lt in G. lia.
    + rewrite IH by (intros; apply Hlen; now right).
      assert (length (children_of s n) <= 2).
      { destruct (Z.gtb_spec (0 + Z.of_nat (length (children_of s n))) 2);
          [discriminate | lia]. }
      split.
      * intros H0 node [<-|Hin]; auto.
      * intros H0 node Hin; apply H0; now right.
Qed.

Lemma filter_not_eq_count : forall (l : list ptr) p,
  length (filter (fun adj => negb (Nat.eqb adj p)) l)
  + count_occ Nat.eq_dec l p = length l.
Proof.
  induction l as [|x l IH]; intros p; [reflexivity|].
  cbn [filter count_occ length]. specialize (IH p).
  destruct (Nat.eqb_spec x p), (Nat.eq_dec x p); cbn [negb length];
    try congruence; lia.
Qed.

Lemma children_of_count : forall s node,
  length (children_of s node) = child_count s node.
Proof.
  intros s node. unfold children_of, child_count.
  destruct (get_predecessor s node) as [p|] eqn:P.
  - rewrite (filter_ext (is_child s node) (fun adj => negb (Nat.eqb adj p))).
    + pose proof (filter_not_eq_count (get_adj_list s node) p).
      unfold ptr in *. lia.
    + intros adj. unfold is_child. now rewrite P.
  - rewrite (filter_ext (is_child s node) (fun _ => true)).
    + rewrite Nat.sub_0_r. f_equal.
      induction (get_adj_list s node) as [|x l IH]; simpl; congruence.
    + intros adj. unfold is_child. now rewrite P.
Qed.

(** C5. [is_binary] returns true iff every stored node has at most two
    children, and false iff some stored node has more than two.  The number
    of children of a node is [child_count]: the number of entries of its
    adjacency list less the occurrences of its predecessor, so the
    predecessor is not counted.  The counter is an [int]: adjacency lists
    are taken to be within its range. *)
Theorem is_binary_iff : forall s,
  (forall node, In node (nodes s) ->
     (Z.of_nat (length (get_adj_list s node)) <= INT_MAX)%Z) ->
  (fst (is_binary s) = true <->
     forall node, In node (nodes s) -> child_count s node <= 2) /\
  (fst (is_binary s) = false <->
     exists node, In node (nodes s) /\ 2 < child_count s node).
Proof.
  intros s Hlen.
  pose proof (is_binary_scan_true s (nodes s) Hlen) as T.
  assert (fst (is_binary s) = true <->
          forall node, In node (nodes s) -> child_count s node <= 2) as T'.
  { unfold is_binary. rewrite T.
    split; intros H node Hin; specialize (H node Hin);
      rewrite children_of_count in *; exact H. }
  split; [exact T'|].
  rewrite <- not_true_iff_false, T'. split.
  - intros H.
    destruct (Exists_dec (fun node => 2 < child_count s node) (nodes s))
      as [E|E].
    + intros x; destruct (lt_dec 2 (child_count s x)); auto.
    + apply Exists_exists in E; exact E.
    + exfalso; apply H; intros node Hin.
      destruct (le_dec (child_count s node) 2); [assumption|].
      exfalso; apply E, Exists_exists; exists node; split; [assumption | lia].
  - intros (node & Hin & Hgt) H. specialize (H node Hin). lia.
Qed.

(** On the searched seven-node tree [is_binary] returns true although
    node 1 has three adjacency entries: one of them is its predecessor. *)
Lemma is_binary_iff_witness :
  fst (is_binary tree7_searched) = true /\
  length (get_adj_list tree7_searched 1) = 3 /\
  child_count tree7_searched 1 = 2.
Proof.
  split; [|split; vm_compute; reflexivity].
  apply (is_binary_iff tree7_searched).
  - intros node Hin. vm_compute in Hin.
    repeat (destruct Hin as [<-|Hin]; [vm_compute; discriminate|]).
    destruct Hin.
  - intros node Hin. vm_compute in Hin.
    repeat (destruct Hin as [<-|Hin]; [vm_compute; repeat constructor|]).
    destruct Hin.
Defined.

Lemma is_complete_binary_scan_true : forall s ns,
  fst (is_complete_binary_scan ns s) = true <->
  forall node, In node ns -> length (children_of s node) <> 1.
Proof.
  intros s; induction ns as [|n ns IH]; simpl.
  - split; [intros _ ? [] | reflexivity].
  - rewrite collect_children_filter; simpl. fold (children_of s n).
    destruct (length (children_of s n)) as [|[|k]] eqn:L; simpl.
    + rewrite IH; split.
      * intros H node [<-|Hin]; [lia | auto].
      * intros H node Hin; apply H; now right.
    + split; [discriminate|]. intros H.
      exfalso; apply (H n); [now left | assumption].
    + rewrite IH; split.
      * intros H node [<-|Hin]; [lia | auto].
      * intros H node Hin; apply H; now right.
Qed.

(** C3, as the code has it.  [is_complete_binary] returns true iff no stored
    node has exactly one child: every stored node has no child or at least
    two.  A node with three or more children does not make it return
    false. *)
Theorem is_complete_binary_iff : forall s,
  fst (is_complete_binary s) = true <->
  forall node, In node (nodes s) ->
    length (children_of s node) = 0 \/ 2 <= length (children_of s node).
Proof.
  intros s; unfold is_complete_binary.
  rewrite is_complete_binary_scan_true; split; intros H node Hin;
    specialize (H node Hin); lia.
Qed.

(** C3, as stated, fails on the star with three leaves searched from its
    centre: the centre has three children, yet the result is true. *)
Lemma is_complete_binary_three_children :
  fst (is_complete_binary star3_searched) = true /\
  In 0 (nodes star3_searched) /\
  length (children_of star3_searched 0) = 3 /\
  ~ (fst (is_complete_binary star3_searched) = true <->
     forall node, In node (nodes star3_searched) ->
       length (children_of star3_searched node) = 0 \/
       length (children_of star3_searched node) = 2).
Proof.
  assert (In 0 (nodes star3_searched)) as Hin by (vm_compute; left; reflexivity).
  assert (length (children_of star3_searched 0) = 3) as H3 by (vm_compute; reflexivity).
  assert (fst (is_complete_binary star3_searched) = true) as Ht
    by (vm_compute; reflexivity).
  revert Hin H3 Ht. generalize star3_searched. intros s Hin H3 Ht.
  split; [exact Ht|]. split; [exact Hin|]. split; [exact H3|].
  intros [H _]. destruct (H Ht 0 Hin) as [E|E]; rewrite H3 in E; discriminate.
Qed.

(* ================================================================== *)
(** * get_node and load *)
(* ================================================================== *)

Lemma get_node_scan_cells : forall s s' ns d,
  cells s' = cells s -> get_node_scan s' ns d = get_node_scan s ns d.
Proof.
  intros s s' ns d E; induction ns as [|n ns IH]; simpl; [reflexivity|].
  unfold get_data; rewrite E, IH; reflexivity.
Qed.

Lemma get_node_scan_none : forall s ns d,
  get_node_scan s ns d = None <->
  forall node, In node ns -> get_data s node <> d.
Proof.
  intros s ns d; induction ns as [|n ns IH]; simpl.
  - split; [intros _ ? [] | reflexivity].
  - destruct (Z.eqb_spec (get_data s n) d) as [E|E].
    + split; [discriminate|]. intros H; exfalso; apply (H n); auto.
    + rewrite IH; split.
      * intros H node [<-|Hin]; auto.
      * intros H node Hin; apply H; now right.
Qed.


Lemma same_store_refl : forall s, same_store s s.
Proof. intro s; repeat split. Qed.



Lemma same_store_write_cerr : forall msg s, same_store s (write_cerr msg s).
Proof. intros; repeat split. Qed.

Lemma get_node_same_store : forall d s,
  same_store s (snd (get_node d s)).
Proof.
  intros d s; unfold get_node.
  destruct (get_node_scan s (nodes s) d); simpl;
    [apply same_store_refl | apply same_store_write_cerr].
Qed.







(** One turn of the node-creating loop of [load]. *)
Lemma load_nodes_step : forall k s base,
  indexed base k s -> brk s = base + k ->
  (Z.of_nat k < tot_nodes s <= INT_MAX)%Z ->
  let s1 := insert_node (brk s) (snd (alloc_node (Z.of_nat k) s)) in
  indexed base (S k) s1 /\ brk s1 = base + S k /\
  tot_nodes s1 = tot_nodes s /\ edges s1 = edges s /\
  tot_edges s1 = tot_edges s /\ cerr s1 = cerr s.
Proof.
  intros k s base [Hn Hd] Hb Ht s1. unfold INT_MAX in Ht.
  assert (tot_nodes s1 = tot_nodes s) as Et.
  { unfold s1, insert_node, alloc_node; simpl.
    rewrite Hn, length_app, length_seq; simpl.
    unfold to_size_t. rewrite Z.mod_small by lia.
    destruct (Z.ltb_spec (tot_nodes s) (Z.of_nat (k + 1))); [lia | reflexivity]. }
  repeat split; auto.
  - unfold s1, insert_node, alloc_node; cbn [nodes snd]. rewrite Hn, Hb.
    symmetry; apply seq_S.
  - intros j Hj. unfold s1, insert_node, alloc_node, get_data; simpl.
    unfold upd. rewrite Hb.
    destruct (Nat.eqb_spec (base + j) (base + k)) as [E|E].
    + assert (j = k) by lia. subst; reflexivity.
    + apply Hd; lia.
  - unfold s1; simpl; lia.
Qed.

Lemma load_nodes_indexed : forall fuel k s base,
  indexed base k s -> brk s = base + k ->
  (Z.of_nat k + Z.of_nat fuel = tot_nodes s)%Z ->
  (tot_nodes s <= INT_MAX)%Z ->
  let s' := load_nodes fuel (Z.of_nat k) s in
  indexed base (k + fuel) s' /\ edges s' = edges s /\
  tot_edges s' = tot_edges s /\ tot_nodes s' = tot_nodes s /\
  cerr s' = cerr s /\ brk s' = base + k + fuel.
Proof.
  induction fuel as [|fuel IH]; intros k s base I Hb Ht Hmax;
    cbn [load_nodes]; cbv zeta.
  - rewrite !Nat.add_0_r; repeat split; auto; apply I.
  - destruct (Z.ltb_spec (Z.of_nat k) (tot_nodes s)) as [_|C]; [|lia].
    pose proof (@load_nodes_step k s base I Hb) as St. cbv zeta in St.
    change (alloc_node (Z.of_nat k) s)
      with (brk s, snd (alloc_node (Z.of_nat k) s)).
    cbv iota beta.
    set (s1 := insert_node (brk s) (snd (alloc_node (Z.of_nat k) s))) in *.
    destruct St as (I1 & B1 & T1 & E1 & E2 & E3); [lia|]. clearbody s1.
    rewrite to_int_small by (unfold INT_MAX in *; lia).
    replace (Z.of_nat k + 1)%Z with (Z.of_nat (S k)) by lia.
    destruct (IH (S k) s1 base I1 B1) as (A1 & A2 & A3 & A4 & A5 & A6);
      [lia | lia |].
    replace (k + S fuel) with (S k + fuel) by lia.
    replace (base + k + S fuel) with (base + S k + fuel) by lia.
    repeat split; try congruence; apply A1.
Qed.

(** The fuel [load] hands to that loop is never exhausted: more fuel gives
    the same result. *)
Lemma load_nodes_fuel : forall fuel extra k s base,
  indexed base k s -> brk s = base + k ->
  (Z.of_nat k + Z.of_nat fuel = tot_nodes s)%Z ->
  (tot_nodes s <= INT_MAX)%Z ->
  load_nodes (fuel + extra) (Z.of_nat k) s = load_nodes fuel (Z.of_nat k) s.
Proof.
  induction fuel as [|fuel IH]; intros extra k s base I Hb Ht Hmax.
  - destruct extra; cbn [load_nodes Nat.add]; auto.
    destruct (Z.ltb_spec (Z.of_nat k) (tot_nodes s)); [lia | reflexivity].
  - cbn [load_nodes Nat.add].
    destruct (Z.ltb_spec (Z.of_nat k) (tot_nodes s)) as [_|C]; [|lia].
    pose proof (@load_nodes_step k s base I Hb) as St. cbv zeta in St.
    change (alloc_node (Z.of_nat k) s)
      with (brk s, snd (alloc_node (Z.of_nat k) s)).
    cbv iota beta.
    set (s1 := insert_node (brk s) (snd (alloc_node (Z.of_nat k) s))) in *.
    destruct St as (I1 & B1 & T1 & _); [lia|]. clearbody s1.
    rewrite to_int_small by (unfold INT_MAX in *; lia).
    replace (Z.of_nat k + 1)%Z with (Z.of_nat (S k)) by lia.
    apply (IH extra (S k) s1 base); auto; lia.
Qed.

Lemma load_nodes_header_indexed : forall header s,
  (fst header <= INT_MAX)%Z ->
  let s1 := load_header header s in
  let s2 := load_nodes (Z.to_nat (tot_nodes s1)) 0%Z s1 in
  indexed (brk s) (Z.to_nat (fst header)) s2 /\ edges s2 = [] /\
  tot_edges s2 = snd header /\ tot_nodes s2 = fst header.
Proof.
  intros [n m] s Hmax; simpl in *.
  destruct (Z.le_gt_cases 0 n) as [Hn|Hn].
  - assert (indexed (brk s) 0 (load_header (n, m) s)) as I0
      by (split; [reflexivity | intros; lia]).
    destruct (@load_nodes_indexed (Z.to_nat n) 0 (load_header (n, m) s) (brk s) I0)
      as (A & B & C & D & _); simpl; try lia.
    simpl in *. repeat split; auto; apply A.
  - replace (Z.to_nat n) with 0 by lia. simpl.
    repeat split. intros; lia.
Qed.

Lemma get_node_scan_indexed : forall s base m j d,
  (forall k, k < j + m -> get_data s (base + k) = Z.of_nat k) ->
  get_node_scan s (seq (base + j) m) d =
  if ((Z.of_nat j <=? d) && (d <? Z.of_nat (j + m)))%Z
  then Some (base + Z.to_nat d) else None.
Proof.
  intros s base; induction m as [|m IH]; intros j d H; simpl.
  - rewrite Nat.add_0_r.
    destruct (Z.leb_spec (Z.of_nat j) d), (Z.ltb_spec d (Z.of_nat j));
      simpl; auto; lia.
  - rewrite H by lia.
    destruct (Z.eqb_spec (Z.of_nat j) d) as [E|E].
    + subst d. rewrite Nat2Z.id.
      destruct (Z.leb_spec (Z.of_nat j) (Z.of_nat j)),
               (Z.ltb_spec (Z.of_nat j) (Z.of_nat (j + S m)));
        simpl; auto; lia.
    + replace (S (base + j)) with (base + S j) by lia.
      rewrite IH by (intros; apply H; lia).
      replace (S j + m) with (j + S m) by lia.
      destruct (Z.leb_spec (Z.of_nat (S j)) d), (Z.leb_spec (Z.of_nat j) d);
        simpl; auto; lia.
Qed.

Lemma get_node_indexed : forall base n s d,
  indexed base n s ->
  get_node d s =
  if ((0 <=? d) && (d <? Z.of_nat n))%Z
  then (Some (base + Z.to_nat d), s)
  else (None, write_cerr (get_node_error d) s).
Proof.
  intros base n s d [Hn Hd]; unfold get_node. rewrite Hn.
  replace base with (base + 0) at 1 by lia.
  rewrite get_node_scan_indexed by (intros; apply Hd; lia).
  simpl. destruct (_ && _); reflexivity.
Qed.

Lemma indexed_same_store : forall base n s s',
  same_store s s' -> indexed base n s -> indexed base n s'.
Proof.
  intros base n s s' (A & _ & C & _) [Hn Hd]; split; [congruence|].
  intros k Hk; unfold get_data; rewrite A; now apply Hd.
Qed.

Lemma get_data_modify : forall p f s q,
  (forall n, data (f n) = data n) ->
  get_data (modify p f s) q = get_data s q.
Proof.
  intros p f s q Hf; unfold get_data; rewrite cells_modify.
  destruct (Nat.eqb_spec q p); subst; auto.
Qed.

Lemma get_data_insert_edge : forall e s q,
  get_data (insert_edge e s) q = get_data s q.
Proof.
  intros e s q. unfold insert_edge, add_adjacent.
  change (get_data (mkState ?c _ _ _ _ _ _) q) with (data (c q)).
  fold (get_data (modify (destination e) (node_add_adjacent (source e))
                   (modify (source e) (node_add_adjacent (destination e)) s)) q).
  rewrite !get_data_modify; auto.
Qed.

Lemma indexed_insert_edge : forall base n e s,
  indexed base n s -> indexed base n (insert_edge e s).
Proof.
  intros base n e s [Hn Hd]; split; [exact Hn|].
  intros k Hk. rewrite get_data_insert_edge; auto.
Qed.

Lemma get_node_indexed_cases : forall base n s d,
  indexed base n s ->
  ((0 <= d < Z.of_nat n)%Z /\ get_node d s = (Some (base + Z.to_nat d), s)) \/
  (~ (0 <= d < Z.of_nat n)%Z /\
   get_node d s = (None, write_cerr (get_node_error d) s)).
Proof.
  intros base n s d H. rewrite (get_node_indexed d H).
  destruct (Z.leb_spec 0 d), (Z.ltb_spec d (Z.of_nat n)); simpl;
    [left | right | right | right]; split; auto; lia.
Qed.

Lemma line_known_true : forall hdr a b w,
  line_known hdr (a, b, w) = true <-> (0 <= a < hdr /\ 0 <= b < hdr)%Z.
Proof.
  intros; unfold line_known.
  rewrite !andb_true_iff, !Z.leb_le, !Z.ltb_lt. lia.
Qed.

Lemma load_line_indexed : forall base n hdr line s,
  indexed base n s -> n = Z.to_nat hdr ->
  indexed base n (load_line line s) /\
  edges (load_line line s) =
    edges s ++ (if line_known hdr line then [line_edge base line] else []).
Proof.
  intros base n hdr [[a b] w] s H ->; unfold load_line.
  pose proof (line_known_true hdr a b w) as K.
  destruct (get_node_indexed_cases a H) as [[Ra ->]|[Ra ->]].
  - destruct (get_node_indexed_cases b H) as [[Rb ->]|[Rb ->]].
    + destruct (line_known hdr (a, b, w)).
      * split; [now apply indexed_insert_edge | reflexivity].
      * assert (false = true) by (apply K; lia). discriminate.
    + destruct (line_known hdr (a, b, w)).
      * exfalso; apply Rb. destruct K as [K _]. specialize (K eq_refl). lia.
      * rewrite app_nil_r. split; [|reflexivity].
        eapply indexed_same_store; [apply same_store_write_cerr | exact H].
  - assert (indexed base (Z.to_nat hdr) (write_cerr (get_node_error a) s)) as H'
      by (eapply indexed_same_store; [apply same_store_write_cerr | exact H]).
    assert (line_known hdr (a, b, w) = false) as ->.
    { destruct (line_known hdr (a, b, w)); auto.
      exfalso; apply Ra. destruct K as [K _]. specialize (K eq_refl). lia. }
    rewrite app_nil_r.
    destruct (get_node_indexed_cases b H') as [[Rb ->]|[Rb ->]].
    + split; [exact H' | reflexivity].
    + split; [|reflexivity].
      eapply indexed_same_store; [apply same_store_write_cerr | exact H'].
Qed.

Lemma load_lines_indexed : forall base n hdr lines s,
  indexed base n s -> n = Z.to_nat hdr ->
  indexed base n (load_lines lines s) /\
  edges (load_lines lines s) =
    edges s ++ map (line_edge base) (filter (line_known hdr) lines).
Proof.
  intros base n hdr; induction lines as [|l lines IH]; intros s H E; simpl.
  - rewrite app_nil_r; auto.
  - destruct (@load_line_indexed base n hdr l s H E) as [H1 E1].
    destruct (IH _ H1 E) as [H2 E2]. split; [exact H2|].
    rewrite E2, E1, <- app_assoc. f_equal.
    destruct (line_known hdr l); reflexivity.
Qed.


Lemma load_edges : forall header lines s,
  (fst header <= INT_MAX)%Z ->
  edges (load header lines s) =
  map (line_edge (brk s)) (filter (line_known (fst header)) lines).
Proof.
  intros header lines s Hmax; unfold load.
  destruct (load_nodes_header_indexed header s Hmax) as (I & E & _).
  destruct (@load_lines_indexed (brk s) _ (fst header) lines _ I eq_refl)
    as [_ ->].
  now rewrite E.
Qed.


(** The comparison [size() > tot] is made in [size_t], so a negative count
    is never raised. *)
Lemma raise_count : forall tot size,
  (- 2147483648 <= tot <= INT_MAX)%Z -> (0 <= size <= INT_MAX)%Z ->
  (if (to_size_t tot <? size)%Z then to_int size else tot) =
  (if (tot <? 0)%Z then tot else Z.max tot size).
Proof.
  unfold INT_MAX, to_size_t. intros tot size Ht Hs.
  destruct (Z.ltb_spec tot 0) as [N|N].
  - replace (tot mod 18446744073709551616)%Z
      with (tot + 18446744073709551616)%Z.
    + destruct (Z.ltb_spec (tot + 18446744073709551616) size); [lia | reflexivity].
    + apply Z.mod_unique with (q := (-1)%Z); lia.
  - rewrite Z.mod_small by lia.
    destruct (Z.ltb_spec tot size).
    + rewrite to_int_small by lia. lia.
    + lia.
Qed.






(* ================================================================== *)
(** * What the searches leave unchanged *)
(* ================================================================== *)

Lemma same_graph_bfs_reset : forall ns s, same_graph s (bfs_reset ns s).
Proof.
  induction ns as [|n ns IH]; intros s; simpl; auto with graph.
  eapply same_graph_trans; [|apply IH].
  eapply same_graph_trans; [|apply same_graph_set_distance].
  eapply same_graph_trans; [|apply same_graph_set_predecessor].
  apply same_graph_set_color.
Qed.

Lemma same_graph_bfs_start : forall src s, same_graph s (bfs_start src s).
Proof.
  intros; unfold bfs_start.
  eapply same_graph_trans; [|apply same_graph_set_predecessor].
  eapply same_graph_trans; [|apply same_graph_set_color].
  eapply same_graph_trans; [|apply same_graph_set_distance].
  apply same_graph_bfs_reset.
Qed.

Lemma same_graph_bfs_visit : forall node adjs s q,
  same_graph s (fst (bfs_visit node adjs s q)).
Proof.
  induction adjs as [|adj adjs IH]; intros s q; simpl; auto with graph.
  destruct (color_eqb _ _); [|apply IH].
  eapply same_graph_trans; [|apply IH].
  eapply same_graph_trans; [|apply same_graph_set_distance].
  eapply same_graph_trans; [|apply same_graph_set_predecessor].
  apply same_graph_set_color.
Qed.

Lemma same_graph_bfs_loop : forall fuel s q s',
  bfs_loop fuel s q = Some s' -> same_graph s s'.
Proof.
  induction fuel as [|fuel IH]; intros s q s' H; destruct q as [|node q];
    simpl in H; try discriminate; try (injection H as <-; auto with graph).
  pose proof (same_graph_bfs_visit node (get_adj_list s node) s q) as V.
  destruct (bfs_visit node (get_adj_list s node) s q) as [s1 q1]; simpl in V.
  apply IH in H.
  eapply same_graph_trans; [exact V|].
  eapply same_graph_trans; [apply same_graph_set_color | exact H].
Qed.

Lemma same_graph_bfs : forall src s s', bfs src s = Some s' -> same_graph s s'.
Proof.
  intros src s s' H; unfold bfs in H. apply same_graph_bfs_loop in H.
  eapply same_graph_trans; [apply same_graph_bfs_start | exact H].
Qed.

Lemma same_colors_refl : forall s, same_colors s s.
Proof. intros s p; reflexivity. Qed.

Lemma same_colors_trans : forall s1 s2 s3,
  same_colors s1 s2 -> same_colors s2 s3 -> same_colors s1 s3.
Proof. intros s1 s2 s3 A B p; rewrite B; apply A. Qed.

Lemma same_colors_modify : forall p f s,
  (forall n, color (f n) = color n) -> same_colors s (modify p f s).
Proof.
  intros p f s Hf q; unfold get_color; rewrite cells_modify.
  destruct (Nat.eqb_spec q p); subst; auto.
Qed.

Lemma same_colors_set_distance : forall p d s, same_colors s (set_distance p d s).
Proof. intros; apply same_colors_modify; intros []; auto. Qed.

Lemma same_colors_set_predecessor : forall p q s,
  same_colors s (set_predecessor p q s).
Proof. intros; apply same_colors_modify; intros []; auto. Qed.

Lemma prim_reset_frame : forall ns s,
  same_graph s (prim_reset ns s) /\ same_colors s (prim_reset ns s).
Proof.
  induction ns as [|n ns IH]; intros s; simpl.
  - split; [apply same_graph_refl | apply same_colors_refl].
  - destruct (IH (set_predecessor n None (set_distance n INT_MAX s))) as [G C].
    split.
    + eapply same_graph_trans; [|exact G].
      eapply same_graph_trans; [apply same_graph_set_distance|].
      apply same_graph_set_predecessor.
    + eapply same_colors_trans; [|exact C].
      eapply same_colors_trans; [apply same_colors_set_distance|].
      apply same_colors_set_predecessor.
Qed.

Lemma prim_start_frame : forall src s,
  same_graph s (st (prim_start src s)) /\ same_colors s (st (prim_start src s)).
Proof.
  intros src s; unfold prim_start; simpl.
  destruct (prim_reset_frame (nodes s) s) as [G C]. split.
  - eapply same_graph_trans; [exact G|].
    eapply same_graph_trans; [apply same_graph_set_distance|].
    apply same_graph_set_predecessor.
  - eapply same_colors_trans; [exact C|].
    eapply same_colors_trans; [apply same_colors_set_distance|].
    apply same_colors_set_predecessor.
Qed.

Lemma prim_relax_frame : forall node adjs p p',
  prim_relax node adjs p = Some p' ->
  same_graph (st p) (st p') /\ same_colors (st p) (st p') /\
  in_mst p' = in_mst p.
Proof.
  induction adjs as [|adj adjs IH]; intros p p' H; simpl in H.
  - injection H as <-. repeat split.
  - destruct (negb (set_find adj (in_mst p))).
    + destruct (get_edge (st p) node adj) as [e|]; [|discriminate].
      destruct (_ >? _)%Z; apply IH in H; simpl in H; auto.
      destruct H as (G & C & M). split; [|split]; auto.
      * eapply same_graph_trans; [|exact G].
        eapply same_graph_trans; [apply same_graph_set_predecessor|].
        apply same_graph_set_distance.
      * eapply same_colors_trans; [|exact C].
        eapply same_colors_trans; [apply same_colors_set_predecessor|].
        apply same_colors_set_distance.
    + apply IH in H; simpl in H; auto.
Qed.

Lemma prim_iter_frame : forall p p',
  prim_iter p = Some p' ->
  same_graph (st p) (st p') /\ same_colors (st p) (st p').
Proof.
  intros p p' H; unfold prim_iter in H. destruct (pq p) as [|node rest].
  - injection H as <-. split; [apply same_graph_refl | apply same_colors_refl].
  - apply prim_relax_frame in H; simpl in H. tauto.
Qed.

Lemma prim_loop_frame : forall fuel p s',
  prim_loop fuel p = Finished s' ->
  same_graph (st p) s' /\ same_colors (st p) s'.
Proof.
  induction fuel as [|fuel IH]; intros p s' H; simpl in H;
    destruct (pq p) as [|node rest] eqn:Q; try discriminate;
    try (injection H as <-; split;
         [apply same_graph_refl | apply same_colors_refl]).
  destruct (prim_iter p) as [p1|] eqn:I; [|discriminate].
  apply prim_iter_frame in I. apply IH in H.
  destruct I as [G1 C1], H as [G2 C2]. split.
  - eapply same_graph_trans; eauto.
  - eapply same_colors_trans; eauto.
Qed.

Lemma prim_frame : forall src s s',
  prim src s = Finished s' -> same_graph s s' /\ same_colors s s'.
Proof.
  intros src s s' H; unfold prim in H. apply prim_loop_frame in H.
  destruct (prim_start_frame src s) as [G C], H as [G' C']. split.
  - eapply same_graph_trans; eauto.
  - eapply same_colors_trans; eauto.
Qed.

(** C10. [bfs] and [prim] leave the stored nodes, the stored edges, the two
    counts and every adjacency list (and node identity) as they were;
    [prim] moreover leaves every colour as it was; [is_binary] and
    [is_complete_binary] return the state they were given. *)
Theorem searches_frame :
  (forall src s s', bfs src s = Some s' -> same_graph s s') /\
  (forall src s s', prim src s = Finished s' ->
     same_graph s s' /\ forall p, get_color s' p = get_color s p) /\
  (forall s, snd (is_binary s) = s) /\
  (forall s, snd (is_complete_binary s) = s).
Proof.
  split; [exact same_graph_bfs|]. split; [exact prim_frame|].
  split; intros s; [apply is_binary_scan_state | apply is_complete_binary_scan_state].
Qed.

Lemma searches_frame_witness :
  same_graph star3 star3_searched /\
  (exists s', prim 0 star3 = Finished s' /\ same_graph star3 s' /\
              forall p, get_color s' p = get_color star3 p).
Proof.
  destruct searches_frame as (B & P & _). split.
  - apply (B 0). unfold star3_searched.
    destruct (bfs 0 star3) as [s'|] eqn:E; [reflexivity|].
    vm_compute in E; discriminate.
  - destruct (prim 0 star3) as [s'| |] eqn:E.
    + exists s'; split; [reflexivity | now apply (P 0)].
    + vm_compute in E; discriminate.
    + vm_compute in E; discriminate.
Defined.

(* ================================================================== *)
(** * The priority queue: size and contents *)
(* ================================================================== *)

Section HeapContents.
Variable P : ptr -> Prop.
Variable comp : ptr -> ptr -> bool.

Lemma length_assign : forall c i x, length (assign c i x) = length c.
Proof.
  induction c as [|h t IH]; intros [|i] x; simpl; auto.
Qed.

Lemma Forall_assign : forall c i x,
  Forall P c -> P x -> Forall P (assign c i x).
Proof.
  induction c as [|h t IH]; intros [|i] x Hc Hx; simpl; auto;
    inversion Hc; subst; constructor; auto.
Qed.

Lemma Forall_nth_in_range : forall (c : list ptr) i,
  Forall P c -> i < length c -> P (nth i c 0).
Proof.
  intros c i Hc Hi. rewrite Forall_forall in Hc. apply Hc, nth_In, Hi.
Qed.

Lemma half_le : forall n, n / 2 <= n.
Proof.
  intros n. pose proof (Nat.Div0.mul_div_le n 2). lia.
Qed.

Lemma length_push_heap_aux : forall fuel c hole top value,
  length (push_heap_aux fuel comp c hole top value) = length c.
Proof.
  induction fuel as [|fuel IH]; intros; cbn [push_heap_aux].
  - apply length_assign.
  - destruct (_ && _); [rewrite IH|]; apply length_assign.
Qed.

Lemma Forall_push_heap_aux : forall fuel c hole top value,
  Forall P c -> P value -> hole < length c ->
  Forall P (push_heap_aux fuel comp c hole top value).
Proof.
  induction fuel as [|fuel IH]; intros c hole top value Hc Hv Hh;
    cbn [push_heap_aux].
  - now apply Forall_assign.
  - pose proof (half_le (hole - 1)) as Hp.
    destruct (_ && _); [|now apply Forall_assign].
    apply IH; auto.
    + apply Forall_assign; auto. apply Forall_nth_in_range; auto; lia.
    + rewrite length_assign; lia.
Qed.

Lemma length_push_heap : forall c, length (push_heap comp c) = length c.
Proof.
  intros c; unfold push_heap. destruct (length c) eqn:E; auto.
  now rewrite length_push_heap_aux.
Qed.

Lemma Forall_push_heap : forall c, Forall P c -> Forall P (push_heap comp c).
Proof.
  intros c Hc; unfold push_heap. destruct (length c) eqn:E; auto.
  apply Forall_push_heap_aux; auto; try lia.
  apply Forall_nth_in_range; auto; lia.
Qed.

Lemma length_pq_push : forall x c, length (pq_push comp x c) = S (length c).
Proof.
  intros; unfold pq_push. rewrite length_push_heap, length_app; simpl; lia.
Qed.

Lemma Forall_pq_push : forall x c,
  Forall P c -> P x -> Forall P (pq_push comp x c).
Proof.
  intros; unfold pq_push. apply Forall_push_heap, Forall_app; auto.
Qed.

Lemma adjust_heap_down_spec : forall fuel c hole child len,
  Forall P c -> hole < len -> len <= length c ->
  let '(c1, hole1, child1) := adjust_heap_down fuel comp c hole child len in
  length c1 = length c /\ Forall P c1 /\ hole1 < len.
Proof.
  induction fuel as [|fuel IH]; intros c hole child len Hc Hh Hl;
    cbn [adjust_heap_down]; auto.
  destruct (Nat.ltb_spec child ((len - 1) / 2)) as [L|L]; auto.
  pose proof (Nat.Div0.mul_div_le (len - 1) 2) as D.
  set (k := if comp (nth (2 * (child + 1)) c 0) (nth (2 * (child + 1) - 1) c 0)
            then 2 * (child + 1) - 1 else 2 * (child + 1)).
  assert (k < len) as Hk by (unfold k; destruct (comp _ _); lia).
  specialize (IH (assign c hole (nth k c 0)) k k len).
  destruct (adjust_heap_down fuel comp (assign c hole (nth k c 0)) k k len)
    as [[c1 hole1] child1].
  rewrite length_assign in IH. apply IH; auto.
  apply Forall_assign; auto. apply Forall_nth_in_range; auto; lia.
Qed.

Lemma adjust_heap_spec : forall c len value,
  Forall P c -> P value -> 0 < len <= length c ->
  length (adjust_heap comp c 0 len value) = length c /\
  Forall P (adjust_heap comp c 0 len value).
Proof.
  intros c len value Hc Hv Hl; unfold adjust_heap.
  pose proof (@adjust_heap_down_spec len c 0 0 len Hc) as D.
  destruct (adjust_heap_down len comp c 0 0 len) as [[c1 hole1] child1].
  destruct D as (L1 & F1 & H1); try lia.
  destruct (Nat.even len && Nat.eqb child1 ((len - 2) / 2)) eqn:E.
  - apply andb_true_iff in E as [Ev E]. apply Nat.eqb_eq in E.
    assert (2 <= len) as L2
      by (destruct len as [|[|len']]; [lia | discriminate | lia]).
    pose proof (Nat.Div0.mul_div_le (len - 2) 2) as D.
    rewrite length_push_heap_aux, length_assign. split; auto.
    apply Forall_push_heap_aux; auto.
    + apply Forall_assign; auto. apply Forall_nth_in_range; auto; lia.
    + rewrite length_assign; lia.
  - rewrite length_push_heap_aux. split; auto.
    apply Forall_push_heap_aux; auto; lia.
Qed.

Lemma pop_heap_spec : forall c,
  Forall P c -> length (pop_heap comp c) = length c /\ Forall P (pop_heap comp c).
Proof.
  intros c Hc; unfold pop_heap.
  destruct (Nat.ltb_spec 1 (length c)) as [L|L]; auto.
  destruct (@adjust_heap_spec (assign c (length c - 1) (nth 0 c 0))
              (length c - 1) (nth (length c - 1) c 0)) as [A B].
  - apply Forall_assign; auto. apply Forall_nth_in_range; auto; lia.
  - apply Forall_nth_in_range; auto; lia.
  - rewrite length_assign; lia.
  - rewrite length_assign in A. auto.
Qed.

Lemma Forall_removelast : forall (l : list ptr),
  Forall P l -> Forall P (removelast l).
Proof.
  induction l as [|a [|b l] IH]; intros H; simpl; auto.
  inversion H; subst. constructor; auto.
Qed.

Lemma length_removelast : forall (l : list ptr),
  length (removelast l) = length l - 1.
Proof.
  induction l as [|a [|b l] IH]; simpl; auto.
  simpl in IH. rewrite IH. lia.
Qed.

Lemma Forall_pq_pop : forall c, Forall P c -> Forall P (pq_pop comp c).
Proof.
  intros c Hc; unfold pq_pop. apply Forall_removelast, pop_heap_spec, Hc.
Qed.
End HeapContents.

Lemma length_pq_pop : forall comp c, length (pq_pop comp c) = length c - 1.
Proof.
  intros comp c; unfold pq_pop. rewrite length_removelast.
  destruct (@pop_heap_spec (fun _ => True) comp c) as [-> _]; auto.
  apply Forall_forall; auto.
Qed.

(** The fuel handed to the two heap loops is never exhausted: more fuel
    gives the same result. *)
Lemma push_heap_aux_fuel : forall comp fuel extra c hole top value,
  hole <= fuel ->
  push_heap_aux (fuel + extra) comp c hole top value =
  push_heap_aux fuel comp c hole top value.
Proof.
  intros comp; induction fuel as [|fuel IH]; intros extra c hole top value H.
  - assert (hole = 0) as -> by lia.
    destruct extra; cbn [push_heap_aux Nat.add]; auto.
  - cbn [push_heap_aux Nat.add].
    destruct (_ && _); auto. apply IH.
    pose proof (half_le (hole - 1)). lia.
Qed.

Lemma adjust_heap_down_fuel : forall comp fuel extra c hole child len,
  len <= child + fuel ->
  adjust_heap_down (fuel + extra) comp c hole child len =
  adjust_heap_down fuel comp c hole child len.
Proof.
  intros comp; induction fuel as [|fuel IH]; intros extra c hole child len H.
  - destruct extra; cbn [adjust_heap_down Nat.add]; auto.
    pose proof (half_le (len - 1)).
    replace (child <? (len - 1) / 2) with false
      by (symmetry; apply Nat.ltb_ge; lia).
    reflexivity.
  - cbn [adjust_heap_down Nat.add].
    destruct (child <? (len - 1) / 2); auto.
    destruct (comp _ _); apply IH; lia.
Qed.

(* ================================================================== *)
(** * Prim: the loop, step by step *)
(* ================================================================== *)

Lemma prim_steps_add : forall j k p,
  prim_steps (j + k) p =
  match prim_steps j p with Some p' => prim_steps k p' | None => None end.
Proof.
  induction j as [|j IH]; intros k p; simpl; auto.
  destruct (prim_iter p); auto.
Qed.

Lemma prim_steps_invariant : forall (I : PrimState -> Prop),
  (forall p p', I p -> prim_iter p = Some p' -> I p') ->
  forall k p p', I p -> prim_steps k p = Some p' -> I p'.
Proof.
  intros I Step; induction k as [|k IH]; intros p p' Hp H; simpl in H.
  - now injection H as <-.
  - destruct (prim_iter p) as [p1|] eqn:E; [|discriminate].
    eapply IH; [|exact H]. eapply Step; eauto.
Qed.

Lemma prim_loop_steps : forall fuel p s',
  prim_loop fuel p = Finished s' ->
  exists k p', prim_steps k p = Some p' /\ pq p' = [] /\ st p' = s'.
Proof.
  induction fuel as [|fuel IH]; intros p s' H; simpl in H;
    destruct (pq p) as [|node rest] eqn:Q; try discriminate;
    try (injection H as <-; exists 0, p; auto).
  destruct (prim_iter p) as [p1|] eqn:E; [|discriminate].
  destruct (IH _ _ H) as (k & p' & Hk & Hq & Hs).
  exists (S k), p'; simpl; rewrite E; auto.
Qed.

Lemma prim_loop_null : forall fuel p,
  prim_loop fuel p = NullEdge -> exists k, prim_steps k p = None.
Proof.
  induction fuel as [|fuel IH]; intros p H; simpl in H;
    destruct (pq p) as [|node rest] eqn:Q; try discriminate.
  destruct (prim_iter p) as [p1|] eqn:E.
  - destruct (IH _ H) as [k Hk]. exists (S k); simpl; now rewrite E.
  - exists 1; simpl; now rewrite E.
Qed.

Lemma get_edge_scan_In : forall es a b e,
  get_edge_scan es a b = Some e -> In e es /\ connects e a b.
Proof.
  intros es a b e H. apply get_edge_scan_some in H as (l1 & l2 & -> & C & _).
  split; auto. apply in_or_app; right; now left.
Qed.

Lemma same_graph_get_edge : forall s s' a b,
  same_graph s s' -> get_edge s' a b = get_edge s a b.
Proof. intros s s' a b (_ & E & _); unfold get_edge; now rewrite E. Qed.

Lemma same_graph_adj : forall s s' p,
  same_graph s s' -> get_adj_list s' p = get_adj_list s p.
Proof. intros s s' p (_ & _ & _ & _ & _ & _ & A); apply A. Qed.

Lemma same_graph_nodes : forall s s', same_graph s s' -> nodes s' = nodes s.
Proof. intros s s' (N & _); exact N. Qed.

Lemma same_graph_edges : forall s s', same_graph s s' -> edges s' = edges s.
Proof. intros s s' (_ & E & _); exact E. Qed.

Lemma same_graph_backed : forall s s', same_graph s s' -> backed s -> backed s'.
Proof.
  intros s s' G B u v Hin.
  rewrite (same_graph_get_edge _ _ G). apply B.
  now rewrite <- (same_graph_adj _ G).
Qed.

Lemma same_graph_closed : forall s s', same_graph s s' -> closed s -> closed s'.
Proof.
  intros s s' G C u v Hu Hv.
  rewrite (same_graph_nodes G) in *. rewrite (same_graph_adj _ G) in Hv. eauto.
Qed.

(* ================================================================== *)
(** * Adjacency lists and edges after [insert_edge] *)
(* ================================================================== *)

Lemma get_edge_scan_app_some : forall es es' a b,
  get_edge_scan es a b <> None -> get_edge_scan (es ++ es') a b <> None.
Proof.
  induction es as [|e es IH]; intros es' a b H; simpl in *; [congruence|].
  destruct (edge_joins a b e); [discriminate | auto].
Qed.

Lemma get_edge_scan_app_last : forall es e a b,
  connects e a b -> get_edge_scan (es ++ [e]) a b <> None.
Proof.
  induction es as [|e0 es IH]; intros e a b C; simpl.
  - apply edge_joins_connects in C. rewrite C; discriminate.
  - destruct (edge_joins a b e0); [discriminate | auto].
Qed.

Lemma get_adj_list_modify : forall p f s q,
  get_adj_list (modify p f s) q =
  if Nat.eqb q p then adj_list (f (cells s p)) else get_adj_list s q.
Proof.
  intros; unfold get_adj_list; rewrite cells_modify.
  destruct (Nat.eqb q p); reflexivity.
Qed.

Lemma add_adjacent_adj : forall p a s u v,
  In v (get_adj_list (add_adjacent p a s) u) ->
  In v (get_adj_list s u) \/ (u = p /\ v = a).
Proof.
  intros p a s u v; unfold add_adjacent. rewrite get_adj_list_modify.
  destruct (Nat.eqb_spec u p) as [->|N]; auto.
  cbn [adj_list node_add_adjacent]. intros H.
  apply in_app_or in H as [H|[<-|[]]]; auto.
Qed.

Lemma insert_edge_adj : forall e s u v,
  In v (get_adj_list (insert_edge e s) u) ->
  In v (get_adj_list s u) \/ connects e u v.
Proof.
  intros e s u v H.
  change (In v (get_adj_list
                  (add_adjacent (destination e) (source e)
                     (add_adjacent (source e) (destination e) s)) u)) in H.
  apply add_adjacent_adj in H as [H|[-> ->]].
  - apply add_adjacent_adj in H as [H|[-> ->]]; auto.
    right; left; auto.
  - right; right; auto.
Qed.

(* ================================================================== *)
(** * Loaded graphs satisfy the store invariant *)
(* ================================================================== *)

Lemma get_node_scan_In : forall s ns d p,
  get_node_scan s ns d = Some p -> In p ns.
Proof.
  intros s ns d p; induction ns as [|n ns IH]; simpl; [discriminate|].
  destruct (get_data s n =? d)%Z; [intros [= <-]; now left | auto].
Qed.

Lemma get_node_stored : forall d s p,
  fst (get_node d s) = Some p -> In p (nodes s).
Proof.
  intros d s p; unfold get_node.
  destruct (get_node_scan s (nodes s) d) eqn:E; simpl; [|discriminate].
  intros [= <-]. eapply get_node_scan_In; eauto.
Qed.

Lemma same_store_closed : forall s s', same_store s s' -> closed s -> closed s'.
Proof.
  intros s s' (A & _ & C & _) Hc u v Hu Hv.
  unfold get_adj_list in Hv. rewrite A in Hv. rewrite C in *. eauto.
Qed.

Lemma insert_edge_closed : forall e s,
  closed s -> In (source e) (nodes s) -> In (destination e) (nodes s) ->
  closed (insert_edge e s).
Proof.
  intros e s Hc Hs Hd u v Hu Hv.
  change (nodes (insert_edge e s)) with (nodes s) in *.
  apply insert_edge_adj in Hv as [Hv|[[<- <-]|[<- <-]]]; eauto.
Qed.

Lemma load_line_closed : forall line s, closed s -> closed (load_line line s).
Proof.
  intros [[a b] w] s Hc; unfold load_line.
  pose proof (get_node_same_store a s) as Sa.
  pose proof (@get_node_stored a s) as Pa.
  destruct (get_node a s) as [ra s1]; simpl in Sa, Pa.
  pose proof (get_node_same_store b s1) as Sb.
  pose proof (@get_node_stored b s1) as Pb.
  destruct (get_node b s1) as [rb s2]; simpl in Sb, Pb.
  assert (closed s2) as H2
    by (eapply same_store_closed; [exact Sb|];
        eapply same_store_closed; [exact Sa | exact Hc]).
  destruct ra as [pa|], rb as [pb|]; auto.
  apply insert_edge_closed; auto; simpl.
  - destruct Sb as (_ & _ & E & _), Sa as (_ & _ & E' & _).
    rewrite E, E'. now apply Pa.
  - destruct Sb as (_ & _ & E & _). rewrite E. now apply Pb.
Qed.

Lemma load_lines_closed : forall lines s,
  closed s -> closed (load_lines lines s).
Proof.
  induction lines as [|l lines IH]; intros s Hc; simpl; auto.
  apply IH, load_line_closed, Hc.
Qed.

Lemma load_nodes_no_adjacency : forall fuel i s,
  (forall u, In u (nodes s) -> get_adj_list s u = []) ->
  forall u, In u (nodes (load_nodes fuel i s)) ->
            get_adj_list (load_nodes fuel i s) u = [].
Proof.
  induction fuel as [|fuel IH]; intros i s H; simpl; auto.
  destruct (i <? tot_nodes s)%Z; auto.
  apply IH. intros u Hu. unfold insert_node, get_adj_list in *; simpl in *.
  unfold upd. destruct (Nat.eqb_spec u (brk s)); [reflexivity|].
  apply in_app_or in Hu as [Hu|[<-|[]]]; [auto | congruence].
Qed.

(** Whatever the header, the lines and the memory it starts from, [load]
    produces a store whose adjacency entries all refer to stored nodes. *)
Lemma load_closed : forall header lines s, closed (load header lines s).
Proof.
  intros header lines s; unfold load.
  apply load_lines_closed. intros u v Hu Hv.
  rewrite load_nodes_no_adjacency in Hv; [destruct Hv | | exact Hu].
  intros x [].
Qed.

(* ================================================================== *)
(** * Prim: every edge lookup succeeds *)
(* ================================================================== *)

Lemma blank_backed : forall s, blank s -> backed s.
Proof. intros s B u v H. rewrite B in H. destruct H. Qed.

Lemma built_backed : forall s, built s -> backed s.
Proof.
  induction 1 as [s B|i s _ IH|node s _ IH|e s _ IH|d s _ IH
                 |src s s' _ IH H|src s s' _ IH H].
  - now apply blank_backed.
  - intros u v Hin. unfold alloc_node, get_adj_list in Hin; simpl in Hin.
    unfold upd in Hin. destruct (Nat.eqb u (brk s)); [destruct Hin|].
    apply IH, Hin.
  - intros u v Hin. apply IH, Hin.
  - intros u v Hin. apply insert_edge_adj in Hin as [Hin|C].
    + apply IH in Hin. unfold get_edge in *.
      unfold insert_edge; simpl. now apply get_edge_scan_app_some.
    + unfold get_edge, insert_edge; simpl. now apply get_edge_scan_app_last.
  - intros u v Hin. unfold get_node in *.
    destruct (get_node_scan s (nodes s) d); apply IH, Hin.
  - eapply same_graph_backed; [apply (same_graph_bfs _ _ H) | exact IH].
  - eapply same_graph_backed; [apply (prim_frame _ _ H) | exact IH].
Qed.

Lemma same_graph_relax_write : forall adj node w s,
  same_graph s (set_distance adj w (set_predecessor adj node s)).
Proof.
  intros. eapply same_graph_trans;
    [apply same_graph_set_predecessor | apply same_graph_set_distance].
Qed.

Lemma prim_relax_safe : forall node adjs p,
  backed (st p) ->
  (forall v, In v adjs -> In v (get_adj_list (st p) node)) ->
  prim_relax node adjs p <> None.
Proof.
  induction adjs as [|adj adjs IH]; intros p B Hsub; simpl; [discriminate|].
  assert (get_edge (st p) node adj <> None) as E
    by (apply B, Hsub; now left).
  destruct (get_edge (st p) node adj) as [e|]; [|congruence].
  assert (forall v, In v adjs -> In v (get_adj_list (st p) node)) as Hsub'
    by (intros; apply Hsub; now right).
  destruct (negb (set_find adj (in_mst p))); [destruct (_ >? _)%Z|];
    apply IH; simpl; auto.
  - eapply same_graph_backed; [apply same_graph_relax_write | exact B].
  - intros v Hv. rewrite (same_graph_adj _ (same_graph_relax_write _ _ _ _)).
    auto.
Qed.

Lemma prim_iter_safe : forall p, backed (st p) -> prim_iter p <> None.
Proof.
  intros p B; unfold prim_iter. destruct (pq p); [discriminate|].
  apply prim_relax_safe; simpl; auto.
Qed.

Lemma prim_steps_safe : forall k p, backed (st p) -> prim_steps k p <> None.
Proof.
  induction k as [|k IH]; intros p B; simpl; [discriminate|].
  pose proof (prim_iter_safe p B) as S.
  destruct (prim_iter p) as [p1|] eqn:E; [|congruence].
  apply IH. eapply same_graph_backed; [|exact B].
  apply (prim_iter_frame _ E).
Qed.


Lemma prim_relax_lookups : forall node adjs p p',
  prim_relax node adjs p = Some p' ->
  lookups p' = lookups p ++ map (pair node) adjs.
Proof.
  induction adjs as [|adj adjs IH]; intros p p' H; simpl in H.
  - injection H as <-. now rewrite app_nil_r.
  - assert (forall q, prim_relax node adjs q = Some p' ->
              lookups q = lookups p ++ [(node, adj)] ->
              lookups p' = lookups p ++ map (pair node) (adj :: adjs)) as K.
    { intros q Hq Lq. rewrite (IH _ _ Hq), Lq, <- app_assoc. reflexivity. }
    destruct (negb (set_find adj (in_mst p))).
    + destruct (get_edge (st p) node adj) as [e|]; [|discriminate].
      destruct (_ >? _)%Z; eapply K; eauto.
    + eapply K; eauto.
Qed.

Lemma prim_iter_lookups_adjacent : forall p p',
  lookups_adjacent p -> prim_iter p = Some p' -> lookups_adjacent p'.
Proof.
  intros p p' L H u v Hin.
  destruct (prim_iter_frame _ H) as [G _].
  rewrite (same_graph_adj _ G).
  unfold prim_iter in H. destruct (pq p) as [|node rest].
  - injection H as <-. now apply L.
  - apply prim_relax_lookups in H. simpl in H. rewrite H in Hin.
    apply in_app_or in Hin as [Hin|Hin]; [now apply L|].
    apply in_map_iff in Hin as (x & [= <- <-] & Hx). exact Hx.
Qed.

(** C6. When every adjacency entry was created by [insert_edge], every call
    [get_edge(node, adj)] that [prim] makes returns a stored edge joining
    the two nodes: no turn of the loop dereferences a null edge, whatever
    the source node and however long the loop runs. *)
Theorem prim_edge_lookups_succeed : forall s src,
  built s ->
  (forall k, prim_steps k (prim_start src s) <> None) /\
  (forall k p u v,
     prim_steps k (prim_start src s) = Some p -> In (u, v) (lookups p) ->
     exists e, get_edge (st p) u v = Some e /\ In e (edges s) /\ connects e u v) /\
  prim src s <> NullEdge.
Proof.
  intros s src Hb. apply built_backed in Hb.
  destruct (prim_start_frame src s) as [G0 _].
  assert (backed (st (prim_start src s))) as B0
    by (eapply same_graph_backed; eauto).
  split; [|split].
  - intros k; now apply prim_steps_safe.
  - intros k p u v Hk Hin.
    assert (lookups_adjacent p /\ same_graph s (st p)) as [L G].
    { apply (@prim_steps_invariant
               (fun p => lookups_adjacent p /\ same_graph s (st p)))
        with (k := k) (p := prim_start src s); auto.
      - intros q q' [Lq Gq] Hq. split.
        + eapply prim_iter_lookups_adjacent; eauto.
        + eapply same_graph_trans; [exact Gq | apply (prim_iter_frame _ Hq)].
      - split; [intros ? ? []|exact G0]. }
    pose proof (same_graph_backed G Hb _ _ (L _ _ Hin)) as E.
    destruct (get_edge (st p) u v) as [e|] eqn:Ge; [|congruence].
    exists e. split; auto.
    unfold get_edge in Ge. apply get_edge_scan_In in Ge.
    now rewrite (same_graph_edges G) in Ge.
  - intros H. apply prim_loop_null in H as [k Hk].
    now apply prim_steps_safe in Hk.
Qed.

Lemma built_load_line : forall line s, built s -> built (load_line line s).
Proof.
  intros [[a b] w] s B; unfold load_line.
  pose proof (built_get_node a B) as B1.
  destruct (get_node a s) as [ra s1]; simpl in B1.
  pose proof (built_get_node b B1) as B2.
  destruct (get_node b s1) as [rb s2]; simpl in B2.
  destruct ra, rb; auto using built_insert_edge.
Qed.

Lemma built_load_lines : forall lines s, built s -> built (load_lines lines s).
Proof.
  induction lines as [|l lines IH]; intros s B; simpl; auto.
  apply IH, built_load_line, B.
Qed.

Lemma built_load_nodes : forall fuel i s, built s -> built (load_nodes fuel i s).
Proof.
  induction fuel as [|fuel IH]; intros i s B; simpl; auto.
  destruct (i <? tot_nodes s)%Z; auto.
  apply IH, built_insert_node. apply (built_alloc_node i B).
Qed.

(** Loading into a memory without adjacency entries yields a graph whose
    adjacency entries all come from [insert_edge]. *)
Lemma built_load : forall header lines s,
  blank s -> built (load header lines s).
Proof.
  intros header lines s B; unfold load.
  apply built_load_lines, built_load_nodes, built_blank.
  intros p; apply B.
Qed.

Lemma blank_boot : blank boot.
Proof. intros p; reflexivity. Qed.

Lemma prim_edge_lookups_succeed_witness :
  (forall k, prim_steps k (prim_start 0 triangle) <> None) /\
  prim 0 triangle <> NullEdge.
Proof.
  assert (built triangle) as B by (apply built_load, blank_boot).
  destruct (prim_edge_lookups_succeed 0 B) as (S & _ & N).
  split; assumption.
Defined.

(* ================================================================== *)
(** * Prim: dequeuing a node that is already committed *)
(* ================================================================== *)

Lemma set_find_true : forall x l, set_find x l = true <-> In x l.
Proof.
  intros x l; unfold set_find. rewrite existsb_exists. split.
  - intros (y & Hy & E). apply Nat.eqb_eq in E. now subst.
  - intros H. exists x. split; auto. apply Nat.eqb_refl.
Qed.

Lemma set_find_insert : forall u x l,
  set_find u (set_insert x l) = true <-> u = x \/ set_find u l = true.
Proof.
  intros u x l; unfold set_insert.
  destruct (set_find x l) eqn:F.
  - split; auto. intros [->|H]; auto.
  - rewrite !set_find_true. simpl. split; intros [H|H]; auto.
Qed.

Lemma set_insert_found : forall x l, set_find x l = true -> set_insert x l = l.
Proof. intros x l H; unfold set_insert; now rewrite H. Qed.

Lemma get_distance_relax_write : forall adj node w s v,
  get_distance (set_distance adj w (set_predecessor adj node s)) v =
  if Nat.eqb v adj then w else get_distance s v.
Proof.
  intros; unfold get_distance, set_distance, set_predecessor.
  rewrite !cells_modify. destruct (Nat.eqb v adj); reflexivity.
Qed.

Lemma prim_relax_distances : forall node adjs p p',
  prim_relax node adjs p = Some p' ->
  (forall v, (get_distance (st p') v <= get_distance (st p) v)%Z) /\
  (forall v, In v adjs ->
     set_find v (in_mst p) = true \/
     exists e, get_edge (st p) node v = Some e /\
               (get_distance (st p') v <= weight e)%Z).
Proof.
  induction adjs as [|adj adjs IH]; intros p p' H; simpl in H.
  - injection H as <-. split; [intros; lia | intros v []].
  - destruct (set_find adj (in_mst p)) eqn:F; simpl in H.
    + destruct (IH _ _ H) as [D R]; simpl in *. split; auto.
      intros v [<-|Hv]; auto.
    + destruct (get_edge (st p) node adj) as [e|] eqn:Ge; [|discriminate].
      destruct (Z.gtb_spec (get_distance (st p) adj) (weight e)) as [Gt|Le].
      * destruct (IH _ _ H) as [D R]; simpl in *.
        assert (forall v, (get_distance (st p') v <= get_distance (st p) v)%Z)
          as D'.
        { intros v. specialize (D v). rewrite get_distance_relax_write in D.
          destruct (Nat.eqb_spec v adj); subst; lia. }
        split; auto.
        intros v [<-|Hv].
        -- right. exists e. split; auto.
           specialize (D adj). rewrite get_distance_relax_write in D.
           now rewrite Nat.eqb_refl in D.
        -- destruct (R v Hv) as [?|(e' & Ee & De)]; eauto.
      * destruct (IH _ _ H) as [D R]; simpl in *. split; auto.
        intros v [<-|Hv]; auto.
        right. exists e. split; auto. specialize (D adj). lia.
Qed.

Lemma prim_iter_relaxed : forall p p',
  relaxed p -> prim_iter p = Some p' -> relaxed p'.
Proof.
  intros p p' R H.
  destruct (prim_iter_frame _ H) as [G _].
  unfold prim_iter in H. destruct (pq p) as [|node rest] eqn:Q.
  - now injection H as <-.
  - destruct (prim_relax_frame _ _ _ H) as (_ & _ & M).
    destruct (prim_relax_distances _ _ _ H) as [D A]. simpl in *.
    intros u v Hu Hv. rewrite M in *.
    rewrite (same_graph_adj _ G) in Hv.
    rewrite (same_graph_get_edge _ _ G).
    apply set_find_insert in Hu as [->|Hu].
    + destruct (A v Hv) as [?|?]; auto.
    + destruct (R u v Hu Hv) as [F|(e & Ee & De)].
      * left. apply set_find_insert; auto.
      * right. exists e. split; auto. specialize (D v). lia.
Qed.

Lemma prim_steps_relaxed : forall src s k p,
  prim_steps k (prim_start src s) = Some p -> relaxed p.
Proof.
  intros src s k p H.
  apply (@prim_steps_invariant relaxed prim_iter_relaxed k _ _) in H; auto.
  intros u v Hu. discriminate.
Qed.

Lemma prim_relax_nothing : forall node adjs p,
  (forall v, In v adjs ->
     set_find v (in_mst p) = true \/
     exists e, get_edge (st p) node v = Some e /\
               (get_distance (st p) v <= weight e)%Z) ->
  prim_relax node adjs p =
  Some (mkPrim (st p) (pq p) (in_mst p) (lookups p ++ map (pair node) adjs)).
Proof.
  induction adjs as [|adj adjs IH]; intros p H; simpl.
  - rewrite app_nil_r. now destruct p.
  - assert (prim_relax node adjs
              (mkPrim (st p) (pq p) (in_mst p) (lookups p ++ [(node, adj)])) =
            Some (mkPrim (st p) (pq p) (in_mst p)
                    (lookups p ++ (node, adj) :: map (pair node) adjs))) as K.
    { rewrite IH; simpl; [now rewrite <- app_assoc|].
      intros v Hv; apply H; now right. }
    destruct (H adj (or_introl eq_refl)) as [F|(e & Ee & De)].
    + rewrite F; simpl. exact K.
    + destruct (negb (set_find adj (in_mst p))); [|exact K].
      rewrite Ee. destruct (Z.gtb_spec (get_distance (st p) adj) (weight e));
        [lia | exact K].
Qed.

(** C4, as the code has it.  [prim] has no check on the node it dequeues.
    When a node that is already committed is dequeued again, its adjacency
    list is scanned once more, with one [get_edge] call for each entry; but
    the scan changes nothing: the memory (every distance and predecessor)
    and the committed set are as before, and the frontier has only lost the
    dequeued entry. *)
Theorem stale_dequeue_changes_nothing : forall s src k p node rest,
  prim_steps k (prim_start src s) = Some p ->
  pq p = node :: rest ->
  set_find node (in_mst p) = true ->
  prim_iter p =
  Some (mkPrim (st p) (pq_pop (Compare (st p)) (pq p)) (in_mst p)
               (lookups p ++ map (pair node) (get_adj_list (st p) node))).
Proof.
  intros s src k p node rest Hk Q F.
  apply prim_steps_relaxed in Hk.
  unfold prim_iter. rewrite Q.
  rewrite prim_relax_nothing; simpl.
  - now rewrite (set_insert_found _ _ F).
  - rewrite (set_insert_found _ _ F). intros v Hv. now apply Hk.
Qed.

Lemma triangle_stale_reached :
  prim_steps 3 (prim_start 0 triangle) = Some triangle_stale.
Proof.
  unfold triangle_stale.
  destruct (prim_steps 3 (prim_start 0 triangle)) eqn:E; [reflexivity|].
  vm_compute in E. discriminate.
Qed.

Lemma stale_dequeue_changes_nothing_witness :
  prim_iter triangle_stale =
  Some (mkPrim (st triangle_stale)
               (pq_pop (Compare (st triangle_stale)) (pq triangle_stale))
               (in_mst triangle_stale)
               (lookups triangle_stale ++
                map (pair 1) (get_adj_list (st triangle_stale) 1))).
Proof.
  apply (@stale_dequeue_changes_nothing triangle 0 3 triangle_stale 1 []).
  - exact triangle_stale_reached.
  - vm_compute. reflexivity.
  - vm_compute. reflexivity.
Defined.

(** C4, as stated, fails on the triangle: after three turns of [prim 0] the
    frontier holds a second entry of node 1, which is already committed;
    the next turn dequeues it and scans its adjacency list again, calling
    [get_edge] for both of its entries. *)
Lemma stale_dequeue_rescans_adjacency :
  prim_steps 3 (prim_start 0 triangle) = Some triangle_stale /\
  pq triangle_stale = [1] /\
  set_find 1 (in_mst triangle_stale) = true /\
  get_adj_list (st triangle_stale) 1 = [0; 2] /\
  exists p',
    prim_iter triangle_stale = Some p' /\
    lookups p' = lookups triangle_stale ++ [(1, 0); (1, 2)] /\
    ~ (lookups p' = lookups triangle_stale).
Proof.
  split; [exact triangle_stale_reached|].
  assert (pq triangle_stale = [1]) as Q by (vm_compute; reflexivity).
  assert (set_find 1 (in_mst triangle_stale) = true) as F
    by (vm_compute; reflexivity).
  assert (get_adj_list (st triangle_stale) 1 = [0; 2]) as A
    by (vm_compute; reflexivity).
  assert (relaxed triangle_stale) as R
    by (apply (prim_steps_relaxed _ _ _ triangle_stale_reached)).
  revert Q F A R. generalize triangle_stale. intros p Q F A R.
  repeat (split; [assumption|]).
  eexists. split.
  - unfold prim_iter. rewrite Q. rewrite prim_relax_nothing; [reflexivity|].
    simpl. rewrite (set_insert_found _ _ F). intros v Hv. now apply R.
  - simpl. rewrite A. split; [reflexivity|].
    intros E. apply (f_equal (@length _)) in E.
    rewrite length_app in E. simpl in E. lia.
Qed.

(* ================================================================== *)
(** * Prim: termination and footprint *)
(* ================================================================== *)

Lemma list_sum_le : forall (f g : ptr -> nat) ns,
  (forall v, g v <= f v) -> list_sum (map g ns) <= list_sum (map f ns).
Proof.
  intros f g ns H; induction ns as [|n ns IH]; simpl; auto.
  specialize (H n). lia.
Qed.

Lemma list_sum_lt : forall (f g : ptr -> nat) ns x,
  In x ns -> g x < f x -> (forall v, g v <= f v) ->
  list_sum (map g ns) < list_sum (map f ns).
Proof.
  intros f g ns x Hin Hx H; induction ns as [|n ns IH]; simpl; [destruct Hin|].
  destruct Hin as [->|Hin].
  - pose proof (list_sum_le f g ns H). lia.
  - specialize (IH Hin). specialize (H n). lia.
Qed.

Lemma list_sum_bound : forall (f : ptr -> nat) ns c,
  (forall v, f v <= c) -> list_sum (map f ns) <= length ns * c.
Proof.
  intros f ns c H; induction ns as [|n ns IH]; simpl; auto.
  specialize (H n). lia.
Qed.

Lemma rank_le_length : forall es d, rank es d <= length es.
Proof. intros; unfold rank; apply filter_length_le. Qed.

Lemma rank_mono : forall es d d', (d' <= d)%Z -> rank es d' <= rank es d.
Proof.
  intros es d d' H; unfold rank. induction es as [|e es IH]; simpl; auto.
  destruct (Z.ltb_spec (weight e) d'), (Z.ltb_spec (weight e) d);
    simpl; lia.
Qed.

Lemma rank_lt : forall es e d,
  In e es -> (weight e < d)%Z -> rank es (weight e) < rank es d.
Proof.
  intros es e d Hin Hlt; unfold rank.
  induction es as [|x es IH]; simpl; [destruct Hin|].
  assert (length (filter (fun e0 => (weight e0 <? weight e)%Z) es) <=
          length (filter (fun e0 => (weight e0 <? d)%Z) es)) as M
    by (apply (rank_mono es); lia).
  destruct Hin as [->|Hin].
  - rewrite Z.ltb_irrefl.
    destruct (Z.ltb_spec (weight e) d); simpl; lia.
  - specialize (IH Hin).
    destruct (Z.ltb_spec (weight x) (weight e)), (Z.ltb_spec (weight x) d);
      simpl; lia.
Qed.

Lemma potential_relax_write : forall adj node e s,
  In adj (nodes s) -> In e (edges s) ->
  (weight e < get_distance s adj)%Z ->
  potential (set_distance adj (weight e) (set_predecessor adj node s)) <
  potential s.
Proof.
  intros adj node e s Hn He Hlt. unfold potential.
  change (nodes (set_distance _ _ _)) with (nodes s).
  change (edges (set_distance _ _ _)) with (edges s).
  apply list_sum_lt with (x := adj); auto.
  - rewrite get_distance_relax_write, Nat.eqb_refl. now apply rank_lt.
  - intros v. rewrite get_distance_relax_write.
    destruct (Nat.eqb_spec v adj); subst; auto.
    apply rank_mono; lia.
Qed.

Lemma outside_untouched_relax_write : forall s0 adj node w s,
  In adj (nodes s0) -> outside_untouched s0 s ->
  outside_untouched s0 (set_distance adj w (set_predecessor adj node s)).
Proof.
  intros s0 adj node w s Hin O p Hp.
  unfold set_distance, set_predecessor. rewrite !cells_modify.
  destruct (Nat.eqb_spec p adj); [subst; contradiction | auto].
Qed.

Lemma prim_relax_inv : forall s0 m node adjs p p',
  prim_relax node adjs p = Some p' ->
  (forall v, In v adjs -> In v (nodes s0)) ->
  prim_inv s0 m p -> prim_inv s0 m p'.
Proof.
  intros s0 m node; induction adjs as [|adj adjs IH]; intros p p' H Hsub I;
    simpl in H.
  - now injection H as <-.
  - assert (forall v, In v adjs -> In v (nodes s0)) as Hsub'
      by (intros; apply Hsub; now right).
    assert (prim_inv s0 m
              (mkPrim (st p) (pq p) (in_mst p) (lookups p ++ [(node, adj)])))
      as Isame by (destruct I; constructor; auto).
    destruct (negb (set_find adj (in_mst p))); [|eapply IH; eauto].
    destruct (get_edge (st p) node adj) as [e|] eqn:Ge; [|discriminate].
    destruct (Z.gtb_spec (get_distance (st p) adj) (weight e)) as [Gt|Le];
      [|eapply IH; eauto].
    eapply IH; [exact H | exact Hsub' |].
    destruct I as [G C O F B].
    assert (In adj (nodes s0)) as Hadj by (apply Hsub; now left).
    constructor; simpl.
    + eapply same_graph_trans; [exact G | apply same_graph_relax_write].
    + eapply same_colors_trans; [exact C|].
      eapply same_colors_trans;
        [apply same_colors_set_predecessor | apply same_colors_set_distance].
    + now apply outside_untouched_relax_write.
    + apply Forall_pq_push; auto.
    + rewrite length_pq_push.
      assert (potential
                (set_distance adj (weight e)
                   (set_predecessor adj (Some node) (st p))) < potential (st p)).
      { apply potential_relax_write; try lia.
        - now rewrite (same_graph_nodes G).
        - unfold get_edge in Ge. now apply get_edge_scan_In in Ge. }
      lia.
Qed.

Lemma prim_iter_inv : forall s0 m p p',
  closed s0 -> prim_iter p = Some p' -> pq p <> [] ->
  prim_inv s0 m p -> prim_inv s0 (m - 1) p' /\ 0 < m.
Proof.
  intros s0 m p p' Hc H Q I. unfold prim_iter in H.
  destruct (pq p) as [|node rest] eqn:Eq; [congruence|].
  assert (In node (nodes s0)) as Hnode.
  { destruct I as [_ _ _ F _]. rewrite Eq in F. now inversion F. }
  assert (0 < m) as Hm by (destruct I as [_ _ _ _ B]; rewrite Eq in B; simpl in B; lia).
  split; auto.
  eapply prim_relax_inv; [exact H | |].
  - intros v Hv. destruct I as [G _ _ _ _].
    rewrite (same_graph_adj _ G) in Hv. eapply Hc; eauto.
  - destruct I as [G C O F B]. constructor; simpl; auto.
    + apply Forall_pq_pop. now rewrite Eq in F.
    + rewrite length_pq_pop. rewrite Eq in B. cbn [length] in *. lia.
Qed.

Lemma prim_loop_inv : forall s0, closed s0 ->
  forall fuel m p, prim_inv s0 m p -> m <= fuel ->
  prim_loop fuel p <> OutOfFuel /\
  forall s', prim_loop fuel p = Finished s' ->
    same_graph s0 s' /\ same_colors s0 s' /\ outside_untouched s0 s'.
Proof.
  intros s0 Hc; induction fuel as [|fuel IH]; intros m p I Hm; simpl.
  - destruct (pq p) eqn:Q.
    + split; [discriminate|]. intros s' [= <-]. destruct I; auto.
    + destruct I as [_ _ _ _ B]. rewrite Q in B. simpl in B. lia.
  - destruct (pq p) eqn:Q.
    + split; [discriminate|]. intros s' [= <-]. destruct I; auto.
    + destruct (prim_iter p) as [p1|] eqn:E.
      * destruct (@prim_iter_inv s0 m p p1 Hc E) as [I1 Hpos]; auto;
          [congruence|].
        apply (IH (m - 1)); auto. lia.
      * split; discriminate.
Qed.

Lemma prim_reset_cells : forall ns s p,
  cells (prim_reset ns s) p =
  if set_find p ns
  then mkNode (data (cells s p)) (color (cells s p)) INT_MAX None
              (adj_list (cells s p))
  else cells s p.
Proof.
  induction ns as [|n ns IH]; intros s p; simpl; auto.
  rewrite IH. unfold set_predecessor, set_distance. rewrite !cells_modify.
  rewrite (Nat.eqb_sym p n) at 1.
  destruct (Nat.eqb_spec n p) as [->|N]; simpl.
  - rewrite Nat.eqb_refl. destruct (set_find p ns); reflexivity.
  - destruct (Nat.eqb_spec p n); [congruence|]. reflexivity.
Qed.

Lemma prim_start_inv : forall src s,
  In src (nodes s) -> prim_inv s (prim_fuel s) (prim_start src s).
Proof.
  intros src s Hsrc.
  destruct (prim_start_frame src s) as [G C].
  constructor; auto.
  - intros p Hp. unfold prim_start; cbn [st].
    unfold set_predecessor, set_distance. rewrite !cells_modify.
    destruct (Nat.eqb_spec p src); [subst; contradiction|].
    rewrite prim_reset_cells.
    destruct (set_find p (nodes s)) eqn:F; auto.
    apply set_find_true in F. contradiction.
  - simpl. constructor; auto.
  - unfold prim_fuel, potential.
    rewrite (same_graph_nodes G), (same_graph_edges G).
    pose proof (@list_sum_bound
                  (fun v => rank (edges s) (get_distance (st (prim_start src s)) v))
                  (nodes s) (length (edges s))
                  (fun v => rank_le_length _ _)).
    simpl in *. lia.
Qed.

(** On a store closed under adjacency, [prim] from a stored node never runs
    out of fuel, and what it returns differs from the initial state only in
    the distance and predecessor of stored nodes. *)
Lemma prim_terminates : forall src s,
  closed s -> In src (nodes s) ->
  prim src s <> OutOfFuel /\
  forall s', prim src s = Finished s' ->
    same_graph s s' /\ same_colors s s' /\ outside_untouched s s'.
Proof.
  intros src s Hc Hsrc. unfold prim.
  apply (@prim_loop_inv s Hc (prim_fuel s) (prim_fuel s)); auto.
  now apply prim_start_inv.
Qed.

(* ================================================================== *)
(** * Running a search twice *)
(* ================================================================== *)

Lemma State_eq : forall a b,
  (forall p, cells a p = cells b p) -> brk a = brk b -> nodes a = nodes b ->
  edges a = edges b -> tot_nodes a = tot_nodes b -> tot_edges a = tot_edges b ->
  cerr a = cerr b -> a = b.
Proof.
  intros [ca ba na ea tna tea ra] [cb bb nb eb tnb teb rb]; simpl.
  intros Hc -> -> -> -> -> ->.
  assert (ca = cb) as -> by (apply functional_extensionality; exact Hc).
  reflexivity.
Qed.

Lemma same_graph_State_eq : forall s a b,
  same_graph s a -> same_graph s b ->
  (forall p, cells a p = cells b p) -> a = b.
Proof.
  intros s a b (A1 & A2 & A3 & A4 & A5 & A6 & _) (B1 & B2 & B3 & B4 & B5 & B6 & _) H.
  apply State_eq; congruence.
Qed.

Lemma same_graph_data : forall s s' p,
  same_graph s s' -> data (cells s' p) = data (cells s p).
Proof. intros s s' p (_ & _ & _ & _ & _ & _ & A); apply A. Qed.

Lemma same_graph_adj_list : forall s s' p,
  same_graph s s' -> adj_list (cells s' p) = adj_list (cells s p).
Proof. intros s s' p (_ & _ & _ & _ & _ & _ & A); apply A. Qed.

Lemma prim_start_again : forall src s s1,
  In src (nodes s) -> same_graph s s1 -> same_colors s s1 ->
  outside_untouched s s1 ->
  prim_start src s1 = prim_start src s.
Proof.
  intros src s s1 Hsrc G C O. unfold prim_start. f_equal.
  destruct (prim_start_frame src s) as [G0 _].
  destruct (prim_start_frame src s1) as [G1 _].
  apply (@same_graph_State_eq s).
  - eapply same_graph_trans; [exact G | exact G1].
  - exact G0.
  - intros p. unfold set_predecessor, set_distance.
    rewrite !cells_modify, !prim_reset_cells, (same_graph_nodes G).
    pose proof (same_graph_data p G) as D.
    pose proof (same_graph_adj_list p G) as A.
    pose proof (C p) as Cp. unfold get_color in Cp.
    pose proof (same_graph_data src G) as Ds.
    pose proof (same_graph_adj_list src G) as As.
    pose proof (C src) as Cs. unfold get_color in Cs.
    assert (set_find src (nodes s) = true) as Fs by (now apply set_find_true).
    rewrite Fs.
    destruct (Nat.eqb_spec p src) as [->|N].
    + unfold node_set_predecessor, node_set_distance; simpl.
      rewrite !Nat.eqb_refl; simpl. congruence.
    + destruct (set_find p (nodes s)) eqn:F.
      * congruence.
      * apply O. intros Hin. apply set_find_true in Hin. congruence.
Qed.

Lemma prim_twice : forall src s s1,
  closed s -> In src (nodes s) ->
  prim src s = Finished s1 -> prim src s1 = Finished s1.
Proof.
  intros src s s1 Hc Hsrc H.
  destruct (prim_terminates src Hc Hsrc) as [_ F].
  destruct (F _ H) as (G & C & O).
  unfold prim in *. rewrite (@prim_start_again src s s1 Hsrc G C O).
  unfold prim_fuel. now rewrite (same_graph_nodes G), (same_graph_edges G).
Qed.

(* ================================================================== *)
(** * Breadth-first search: termination and footprint *)
(* ================================================================== *)

Lemma discover_cells : forall node adj s p,
  cells (discover node adj s) p =
  if Nat.eqb p adj
  then mkNode (data (cells s adj)) gray (int_add (get_distance s node) 1)
              (Some node) (adj_list (cells s adj))
  else cells s p.
Proof.
  intros node adj s p. unfold discover, set_distance, set_predecessor, set_color.
  rewrite !cells_modify.
  destruct (Nat.eqb_spec p adj) as [->|N]; [|reflexivity].
  rewrite Nat.eqb_refl.
  unfold get_distance. rewrite !cells_modify.
  destruct (Nat.eqb node adj) eqn:E; [|reflexivity].
  apply Nat.eqb_eq in E. subst. rewrite Nat.eqb_refl. reflexivity.
Qed.

Lemma bfs_visit_cons : forall node adj rest s q,
  bfs_visit node (adj :: rest) s q =
  if color_eqb (get_color s adj) white
  then bfs_visit node rest (discover node adj s) (q ++ [adj])
  else bfs_visit node rest s q.
Proof. reflexivity. Qed.

Lemma same_graph_discover : forall node adj s, same_graph s (discover node adj s).
Proof.
  intros; unfold discover.
  eapply same_graph_trans; [|apply same_graph_set_distance].
  eapply same_graph_trans; [|apply same_graph_set_predecessor].
  apply same_graph_set_color.
Qed.

Lemma color_eqb_white : forall c, color_eqb c white = true <-> c = white.
Proof. intros []; simpl; split; congruence. Qed.

Lemma get_color_discover : forall node adj s p,
  get_color (discover node adj s) p =
  if Nat.eqb p adj then gray else get_color s p.
Proof.
  intros; unfold get_color; rewrite discover_cells.
  destruct (Nat.eqb p adj); reflexivity.
Qed.

Lemma get_distance_discover : forall node adj s p,
  get_distance (discover node adj s) p =
  if Nat.eqb p adj then int_add (get_distance s node) 1 else get_distance s p.
Proof.
  intros; unfold get_distance at 1; rewrite discover_cells.
  destruct (Nat.eqb p adj); reflexivity.
Qed.

Lemma get_predecessor_discover : forall node adj s p,
  get_predecessor (discover node adj s) p =
  if Nat.eqb p adj then Some node else get_predecessor s p.
Proof.
  intros; unfold get_predecessor; rewrite discover_cells.
  destruct (Nat.eqb p adj); reflexivity.
Qed.

Lemma get_color_set_color : forall u c s p,
  get_color (set_color u c s) p = if Nat.eqb p u then c else get_color s p.
Proof.
  intros; unfold get_color, set_color; rewrite cells_modify.
  destruct (Nat.eqb p u); reflexivity.
Qed.

Lemma get_distance_set_color : forall u c s p,
  get_distance (set_color u c s) p = get_distance s p.
Proof.
  intros; unfold get_distance, set_color; rewrite cells_modify.
  destruct (Nat.eqb_spec p u); subst; reflexivity.
Qed.

Lemma get_predecessor_set_color : forall u c s p,
  get_predecessor (set_color u c s) p = get_predecessor s p.
Proof.
  intros; unfold get_predecessor, set_color; rewrite cells_modify.
  destruct (Nat.eqb_spec p u); subst; reflexivity.
Qed.

Lemma white_count_discover : forall node adj s,
  In adj (nodes s) -> get_color s adj = white ->
  white_count (discover node adj s) < white_count s.
Proof.
  intros node adj s Hin Hw. unfold white_count.
  change (nodes (discover node adj s)) with (nodes s).
  apply list_sum_lt with (x := adj); auto.
  - rewrite get_color_discover, Nat.eqb_refl, Hw. simpl. lia.
  - intros v. rewrite get_color_discover.
    destruct (Nat.eqb v adj); simpl; [lia | auto].
Qed.

Lemma white_count_set_black : forall u s,
  white_count (set_color u black s) <= white_count s.
Proof.
  intros u s. unfold white_count.
  change (nodes (set_color u black s)) with (nodes s).
  apply list_sum_le. intros v. rewrite get_color_set_color.
  destruct (Nat.eqb v u); simpl; destruct (color_eqb _ _); lia.
Qed.

Lemma outside_untouched_modify : forall s0 p f s,
  In p (nodes s0) -> outside_untouched s0 s ->
  outside_untouched s0 (modify p f s).
Proof.
  intros s0 p f s Hin O x Hx. rewrite cells_modify.
  destruct (Nat.eqb_spec x p); [subst; contradiction | auto].
Qed.

Lemma outside_untouched_discover : forall s0 node adj s,
  In adj (nodes s0) -> outside_untouched s0 s ->
  outside_untouched s0 (discover node adj s).
Proof.
  intros s0 node adj s Hin O x Hx. rewrite discover_cells.
  destruct (Nat.eqb_spec x adj); [subst; contradiction | auto].
Qed.

Lemma bfs_visit_run_inv : forall s0 m node adjs s q,
  (forall v, In v adjs -> In v (nodes s0)) ->
  bfs_run_inv s0 m s q ->
  bfs_run_inv s0 m (fst (bfs_visit node adjs s q)) (snd (bfs_visit node adjs s q)).
Proof.
  intros s0 m node; induction adjs as [|adj adjs IH]; intros s q Hsub I; auto.
  rewrite bfs_visit_cons.
  assert (forall v, In v adjs -> In v (nodes s0)) as Hsub'
    by (intros; apply Hsub; now right).
  destruct (color_eqb (get_color s adj) white) eqn:W; [|now apply IH].
  apply color_eqb_white in W.
  assert (In adj (nodes s0)) as Hadj by (apply Hsub; now left).
  apply IH; auto. destruct I as [G O Q B]. constructor.
  - eapply same_graph_trans; [exact G | apply same_graph_discover].
  - now apply outside_untouched_discover.
  - apply Forall_app; auto.
  - rewrite length_app; simpl.
    pose proof (@white_count_discover node adj s) as L.
    rewrite (same_graph_nodes G) in L. specialize (L Hadj W). lia.
Qed.

Lemma bfs_loop_run_inv : forall s0, closed s0 ->
  forall fuel m s q, bfs_run_inv s0 m s q -> m <= fuel ->
  exists s', bfs_loop fuel s q = Some s' /\
             same_graph s0 s' /\ outside_untouched s0 s'.
Proof.
  intros s0 Hc; induction fuel as [|fuel IH]; intros m s q I Hm.
  - destruct q as [|node q].
    + exists s; destruct I; auto.
    + destruct I as [_ _ _ B]. simpl in B. lia.
  - destruct q as [|node q]; [exists s; destruct I; simpl; auto|].
    cbn [bfs_loop].
    assert (In node (nodes s0)) as Hnode
      by (destruct I as [_ _ Q _]; now inversion Q).
    assert (bfs_run_inv s0 (m - 1) s q /\ 0 < m) as [I1 Hpos].
    { destruct I as [G O Q B]. simpl in B. split; [|lia].
      constructor; auto; [now inversion Q | lia]. }
    pose proof (@bfs_visit_run_inv s0 (m - 1) node (get_adj_list s node) s q)
      as V.
    destruct (bfs_visit node (get_adj_list s node) s q) as [s1 q1].
    simpl in V. destruct V as [G1 O1 Q1 B1]; auto.
    { intros v Hv. destruct I as [G _ _ _].
      rewrite (same_graph_adj _ G) in Hv. eapply Hc; eauto. }
    apply (IH (m - 1)); [|lia]. constructor; auto.
    + eapply same_graph_trans; [exact G1 | apply same_graph_set_color].
    + now apply outside_untouched_modify.
    + pose proof (white_count_set_black node s1). lia.
Qed.

Lemma bfs_reset_cells : forall ns s p,
  cells (bfs_reset ns s) p =
  if set_find p ns
  then mkNode (data (cells s p)) white INT_MAX None (adj_list (cells s p))
  else cells s p.
Proof.
  induction ns as [|n ns IH]; intros s p; simpl; auto.
  rewrite IH. unfold set_predecessor, set_distance, set_color.
  rewrite !cells_modify.
  rewrite (Nat.eqb_sym p n) at 1.
  destruct (Nat.eqb_spec n p) as [->|N]; simpl.
  - rewrite !Nat.eqb_refl. destruct (set_find p ns); reflexivity.
  - destruct (Nat.eqb_spec p n); [congruence|]. reflexivity.
Qed.

Lemma bfs_start_cells : forall src s p,
  In src (nodes s) ->
  cells (bfs_start src s) p =
  if Nat.eqb p src
  then mkNode (data (cells s p)) gray 0%Z None (adj_list (cells s p))
  else if set_find p (nodes s)
       then mkNode (data (cells s p)) white INT_MAX None (adj_list (cells s p))
       else cells s p.
Proof.
  intros src s p Hsrc. unfold bfs_start, set_predecessor, set_color, set_distance.
  rewrite !cells_modify, !bfs_reset_cells.
  destruct (Nat.eqb_spec p src) as [->|N]; [|reflexivity].
  apply set_find_true in Hsrc. rewrite Hsrc, !Nat.eqb_refl. reflexivity.
Qed.

Lemma list_sum_ones : forall ns : list ptr,
  list_sum (map (fun _ => 1) ns) = length ns.
Proof. induction ns as [|x l IHl]; simpl; [reflexivity | now rewrite IHl]. Qed.

Lemma bfs_start_run_inv : forall src s,
  In src (nodes s) -> bfs_run_inv s (length (nodes s)) (bfs_start src s) [src].
Proof.
  intros src s Hsrc. constructor.
  - apply same_graph_bfs_start.
  - intros p Hp. rewrite bfs_start_cells by auto.
    destruct (Nat.eqb_spec p src); [subst; contradiction|].
    destruct (set_find p (nodes s)) eqn:F; auto.
    apply set_find_true in F. contradiction.
  - constructor; auto.
  - unfold white_count.
    rewrite (same_graph_nodes (same_graph_bfs_start src s)).
    pose proof (list_sum_ones (nodes s)) as L.
    assert (list_sum
              (map (fun p => if color_eqb (get_color (bfs_start src s) p) white
                             then 1 else 0) (nodes s)) <
            list_sum (map (fun _ : ptr => 1) (nodes s))) as K.
    { apply list_sum_lt with (x := src); auto.
      - unfold get_color. rewrite bfs_start_cells, Nat.eqb_refl by auto.
        cbn [color color_eqb]. lia.
      - intros v. cbv beta.
        destruct (color_eqb (get_color (bfs_start src s) v) white); lia. }
    rewrite L in K. cbn [length]. lia.
Qed.

(** On a store closed under adjacency, [bfs] from a stored node returns,
    and what it returns differs from the initial state only in the search
    state of stored nodes. *)
Lemma bfs_terminates : forall src s,
  closed s -> In src (nodes s) ->
  exists s', bfs src s = Some s' /\ same_graph s s' /\ outside_untouched s s'.
Proof.
  intros src s Hc Hsrc. unfold bfs.
  apply (@bfs_loop_run_inv s Hc (length (nodes s)) (length (nodes s))); auto.
  now apply bfs_start_run_inv.
Qed.

Lemma bfs_start_again : forall src s s1,
  In src (nodes s) -> same_graph s s1 -> outside_untouched s s1 ->
  bfs_start src s1 = bfs_start src s.
Proof.
  intros src s s1 Hsrc G O.
  apply (@same_graph_State_eq s).
  - eapply same_graph_trans; [exact G | apply same_graph_bfs_start].
  - apply same_graph_bfs_start.
  - intros p. rewrite !bfs_start_cells by (rewrite ?(same_graph_nodes G); auto).
    rewrite (same_graph_nodes G), (same_graph_data p G),
      (same_graph_adj_list p G).
    destruct (Nat.eqb p src); auto.
    destruct (set_find p (nodes s)) eqn:F; auto.
    apply O. intros Hin. apply set_find_true in Hin. congruence.
Qed.

Lemma bfs_twice : forall src s,
  closed s -> In src (nodes s) ->
  exists s1, bfs src s = Some s1 /\ bfs src s1 = Some s1.
Proof.
  intros src s Hc Hsrc.
  destruct (bfs_terminates src Hc Hsrc) as (s1 & H & G & O).
  exists s1. split; auto.
  unfold bfs in *. rewrite (@bfs_start_again src s s1 Hsrc G O).
  now rewrite (same_graph_nodes G).
Qed.

Lemma repaint_set_distance : forall c p d s,
  set_distance p d (repaint c s) = repaint c (set_distance p d s).
Proof.
  intros c p d s. apply State_eq; try reflexivity.
  intros q. unfold set_distance, repaint. rewrite cells_modify. cbn [cells].
  unfold modify; cbn [cells]. unfold upd.
  destruct (Nat.eqb_spec q p) as [->|N]; reflexivity.
Qed.

Lemma repaint_set_predecessor : forall c p u s,
  set_predecessor p u (repaint c s) = repaint c (set_predecessor p u s).
Proof.
  intros c p u s. apply State_eq; try reflexivity.
  intros q. unfold set_predecessor, repaint. rewrite cells_modify. cbn [cells].
  unfold modify; cbn [cells]. unfold upd.
  destruct (Nat.eqb_spec q p) as [->|N]; reflexivity.
Qed.

Lemma Compare_repaint : forall c s, Compare (repaint c s) = Compare s.
Proof.
  intros c s. apply functional_extensionality; intros a.
  apply functional_extensionality; intros b. reflexivity.
Qed.

Lemma prim_reset_repaint : forall c ns s,
  prim_reset ns (repaint c s) = repaint c (prim_reset ns s).
Proof.
  intros c; induction ns as [|n ns IH]; intros s; simpl; [reflexivity|].
  now rewrite repaint_set_distance, repaint_set_predecessor, IH.
Qed.

Lemma prim_start_repaint : forall c src s,
  prim_start src (repaint c s) = repaint_prim c (prim_start src s).
Proof.
  intros c src s. unfold prim_start, repaint_prim; cbn [st pq in_mst lookups].
  change (nodes (repaint c s)) with (nodes s).
  rewrite prim_reset_repaint, repaint_set_distance, repaint_set_predecessor.
  now rewrite Compare_repaint.
Qed.

Lemma prim_relax_repaint : forall c node adjs p,
  prim_relax node adjs (repaint_prim c p) =
  option_map (repaint_prim c) (prim_relax node adjs p).
Proof.
  intros c node; induction adjs as [|adj adjs IH]; intros p; [reflexivity|].
  cbn [prim_relax]. unfold repaint_prim at 1 2 3 4 5; cbn [st pq in_mst lookups].
  change (get_edge (repaint c (st p)) node adj) with (get_edge (st p) node adj).
  change (get_distance (repaint c (st p)) adj) with (get_distance (st p) adj).
  destruct (negb (set_find adj (in_mst p))).
  - destruct (get_edge (st p) node adj) as [e|]; [|reflexivity].
    destruct (_ >? _)%Z.
    + rewrite <- IH. f_equal. unfold repaint_prim; cbn [st pq in_mst lookups].
      now rewrite repaint_set_predecessor, repaint_set_distance, Compare_repaint.
    + rewrite <- IH. reflexivity.
  - rewrite <- IH. reflexivity.
Qed.

Lemma prim_iter_repaint : forall c p,
  prim_iter (repaint_prim c p) = option_map (repaint_prim c) (prim_iter p).
Proof.
  intros c p. unfold prim_iter.
  change (pq (repaint_prim c p)) with (pq p).
  destruct (pq p) as [|node rest] eqn:Q; [reflexivity|].
  rewrite <- prim_relax_repaint. reflexivity.
Qed.

Lemma prim_loop_repaint : forall c fuel p,
  prim_loop fuel (repaint_prim c p) = repaint_outcome c (prim_loop fuel p).
Proof.
  intros c; induction fuel as [|fuel IH]; intros p; cbn [prim_loop];
    change (pq (repaint_prim c p)) with (pq p);
    destruct (pq p) as [|node rest] eqn:Q; try reflexivity.
  rewrite prim_iter_repaint.
  destruct (prim_iter p) as [p1|]; [apply IH | reflexivity].
Qed.

(** [prim] neither reads nor writes a colour. *)
Lemma prim_repaint : forall c src s,
  prim src (repaint c s) = repaint_outcome c (prim src s).
Proof.
  intros c src s. unfold prim.
  rewrite prim_start_repaint, prim_loop_repaint. reflexivity.
Qed.

Lemma repaint_after_bfs : forall s s1,
  same_graph s s1 -> outside_untouched s s1 ->
  prim_reset (nodes s) s1 = repaint (get_color s1) (prim_reset (nodes s) s).
Proof.
  intros s s1 G O.
  destruct (prim_reset_frame (nodes s) s) as [G0 _].
  destruct (prim_reset_frame (nodes s) s1) as [G1 _].
  apply State_eq;
    try (destruct G as (A1 & A2 & A3 & A4 & A5 & A6 & _),
                  G0 as (B1 & B2 & B3 & B4 & B5 & B6 & _),
                  G1 as (C1 & C2 & C3 & C4 & C5 & C6 & _);
         cbn [repaint brk nodes edges tot_nodes tot_edges cerr]; congruence).
  intros p. cbn [repaint cells]. rewrite !prim_reset_cells.
  pose proof (same_graph_data p G) as D.
  pose proof (same_graph_adj_list p G) as A.
  destruct (set_find p (nodes s)) eqn:F.
  - unfold node_set_color, get_color; simpl. congruence.
  - rewrite O.
    + unfold node_set_color, get_color. rewrite O.
      * destruct (cells s p); reflexivity.
      * intros Hin. apply set_find_true in Hin. congruence.
    + intros Hin. apply set_find_true in Hin. congruence.
Qed.

(** [bfs] and [prim] do not depend on the search state the stored nodes
    carry when they are called. *)
Lemma bfs_from_any_search_state : forall src s s0,
  In src (nodes s) -> same_graph s s0 -> outside_untouched s s0 ->
  bfs src s0 = bfs src s.
Proof.
  intros src s s0 Hsrc G O.
  unfold bfs. rewrite (@bfs_start_again src s s0 Hsrc G O).
  now rewrite (same_graph_nodes G).
Qed.

Lemma prim_from_any_search_state : forall src s s0,
  same_graph s s0 -> outside_untouched s s0 ->
  prim src s0 = repaint_outcome (get_color s0) (prim src s).
Proof.
  intros src s s0 G O.
  rewrite <- prim_repaint. unfold prim. f_equal.
  - unfold prim_fuel. cbn [repaint nodes edges].
    now rewrite (same_graph_nodes G), (same_graph_edges G).
  - rewrite prim_start_repaint. unfold prim_start, repaint_prim.
    cbn [st pq in_mst lookups].
    rewrite (same_graph_nodes G), (repaint_after_bfs G O).
    now rewrite repaint_set_distance, repaint_set_predecessor.
Qed.

(** C7. On a graph whose adjacency entries refer to stored nodes, and for a
    stored source: [bfs] returns, and a second [bfs] from the same source
    returns the very same state (every colour, distance and predecessor);
    [prim] does not run out of fuel, and when it returns, a second [prim]
    from the same source returns the very same state.  Each run
    reinitialises the search state it uses: whatever colours, distances and
    predecessors the stored nodes carry when it is called ([s0] is [s] with
    any search state on the stored nodes), [bfs] returns the same state,
    and [prim] returns the same distances and predecessors. *)
Theorem searches_idempotent : forall src s,
  closed s -> In src (nodes s) ->
  (exists s1, bfs src s = Some s1 /\ bfs src s1 = Some s1) /\
  prim src s <> OutOfFuel /\
  (forall s1, prim src s = Finished s1 -> prim src s1 = Finished s1) /\
  (forall s0, same_graph s s0 -> outside_untouched s s0 ->
     bfs src s0 = bfs src s) /\
  (forall s0 s1, same_graph s s0 -> outside_untouched s s0 ->
     prim src s = Finished s1 ->
     exists s2, prim src s0 = Finished s2 /\
       forall v, get_distance s2 v = get_distance s1 v /\
                 get_predecessor s2 v = get_predecessor s1 v).
Proof.
  intros src s Hc Hsrc. split; [|split; [|split; [|split]]].
  - now apply bfs_twice.
  - now apply prim_terminates.
  - intros s1. now apply prim_twice.
  - intros s0. now apply bfs_from_any_search_state.
  - intros s0 s1 G O H.
    exists (repaint (get_color s0) s1). split.
    + rewrite (@prim_from_any_search_state src s s0 G O), H. reflexivity.
    + intros v. split; reflexivity.
Qed.

Lemma closedb_closed : forall s, closedb s = true -> closed s.
Proof.
  intros s H u v Hu Hv. unfold closedb in H.
  rewrite forallb_forall in H. specialize (H u Hu).
  rewrite forallb_forall in H. apply set_find_true, H, Hv.
Qed.

(** On [star3], also when node 1 is left black, or at distance 0, by
    whatever ran before: the stale colour does not keep [bfs] from visiting
    it, nor the stale distance [prim] from relaxing it. *)
Lemma searches_idempotent_witness :
  (exists s1, bfs 0 star3 = Some s1 /\ bfs 0 s1 = Some s1) /\
  prim 0 star3 <> OutOfFuel /\
  (forall s1, prim 0 star3 = Finished s1 -> prim 0 s1 = Finished s1) /\
  bfs 0 (set_color 1 black star3) = bfs 0 star3 /\
  (forall s1, prim 0 star3 = Finished s1 ->
     exists s2, prim 0 (set_distance 1 0%Z star3) = Finished s2 /\
       forall v, get_distance s2 v = get_distance s1 v /\
                 get_predecessor s2 v = get_predecessor s1 v).
Proof.
  assert (In 1 (nodes star3)) as H1 by (vm_compute; auto).
  assert (outside_untouched star3 star3) as O by (intros p _; reflexivity).
  destruct (@searches_idempotent 0 star3) as (A & B & C & D & E).
  - apply closedb_closed. vm_compute. reflexivity.
  - vm_compute. left. reflexivity.
  - split; [exact A|]. split; [exact B|]. split; [exact C|]. split.
    + apply D; [apply same_graph_set_color|].
      apply outside_untouched_modify; [exact H1 | exact O].
    + intros s1 H. apply (E (set_distance 1 0%Z star3) s1);
        [apply same_graph_set_distance | | exact H].
      apply outside_untouched_modify; [exact H1 | exact O].
Defined.

(* ================================================================== *)
(** * Breadth-first search: shortest paths *)
(* ================================================================== *)

Lemma NoDup_snoc : forall (l : list ptr) x,
  NoDup l -> ~ In x l -> NoDup (l ++ [x]).
Proof.
  induction l as [|a l IH]; intros x Hl Hx; simpl.
  - constructor; auto.
  - inversion Hl; subst. constructor.
    + intros Hin. apply in_app_or in Hin as [Hin|[->|[]]]; auto.
      apply Hx; now left.
    + apply IH; auto. intros Hin; apply Hx; now right.
Qed.

Lemma StronglySorted_ext_in : forall (R R' : ptr -> ptr -> Prop) l,
  (forall a b, In a l -> In b l -> R a b -> R' a b) ->
  StronglySorted R l -> StronglySorted R' l.
Proof.
  intros R R' l; induction l as [|x l IH]; intros H S; [constructor|].
  inversion S as [|? ? S' F]; subst. constructor.
  - apply IH; auto. intros a b Ha Hb; apply H; now right.
  - rewrite Forall_forall in *. intros y Hy.
    apply H; [now left | now right | now apply F].
Qed.

Lemma StronglySorted_snoc : forall (R : ptr -> ptr -> Prop) l x,
  StronglySorted R l -> (forall w, In w l -> R w x) ->
  StronglySorted R (l ++ [x]).
Proof.
  intros R l x; induction l as [|a l IH]; intros S H; simpl.
  - repeat constructor.
  - inversion S as [|? ? S' F]; subst. constructor.
    + apply IH; auto. intros w Hw; apply H; now right.
    + apply Forall_app; split; auto.
      constructor; auto. apply H; now left.
Qed.

Lemma int_add_small : forall a b,
  (- 2147483648 <= a + b < 2147483648)%Z -> int_add a b = (a + b)%Z.
Proof. intros; unfold int_add; now apply to_int_small. Qed.

Section BfsInvariant.
Variable s0 : State.
Variable src : ptr.
Hypothesis Hclosed : closed s0.
Hypothesis Hsize : (Z.of_nat (length (nodes s0)) <= INT_MAX)%Z.

Lemma bfs_inv_adjacent : forall u done s q adj,
  bfs_inv s0 src u done s q -> In adj (get_adj_list s0 u) ->
  In adj (nodes s0).
Proof.
  intros u done s q adj I Hadj. apply (Hclosed u); auto.
  apply (inv_queue I). now left.
Qed.

Lemma bfs_inv_head_gray : forall u done s q,
  bfs_inv s0 src u done s q -> get_color s u = gray.
Proof.
  intros u done s q I. apply (inv_gray I); [|now left].
  apply (inv_queue I). now left.
Qed.

Lemma bfs_inv_skip : forall u done s q adj,
  bfs_inv s0 src u done s q -> In adj (get_adj_list s0 u) ->
  get_color s adj <> white ->
  bfs_inv s0 src u (done ++ [adj]) s q.
Proof.
  intros u done s q adj I Hadj Hc.
  pose proof (@bfs_inv_adjacent u done s q adj I Hadj) as Hin.
  destruct I. constructor; auto.
  intros v Hv. apply in_app_or in Hv as [Hv|[<-|[]]]; auto.
  split; auto.
  destruct (get_color s adj) eqn:C; [congruence| |].
  - apply inv_gray0 in C; auto. destruct C as [<-|C]; [lia | auto].
  - specialize (inv_black_le0 adj Hin C). lia.
Qed.

Lemma bfs_inv_discover : forall u done s q adj,
  bfs_inv s0 src u done s q -> In adj (get_adj_list s0 u) ->
  get_color s adj = white ->
  bfs_inv s0 src u (done ++ [adj]) (discover u adj s) (q ++ [adj]).
Proof.
  intros u done s q adj I Hadj Hw.
  pose proof (@bfs_inv_adjacent u done s q adj I Hadj) as Hin.
  pose proof (@bfs_inv_head_gray u done s q I) as Hu.
  destruct I as [IG IQ IN IGr IW IP IS IPr IB IBl ISo INe ID].
  assert (In u (nodes s0)) as Hun by (apply IQ; now left).
  assert (forall v, get_color s v <> white -> v <> adj) as Hne
    by (intros v Hv ->; contradiction).
  assert (u <> adj) as Hua by (apply Hne; congruence).
  assert (~ In adj (u :: q)) as Hnq.
  { intros Hq. apply IGr in Hq; auto. congruence. }
  destruct (IP u Hun) as (Hu0 & Hup & Hub); [congruence|].
  assert (get_distance (discover u adj s) adj = (get_distance s u + 1)%Z) as Hd.
  { rewrite get_distance_discover, Nat.eqb_refl. apply int_add_small.
    unfold INT_MAX in Hsize. lia. }
  assert (forall v, v <> adj ->
            get_color (discover u adj s) v = get_color s v /\
            get_distance (discover u adj s) v = get_distance s v /\
            get_predecessor (discover u adj s) v = get_predecessor s v) as Hsame.
  { intros v Hv. rewrite get_color_discover, get_distance_discover,
      get_predecessor_discover.
    destruct (Nat.eqb_spec v adj); [contradiction | auto]. }
  assert (get_color (discover u adj s) adj = gray) as Hg
    by (now rewrite get_color_discover, Nat.eqb_refl).
  assert (get_predecessor (discover u adj s) adj = Some u) as Hp
    by (now rewrite get_predecessor_discover, Nat.eqb_refl).
  assert (forall v, get_color (discover u adj s) v <> white ->
            v <> adj -> get_color s v <> white) as Hold.
  { intros v Hv Hva. now rewrite <- (proj1 (Hsame v Hva)). }
  pose proof (@white_count_discover u adj s) as Hwc.
  rewrite (same_graph_nodes IG) in Hwc. specialize (Hwc Hin Hw).
  destruct (Hsame u Hua) as (Huc & Hud & _).
  constructor.
  - eapply same_graph_trans; [apply IG | apply same_graph_discover].
  - intros w [<-|Hq]; auto.
    apply in_app_or in Hq as [Hq|[<-|[]]]; auto.
    apply IQ. now right.
  - change (NoDup ((u :: q) ++ [adj])). apply NoDup_snoc; auto.
  - intros v Hv. destruct (Nat.eq_dec v adj) as [->|Hva].
    + split; auto. intros _. right. apply in_or_app; right; now left.
    + rewrite (proj1 (Hsame v Hva)), (IGr v Hv).
      change (u :: q ++ [adj]) with ((u :: q) ++ [adj]). rewrite in_app_iff.
      simpl. intuition congruence.
  - intros v Hv Hvw. destruct (Nat.eq_dec v adj) as [->|Hva]; [congruence|].
    destruct (Hsame v Hva) as (Ec & Ed & Ep). rewrite Ed, Ep.
    apply IW; congruence.
  - intros v Hv Hvc. destruct (Nat.eq_dec v adj) as [->|Hva].
    + rewrite Hd. repeat split; try lia.
      replace (Z.to_nat (get_distance s u + 1)) with
        (S (Z.to_nat (get_distance s u))) by lia.
      eapply hops_step; eauto.
    + destruct (Hsame v Hva) as (Ec & Ed & Ep). rewrite Ed.
      destruct (IP v Hv) as (A & B & C); [congruence|].
      repeat split; auto. lia.
  - destruct IS as (A & B & C & D).
    destruct (Hsame src (Hne src B)) as (Ec & Ed & Ep).
    repeat split; congruence.
  - intros v Hv Hvc Hvs. destruct (Nat.eq_dec v adj) as [->|Hva].
    + exists u. repeat split; auto; congruence.
    + destruct (Hsame v Hva) as (Ec & Ed & Ep).
      destruct (IPr v Hv (Hold v Hvc Hva) Hvs) as (w & Pw & Wn & Wc & Wa & Wd).
      destruct (Hsame w (Hne w Wc)) as (Ec' & Ed' & _).
      exists w. repeat split; auto; congruence.
  - intros w v Hwn Hwb Hv.
    assert (w <> adj) as Hwa by (intros ->; congruence).
    destruct (Hsame w Hwa) as (Ec & Ed & _).
    assert (get_color s w = black) as Hwb' by congruence.
    destruct (IB w v Hwn Hwb' Hv) as [Vc Vd].
    destruct (Hsame v (Hne v Vc)) as (Ec' & Ed' & _).
    split; congruence.
  - intros w Hwn Hwb.
    assert (w <> adj) as Hwa by (intros ->; congruence).
    destruct (Hsame w Hwa) as (Ec & Ed & _).
    rewrite Ed, Hud. apply IBl; congruence.
  - change (u :: q ++ [adj]) with ((u :: q) ++ [adj]).
    apply StronglySorted_snoc.
    + eapply StronglySorted_ext_in; [|apply ISo].
      intros a b Ha Hb Hab. cbv beta in *.
      assert (a <> adj) by (intros ->; contradiction).
      assert (b <> adj) by (intros ->; contradiction).
      destruct (Hsame a) as (_ & -> & _); auto.
      destruct (Hsame b) as (_ & -> & _); auto.
    + intros w Hwq. rewrite Hd.
      assert (w <> adj) by (intros ->; contradiction).
      destruct (Hsame w) as (_ & -> & _); auto.
      destruct Hwq as [<-|Hwq]; [lia | apply INe, Hwq].
  - intros w Hq. rewrite Hud. apply in_app_or in Hq as [Hq|[<-|[]]].
    + assert (w <> adj) by (intros ->; apply Hnq; now right).
      destruct (Hsame w) as (_ & -> & _); auto.
    + lia.
  - intros v Hv. rewrite Hud. apply in_app_or in Hv as [Hv|[<-|[]]].
    + destruct (ID v Hv) as [Vc Vd].
      destruct (Hsame v (Hne v Vc)) as (Ec & Ed & _).
      split; congruence.
    + split; [congruence | lia].
Qed.
End BfsInvariant.

Section BfsLoop.
Variable s0 : State.
Variable src : ptr.
Hypothesis Hclosed : closed s0.
Hypothesis Hsize : (Z.of_nat (length (nodes s0)) <= INT_MAX)%Z.

Lemma bfs_visit_inv : forall u adjs done s q,
  bfs_inv s0 src u done s q ->
  (forall v, In v adjs -> In v (get_adj_list s0 u)) ->
  bfs_inv s0 src u (done ++ adjs)
          (fst (bfs_visit u adjs s q)) (snd (bfs_visit u adjs s q)).
Proof.
  intros u; induction adjs as [|adj adjs IH]; intros done s q I Hsub.
  - simpl. now rewrite app_nil_r.
  - rewrite bfs_visit_cons.
    assert (In adj (get_adj_list s0 u)) as Hadj by (apply Hsub; now left).
    assert (forall v, In v adjs -> In v (get_adj_list s0 u)) as Hsub'
      by (intros; apply Hsub; now right).
    replace (done ++ adj :: adjs) with ((done ++ [adj]) ++ adjs)
      by (now rewrite <- app_assoc).
    destruct (color_eqb (get_color s adj) white) eqn:W.
    + apply color_eqb_white in W. apply IH; auto.
      eapply bfs_inv_discover; eauto.
    + apply IH; auto. eapply bfs_inv_skip; eauto.
      intros E. apply color_eqb_white in E. congruence.
Qed.

Lemma bfs_inv_next : forall u s q,
  bfs_inv s0 src u (get_adj_list s0 u) s q ->
  match q with
  | [] => bfs_final s0 src (set_color u black s)
  | u2 :: q2 => bfs_inv s0 src u2 [] (set_color u black s) q2
  end.
Proof.
  intros u s q I.
  pose proof (@bfs_inv_head_gray s0 src u _ s q I) as Hu.
  destruct I as [IG IQ IN IGr IW IP IS IPr IB IBl ISo INe ID].
  assert (In u (nodes s0)) as Hun by (apply IQ; now left).
  set (s' := set_color u black s).
  assert (forall v, get_distance s' v = get_distance s v) as Ed
    by (intros; apply get_distance_set_color).
  assert (forall v, get_predecessor s' v = get_predecessor s v) as Ep
    by (intros; apply get_predecessor_set_color).
  assert (forall v, get_color s' v <> white <-> get_color s v <> white) as Ew.
  { intros v. unfold s'. rewrite get_color_set_color.
    destruct (Nat.eqb_spec v u) as [->|N]; [|tauto].
    split; congruence. }
  assert (forall v, get_color s' v = black <->
                    v = u \/ get_color s v = black) as Eb.
  { intros v. unfold s'. rewrite get_color_set_color.
    destruct (Nat.eqb_spec v u) as [->|N]; [tauto|].
    split; [auto | intros [?|?]; congruence]. }
  assert (forall v, get_color s' v = gray <->
                    v <> u /\ get_color s v = gray) as Eg.
  { intros v. unfold s'. rewrite get_color_set_color.
    destruct (Nat.eqb_spec v u) as [->|N].
    - split; [discriminate | tauto].
    - tauto. }
  assert (same_graph s0 s') as G'
    by (eapply same_graph_trans; [exact IG | apply same_graph_set_color]).
  assert (forall w v, In w (nodes s0) -> get_color s' w = black ->
            In v (get_adj_list s0 w) ->
            get_color s' v <> white /\
            (get_distance s' v <= get_distance s' w + 1)%Z) as B'.
  { intros w v Hw Hb Hv. rewrite !Ed, Ew. apply Eb in Hb as [->|Hb]; auto. }
  assert (forall v, In v (nodes s0) -> get_color s' v <> white -> v <> src ->
    exists w, get_predecessor s' v = Some w /\ In w (nodes s0) /\
              get_color s' w <> white /\ In v (get_adj_list s0 w) /\
              get_distance s' v = (get_distance s' w + 1)%Z) as P'.
  { intros v Hv Hc Hs. apply Ew in Hc.
    destruct (IPr v Hv Hc Hs) as (w & A & B & C & D & E).
    exists w. rewrite Ep, !Ed, Ew. auto. }
  assert (forall v, In v (nodes s0) -> get_color s' v = white ->
            get_distance s' v = INT_MAX /\ get_predecessor s' v = None) as W'.
  { intros v Hv Hc. rewrite Ed, Ep. apply IW; auto.
    destruct (get_color s v) eqn:C; auto; exfalso;
      apply (proj2 (Ew v)); congruence. }
  assert (In src (nodes s0) /\ get_color s' src <> white /\
          get_distance s' src = 0%Z /\ get_predecessor s' src = None) as S'
    by (rewrite Ed, Ep, Ew; exact IS).
  destruct q as [|u2 q2].
  - constructor; auto.
    + intros v Hv Hg. apply Eg in Hg as [N Hg].
      apply IGr in Hg; auto. destruct Hg as [<-|[]]. congruence.
    + intros v Hv Hc. rewrite Ed. apply Ew in Hc.
      destruct (IP v Hv Hc) as (A & B & _). auto.
    + intros w v Hw Hc Hv. apply B'; auto. apply Eb.
      destruct (Nat.eq_dec w u) as [->|N]; auto. right.
      apply Ew in Hc. destruct (get_color s w) eqn:C; auto; [congruence|].
      apply IGr in C; auto. destruct C as [<-|[]]. congruence.
  - inversion IN as [|? ? Hnu IN']; subst.
    inversion ISo as [|? ? ISo' IF]; subst.
    rewrite Forall_forall in IF.
    assert (get_distance s u <= get_distance s u2)%Z as Hle
      by (apply IF; now left).
    constructor; auto.
    + intros w Hw. apply IQ. now right.
    + intros v Hv. rewrite Eg, (IGr v Hv). split.
      * intros [N [E|H]]; [congruence | exact H].
      * intros H. split; [intros ->; contradiction | now right].
    + intros v Hv Hc. rewrite Ed. apply Ew in Hc.
      destruct (IP v Hv Hc) as (A & B & C). repeat split; auto.
      pose proof (white_count_set_black u s). fold s' in H. lia.
    + intros w Hw Hb. rewrite !Ed. apply Eb in Hb as [->|Hb]; auto.
      specialize (IBl w Hw Hb). lia.
    + eapply StronglySorted_ext_in; [|exact ISo'].
      intros a b _ _ Hab. cbv beta. now rewrite !Ed.
    + intros w Hw. rewrite !Ed.
      assert (get_distance s w <= get_distance s u + 1)%Z
        by (apply INe; now right). lia.
    + intros v [].
Qed.

Lemma bfs_loop_inv : forall fuel u q s s',
  bfs_inv s0 src u [] s q ->
  bfs_loop fuel s (u :: q) = Some s' -> bfs_final s0 src s'.
Proof.
  induction fuel as [|fuel IH]; intros u q s s' I H; [discriminate|].
  cbn [bfs_loop] in H.
  pose proof (@bfs_visit_inv u (get_adj_list s u) [] s q I) as V.
  destruct (bfs_visit u (get_adj_list s u) s q) as [s1 q1]. simpl in V.
  rewrite (same_graph_adj _ (inv_graph I)) in V.
  specialize (V (fun v Hv => Hv)).
  apply bfs_inv_next in V.
  destruct q1 as [|u2 q2].
  - destruct fuel; simpl in H; injection H as <-; exact V.
  - eapply IH; eauto.
Qed.

Hypothesis Hsrc : In src (nodes s0).

Lemma bfs_start_inv : bfs_inv s0 src src [] (bfs_start src s0) [].
Proof.
  pose proof (bfs_start_run_inv src s0 Hsrc) as [G _ _ B].
  assert (forall p, get_color (bfs_start src s0) p =
            if Nat.eqb p src then gray
            else if set_find p (nodes s0) then white else get_color s0 p) as Ec.
  { intros p. unfold get_color. rewrite bfs_start_cells by auto.
    destruct (Nat.eqb p src); auto. destruct (set_find p (nodes s0)); auto. }
  assert (forall p, In p (nodes s0) -> p <> src ->
            get_color (bfs_start src s0) p = white /\
            get_distance (bfs_start src s0) p = INT_MAX /\
            get_predecessor (bfs_start src s0) p = None) as Eo.
  { intros p Hp N. unfold get_color, get_distance, get_predecessor.
    rewrite bfs_start_cells by auto.
    destruct (Nat.eqb_spec p src); [contradiction|].
    apply set_find_true in Hp. rewrite Hp. auto. }
  assert (get_color (bfs_start src s0) src = gray /\
          get_distance (bfs_start src s0) src = 0%Z /\
          get_predecessor (bfs_start src s0) src = None) as (Es1 & Es2 & Es3).
  { unfold get_color, get_distance, get_predecessor.
    rewrite bfs_start_cells, Nat.eqb_refl by auto. auto. }
  assert (forall v, In v (nodes s0) ->
            get_color (bfs_start src s0) v <> white -> v = src) as Enw.
  { intros v Hv Hc. destruct (Nat.eq_dec v src); auto.
    destruct (Eo v Hv n) as (C & _). contradiction. }
  constructor; auto.
  - intros w [<-|[]]; auto.
  - repeat constructor; auto.
  - intros v Hv. split.
    + intros Hg. left. symmetry. apply Enw; auto. congruence.
    + intros [<-|[]]. exact Es1.
  - intros v Hv Hc. destruct (Nat.eq_dec v src) as [->|N]; [congruence|].
    apply Eo; auto.
  - intros v Hv Hc. rewrite (Enw v Hv Hc), Es2. simpl in B.
    repeat split; [lia | constructor | lia].
  - repeat split; auto. congruence.
  - intros v Hv Hc N. exfalso. apply N, Enw; auto.
  - intros w v Hw Hb. rewrite (Enw w Hw) in Hb by congruence. congruence.
  - intros w Hw Hb. rewrite (Enw w Hw) in Hb by congruence. congruence.
  - repeat constructor.
  - intros w [].
  - intros v [].
Qed.

Lemma bfs_final_lower_bound : forall s n v,
  bfs_final s0 src s -> hops s0 src v n ->
  In v (nodes s0) /\ get_color s v <> white /\
  (get_distance s v <= Z.of_nat n)%Z.
Proof.
  intros s n v F H. induction H as [|v w n H IH Hw].
  - destruct (fin_src F) as (A & B & C & D). repeat split; auto. lia.
  - destruct IH as (Hv & Hc & Hd).
    destruct (fin_black F v w Hv Hc Hw) as [Wc Wd].
    repeat split; auto; [eapply Hclosed; eauto | lia].
Qed.
End BfsLoop.

Lemma bfs_reaches_final : forall src s s',
  closed s -> In src (nodes s) ->
  (Z.of_nat (length (nodes s)) <= INT_MAX)%Z ->
  bfs src s = Some s' -> bfs_final s src s'.
Proof.
  intros src s s' Hc Hsrc Hsize H. unfold bfs in H.
  eapply bfs_loop_inv; eauto. now apply bfs_start_inv.
Qed.

Lemma bfs_final_ancestor : forall s0 src s,
  bfs_final s0 src s ->
  forall n v, In v (nodes s0) -> get_color s v <> white ->
    get_distance s v = Z.of_nat n -> ancestor s n v = Some src.
Proof.
  intros s0 src s F. destruct F as [FG FC FW FP FS FPr FB].
  destruct FS as (Sn & Sc & Sd & Sp).
  induction n as [|n IH]; intros v Hv Hc Hd.
  - destruct (Nat.eq_dec v src) as [->|N]; [reflexivity|].
    destruct (FPr v Hv Hc N) as (w & _ & Wn & Wc & _ & Wd).
    destruct (FP w Wn Wc) as [W0 _]. lia.
  - assert (v <> src) as N by (intros ->; lia).
    destruct (FPr v Hv Hc N) as (w & Wp & Wn & Wc & _ & Wd).
    cbn [ancestor]. rewrite Wp. apply IH; auto. lia.
Qed.

(** C1. On a graph whose adjacency entries refer to stored nodes and whose
    node count fits an [int], [bfs] from a stored source returns, and then:
    - every node reachable from the source is black and its distance is the
      minimum number of edges of a walk from the source to it;
    - the source has no predecessor; every other reachable node has a
      reachable predecessor to which it is adjacent and which is one step
      closer, so that following predecessors from a reachable node for
      [distance] steps arrives at the source;
    - every stored node that is not reachable is white, at distance
      [INT_MAX], without predecessor. *)
Theorem bfs_shortest_paths : forall src s,
  closed s -> In src (nodes s) ->
  (Z.of_nat (length (nodes s)) <= INT_MAX)%Z ->
  exists s', bfs src s = Some s' /\
    (forall v, reachable s src v ->
       In v (nodes s) /\ get_color s' v = black /\
       (0 <= get_distance s' v)%Z /\
       hops s src v (Z.to_nat (get_distance s' v)) /\
       (forall n, hops s src v n -> Z.to_nat (get_distance s' v) <= n)) /\
    get_predecessor s' src = None /\
    (forall v, reachable s src v -> v <> src ->
       exists u, get_predecessor s' v = Some u /\ reachable s src u /\
                 In v (get_adj_list s u) /\
                 get_distance s' v = (get_distance s' u + 1)%Z) /\
    (forall v, reachable s src v ->
       ancestor s' (Z.to_nat (get_distance s' v)) v = Some src) /\
    (forall v, In v (nodes s) -> ~ reachable s src v ->
       get_color s' v = white /\ get_distance s' v = INT_MAX /\
       get_predecessor s' v = None).
Proof.
  intros src s Hc Hsrc Hsize.
  destruct (bfs_terminates src Hc Hsrc) as (s' & H & _).
  exists s'. split; [exact H|].
  pose proof (@bfs_reaches_final src s s' Hc Hsrc Hsize H) as F.
  assert (forall v, reachable s src v ->
            In v (nodes s) /\ get_color s' v <> white) as R.
  { intros v [n Hn].
    destruct (@bfs_final_lower_bound s src Hc s' n v F Hn) as (A & B & _).
    auto. }
  pose proof (@bfs_final_ancestor s src s' F) as FA.
  pose proof F as F'.
  pose proof (@bfs_final_lower_bound s src Hc s') as FL.
  destruct F as [FG FC FW FP FS FPr FB].
  split; [|split; [|split; [|split]]].
  - intros v Hr. destruct (R v Hr) as [Hv Hw].
    destruct (FP v Hv Hw) as [D0 Dp].
    split; [exact Hv|]. split.
    + pose proof (FC v Hv).
      destruct (get_color s' v); congruence.
    + split; [exact D0|]. split; [exact Dp|].
      intros n Hn.
      destruct (FL n v F' Hn) as (_ & _ & Le).
      lia.
  - apply FS.
  - intros v Hr N. destruct (R v Hr) as [Hv Hw].
    destruct (FPr v Hv Hw N) as (u & Pu & Un & Uc & Ua & Ud).
    exists u. repeat split; auto.
    destruct (FP u Un Uc) as [_ Up]. eexists; exact Up.
  - intros v Hr. destruct (R v Hr) as [Hv Hw].
    destruct (FP v Hv Hw) as [D0 _].
    apply FA; auto. lia.
  - intros v Hv Hn.
    assert (get_color s' v = white) as W.
    { destruct (get_color s' v) eqn:C; auto; exfalso; apply Hn;
        destruct (FP v Hv) as [_ Hp]; try congruence;
        eexists; exact Hp. }
    destruct (FW v Hv W). auto.
Qed.

Lemma bfs_shortest_paths_witness :
  exists s', bfs 0 star3 = Some s' /\
    (forall v, reachable star3 0 v ->
       In v (nodes star3) /\ get_color s' v = black /\
       (0 <= get_distance s' v)%Z /\
       hops star3 0 v (Z.to_nat (get_distance s' v)) /\
       (forall n, hops star3 0 v n -> Z.to_nat (get_distance s' v) <= n)) /\
    get_predecessor s' 0 = None /\
    (forall v, reachable star3 0 v -> v <> 0 ->
       exists u, get_predecessor s' v = Some u /\ reachable star3 0 u /\
                 In v (get_adj_list star3 u) /\
                 get_distance s' v = (get_distance s' u + 1)%Z) /\
    (forall v, reachable star3 0 v ->
       ancestor s' (Z.to_nat (get_distance s' v)) v = Some 0) /\
    (forall v, In v (nodes star3) -> ~ reachable star3 0 v ->
       get_color s' v = white /\ get_distance s' v = INT_MAX /\
       get_predecessor s' v = None).
Proof.
  apply (@bfs_shortest_paths 0 star3).
  - apply closedb_closed. vm_compute. reflexivity.
  - vm_compute. left. reflexivity.
  - vm_compute. discriminate.
Defined.

(* ================================================================== *)
(** * Prim: the predecessor tree is not always a minimum spanning tree *)
(* ================================================================== *)

Lemma prim_finishes_parallel : prim 0 parallel = Finished parallel_mst.
Proof.
  unfold parallel_mst. destruct (prim 0 parallel) eqn:E; try reflexivity;
    vm_compute in E; discriminate.
Qed.

Lemma prim_finishes_heavy : prim 0 heavy = Finished heavy_mst.
Proof.
  unfold heavy_mst. destruct (prim 0 heavy) eqn:E; try reflexivity;
    vm_compute in E; discriminate.
Qed.

Lemma prim_finishes_kite : prim 0 kite = Finished kite_mst.
Proof.
  unfold kite_mst. destruct (prim 0 kite) eqn:E; try reflexivity;
    vm_compute in E; discriminate.
Qed.

(** With two edges between the same two nodes, [get_edge] always finds the
    one stored first, so the lighter one is never considered. *)
Lemma prim_parallel_edges :
  prim 0 parallel = Finished parallel_mst /\
  predecessor_tree parallel_mst = [(1, mkEdge 0 1 5%Z)] /\
  spanning_treeb parallel 0 parallel_lighter_tree = true /\
  (tree_total parallel_lighter_tree < tree_total (predecessor_tree parallel_mst))%Z.
Proof.
  split; [exact prim_finishes_parallel|].
  split; [vm_compute; reflexivity|].
  split; [vm_compute; reflexivity|].
  vm_compute; reflexivity.
Qed.

(** An edge of weight [INT_MAX] is never lighter than the initial distance,
    so its far end is never reached. *)
Lemma prim_heavy_edge :
  prim 0 heavy = Finished heavy_mst /\
  edges heavy = [mkEdge 0 1 INT_MAX] /\
  get_predecessor heavy_mst 1 = None /\
  predecessor_tree heavy_mst = [].
Proof.
  split; [exact prim_finishes_heavy|].
  split; [vm_compute; reflexivity|].
  split; vm_compute; reflexivity.
Qed.

(** The frontier is keyed by distances that [prim] lowers in place.  On
    [kite], after nodes 0 and 1 are committed, node 2 (distance 3) sits
    below node 3 (distance 6) in the heap; node 3 is dequeued and committed
    next, through the edge 0-3 of weight 6, although 2-3 weighs 1. *)
Lemma prim_kite :
  prim 0 kite = Finished kite_mst /\
  pq kite_after_two = [3; 2; 4; 2] /\
  map (get_distance (st kite_after_two)) (pq kite_after_two) = [6; 3; 8; 3]%Z /\
  predecessor_tree kite_mst =
    [(1, mkEdge 0 1 5%Z); (2, mkEdge 2 3 1%Z); (3, mkEdge 0 3 6%Z);
     (4, mkEdge 1 4 8%Z)] /\
  spanning_treeb kite 0 (predecessor_tree kite_mst) = true /\
  tree_total (predecessor_tree kite_mst) = 20%Z /\
  spanning_treeb kite 0 kite_lighter_tree = true /\
  tree_total kite_lighter_tree = 17%Z.
Proof.
  split; [exact prim_finishes_kite|].
  repeat split; vm_compute; reflexivity.
Qed.

(** C2 does not hold of the code: [prim] returns, but its predecessor tree
    is heavier than another spanning tree of the same graph when two edges
    join the same pair of nodes ([parallel]) and also on a graph without
    parallel edges ([kite]); and a node reachable only through an edge of
    weight [INT_MAX] gets no predecessor at all ([heavy]). *)
Theorem prim_not_minimum :
  (prim 0 parallel = Finished parallel_mst /\
   spanning_treeb parallel 0 parallel_lighter_tree = true /\
   (tree_total parallel_lighter_tree <
    tree_total (predecessor_tree parallel_mst))%Z) /\
  (prim 0 kite = Finished kite_mst /\
   spanning_treeb kite 0 kite_lighter_tree = true /\
   (tree_total kite_lighter_tree < tree_total (predecessor_tree kite_mst))%Z) /\
  (prim 0 heavy = Finished heavy_mst /\ In 1 (nodes heavy) /\
   get_predecessor heavy_mst 1 = None).
Proof.
  split; [|split].
  - split; [exact prim_finishes_parallel|].
    split; vm_compute; reflexivity.
  - split; [exact prim_finishes_kite|].
    split; vm_compute; reflexivity.
  - split; [exact prim_finishes_heavy|].
    split; [vm_compute; right; left; reflexivity | vm_compute; reflexivity].
Qed.

(* ================================================================== *)
(** * Further properties: node lookup and insertion *)
(* ================================================================== *)

Lemma get_node_scan_some : forall s ns d p,
  get_node_scan s ns d = Some p <->
  exists before after,
    ns = before ++ p :: after /\ get_data s p = d /\
    forall q, In q before -> get_data s q <> d.
Proof.
  intros s ns d p; induction ns as [|n ns IH]; simpl.
  - split; [discriminate|]. intros ([|? ?] & ? & H & _); discriminate.
  - destruct (Z.eqb_spec (get_data s n) d) as [E|E].
    + split.
      * intros [= <-]. exists [], ns. repeat split; auto.
      * intros (before & after & H & Hp & Hb). destruct before as [|x before].
        -- simpl in H. congruence.
        -- simpl in H. injection H as <- _. exfalso.
           apply (Hb n); [now left | exact E].
    + rewrite IH. split.
      * intros (before & after & -> & Hp & Hb).
        exists (n :: before), after. repeat split; auto.
        intros q [<-|Hq]; auto.
      * intros (before & after & H & Hp & Hb). destruct before as [|x before].
        -- simpl in H. injection H as -> _. contradiction.
        -- simpl in H. injection H as <- ->.
           exists before, after. repeat split; auto.
           intros q Hq; apply Hb; now right.
Qed.

Lemma get_node_scan_app : forall s ns node d,
  get_node_scan s (ns ++ [node]) d =
  match get_node_scan s ns d with
  | Some p => Some p
  | None => if (get_data s node =? d)%Z then Some node else None
  end.
Proof.
  intros s ns node d; induction ns as [|n ns IH]; simpl; auto.
  destruct (get_data s n =? d)%Z; auto.
Qed.

Lemma get_node_fst : forall d s,
  fst (get_node d s) = get_node_scan s (nodes s) d.
Proof.
  intros d s; unfold get_node.
  destruct (get_node_scan s (nodes s) d); reflexivity.
Qed.

(** X1. [get_node(d)] returns the first stored node whose identity is [d]:
    it succeeds exactly when some stored node carries [d], the node it
    returns is the earliest such node in storage order, and a successful
    lookup writes nothing to [std::cerr]; a failed one writes exactly its
    one diagnostic line. *)
Theorem get_node_first_match : forall d s,
  (forall p, fst (get_node d s) = Some p <->
     exists before after,
       nodes s = before ++ p :: after /\ get_data s p = d /\
       forall q, In q before -> get_data s q <> d) /\
  ((exists q, In q (nodes s) /\ get_data s q = d) <->
   exists p, get_node d s = (Some p, s)) /\
  (fst (get_node d s) = None ->
   get_node d s = (None, write_cerr (get_node_error d) s)).
Proof.
  intros d s. split; [|split].
  - intros p. rewrite get_node_fst. apply get_node_scan_some.
  - unfold get_node. split.
    + intros (q & Hq & Hd).
      destruct (get_node_scan s (nodes s) d) as [p|] eqn:E; [eauto|].
      exfalso. rewrite get_node_scan_none in E. now apply (E q).
    + intros (p & H).
      destruct (get_node_scan s (nodes s) d) as [p'|] eqn:E; [|discriminate].
      apply get_node_scan_some in E as (before & after & Hn & Hd & _).
      exists p'. split; auto. rewrite Hn. apply in_or_app; right; now left.
  - unfold get_node.
    destruct (get_node_scan s (nodes s) d); [discriminate | reflexivity].
Qed.

Lemma get_node_first_match_witness :
  (exists p, get_node 2%Z star3 = (Some p, star3)) /\
  get_node 7%Z star3 = (None, write_cerr (get_node_error 7%Z) star3).
Proof.
  destruct (get_node_first_match 2%Z star3) as (_ & F & _).
  destruct (get_node_first_match 7%Z star3) as (_ & _ & N).
  split.
  - apply F. exists 2. split; vm_compute; auto.
  - apply N. vm_compute. reflexivity.
Defined.

(** X2. Lookup after [insert_node]: a lookup that succeeded before the
    insertion still returns the same node; a lookup that failed before
    returns the inserted node when it carries the identity asked for, and
    fails otherwise.  So a node inserted with an identity that is already
    stored is never found by [get_node]. *)
Theorem insert_node_lookup : forall node s d,
  fst (get_node d (insert_node node s)) =
  match fst (get_node d s) with
  | Some p => Some p
  | None => if (get_data s node =? d)%Z then Some node else None
  end.
Proof.
  intros node s d. rewrite !get_node_fst.
  change (nodes (insert_node node s)) with (nodes s ++ [node]).
  rewrite <- get_node_scan_app.
  apply get_node_scan_cells. reflexivity.
Qed.

(* ================================================================== *)
(** * Further properties: edge lookup and insertion *)
(* ================================================================== *)

Lemma get_edge_scan_app : forall es e a b,
  get_edge_scan (es ++ [e]) a b =
  match get_edge_scan es a b with
  | Some e' => Some e'
  | None => if edge_joins a b e then Some e else None
  end.
Proof.
  induction es as [|x es IH]; intros e a b; simpl; auto.
  destruct (edge_joins a b x); auto.
Qed.

(** X3. Lookup after [insert_edge]: a pair that already had a stored edge
    keeps getting that edge, so a second edge between the same two nodes is
    never returned by [get_edge]; a pair without one gets the inserted edge
    exactly when the edge joins the pair, in either orientation. *)
Theorem insert_edge_lookup : forall e s a b,
  get_edge (insert_edge e s) a b =
  match get_edge s a b with
  | Some e' => Some e'
  | None => if edge_joins a b e then Some e else None
  end.
Proof.
  intros e s a b. unfold get_edge.
  change (edges (insert_edge e s)) with (edges s ++ [e]).
  apply get_edge_scan_app.
Qed.

Lemma get_adj_list_add_adjacent : forall p a s u,
  get_adj_list (add_adjacent p a s) u =
  get_adj_list s u ++ (if Nat.eqb u p then [a] else []).
Proof.
  intros p a s u. unfold add_adjacent. rewrite get_adj_list_modify.
  destruct (Nat.eqb_spec u p) as [->|N]; simpl; [reflexivity|].
  now rewrite app_nil_r.
Qed.

Lemma insert_edge_adj_list : forall e s u,
  get_adj_list (insert_edge e s) u =
  get_adj_list s u
  ++ (if Nat.eqb u (source e) then [destination e] else [])
  ++ (if Nat.eqb u (destination e) then [source e] else []).
Proof.
  intros e s u.
  change (get_adj_list (insert_edge e s) u)
    with (get_adj_list (add_adjacent (destination e) (source e)
                          (add_adjacent (source e) (destination e) s)) u).
  rewrite !get_adj_list_add_adjacent. now rewrite <- app_assoc.
Qed.

Lemma add_adjacent_search_state : forall p a s u,
  get_data (add_adjacent p a s) u = get_data s u /\
  get_color (add_adjacent p a s) u = get_color s u /\
  get_distance (add_adjacent p a s) u = get_distance s u /\
  get_predecessor (add_adjacent p a s) u = get_predecessor s u.
Proof.
  intros p a s u.
  unfold get_data, get_color, get_distance, get_predecessor, add_adjacent.
  rewrite cells_modify.
  destruct (Nat.eqb_spec u p) as [->|N]; simpl; auto.
Qed.

Lemma insert_edge_search_state : forall e s u,
  get_data (insert_edge e s) u = get_data s u /\
  get_color (insert_edge e s) u = get_color s u /\
  get_distance (insert_edge e s) u = get_distance s u /\
  get_predecessor (insert_edge e s) u = get_predecessor s u.
Proof.
  intros e s u.
  set (s1 := add_adjacent (source e) (destination e) s).
  change (get_data (insert_edge e s) u)
    with (get_data (add_adjacent (destination e) (source e) s1) u).
  change (get_color (insert_edge e s) u)
    with (get_color (add_adjacent (destination e) (source e) s1) u).
  change (get_distance (insert_edge e s) u)
    with (get_distance (add_adjacent (destination e) (source e) s1) u).
  change (get_predecessor (insert_edge e s) u)
    with (get_predecessor (add_adjacent (destination e) (source e) s1) u).
  destruct (add_adjacent_search_state (destination e) (source e) s1 u)
    as (A & B & C & D).
  destruct (add_adjacent_search_state (source e) (destination e) s u)
    as (A' & B' & C' & D').
  fold s1 in A', B', C', D'. repeat split; congruence.
Qed.

(** X4. [insert_edge] appends the destination to the source's adjacency
    list and then the source to the destination's, so an edge from a node
    to itself adds the node twice to its own list; no other adjacency list
    changes, the stored nodes are the same, and no node's identity, colour,
    distance or predecessor changes. *)
Theorem insert_edge_adjacency : forall e s u,
  get_adj_list (insert_edge e s) u =
    get_adj_list s u
    ++ (if Nat.eqb u (source e) then [destination e] else [])
    ++ (if Nat.eqb u (destination e) then [source e] else []) /\
  nodes (insert_edge e s) = nodes s /\
  edges (insert_edge e s) = edges s ++ [e] /\
  get_data (insert_edge e s) u = get_data s u /\
  get_color (insert_edge e s) u = get_color s u /\
  get_distance (insert_edge e s) u = get_distance s u /\
  get_predecessor (insert_edge e s) u = get_predecessor s u.
Proof.
  intros e s u. split; [apply insert_edge_adj_list|].
  split; [reflexivity|]. split; [reflexivity|].
  apply insert_edge_search_state.
Qed.

(* ================================================================== *)
(** * Further properties: the two counts *)
(* ================================================================== *)

(** X5. The counts are compared as [size_t]: [insert_node] and
    [insert_edge] raise a count that is zero or positive to the new size of
    the storage when the size exceeds it, and never change a count that is
    negative. *)
Theorem counts_after_insert : forall node e s,
  (Z.of_nat (length (nodes s)) < INT_MAX)%Z ->
  (Z.of_nat (length (edges s)) < INT_MAX)%Z ->
  (- 2147483648 <= tot_nodes s <= INT_MAX)%Z ->
  (- 2147483648 <= tot_edges s <= INT_MAX)%Z ->
  tot_nodes (insert_node node s) =
    (if (tot_nodes s <? 0)%Z then tot_nodes s
     else Z.max (tot_nodes s) (Z.of_nat (length (nodes s)) + 1)) /\
  tot_edges (insert_node node s) = tot_edges s /\
  tot_edges (insert_edge e s) =
    (if (tot_edges s <? 0)%Z then tot_edges s
     else Z.max (tot_edges s) (Z.of_nat (length (edges s)) + 1)) /\
  tot_nodes (insert_edge e s) = tot_nodes s.
Proof.
  intros node e s Hn He Htn Hte. repeat split.
  - unfold insert_node; cbn [tot_nodes]. rewrite length_app; cbn [length].
    rewrite raise_count by (unfold INT_MAX in *; lia).
    replace (Z.of_nat (length (nodes s) + 1)) with
      (Z.of_nat (length (nodes s)) + 1)%Z by lia. reflexivity.
  - unfold insert_edge, add_adjacent, modify; cbn [tot_edges edges].
    rewrite length_app; cbn [length].
    rewrite raise_count by (unfold INT_MAX in *; lia).
    replace (Z.of_nat (length (edges s) + 1)) with
      (Z.of_nat (length (edges s)) + 1)%Z by lia. reflexivity.
Qed.

Lemma counts_after_insert_witness :
  tot_nodes (insert_node 9 star3) = 5%Z /\
  tot_edges (insert_edge (mkEdge 0 1 7%Z) (load (2, -1)%Z [] boot)) = (-1)%Z.
Proof.
  split.
  - destruct (counts_after_insert 9 (mkEdge 0 0 0%Z) star3) as (A & _).
    + vm_compute; reflexivity.
    + vm_compute; reflexivity.
    + split; vm_compute; discriminate.
    + split; vm_compute; discriminate.
    + rewrite A. vm_compute. reflexivity.
  - destruct (counts_after_insert 9 (mkEdge 0 1 7%Z) (load (2, -1)%Z [] boot))
      as (_ & _ & A & _).
    + vm_compute; reflexivity.
    + vm_compute; reflexivity.
    + split; vm_compute; discriminate.
    + split; vm_compute; discriminate.
    + rewrite A. vm_compute. reflexivity.
Defined.

(* ================================================================== *)
(** * Further properties: what [load] builds *)
(* ================================================================== *)

Lemma id_known_nat : forall n d,
  ((0 <=? d) && (d <? Z.of_nat (Z.to_nat n)))%Z = id_known n d.
Proof.
  intros n d; unfold id_known.
  destruct (Z.leb_spec 0 d); simpl; [|reflexivity].
  destruct (Z.ltb_spec d (Z.of_nat (Z.to_nat n))), (Z.ltb_spec d n);
    auto; lia.
Qed.

Lemma id_known_true : forall n d, id_known n d = true <-> (0 <= d < n)%Z.
Proof.
  intros; unfold id_known. rewrite andb_true_iff, Z.leb_le, Z.ltb_lt. tauto.
Qed.

Lemma line_known_ids : forall n a b w,
  line_known n (a, b, w) = id_known n a && id_known n b.
Proof.
  intros; unfold line_known, id_known. now rewrite andb_assoc.
Qed.

Lemma load_nodes_log : forall fuel i s,
  cerr (load_nodes fuel i s) = cerr s /\
  edges (load_nodes fuel i s) = edges s /\
  tot_edges (load_nodes fuel i s) = tot_edges s.
Proof.
  induction fuel as [|fuel IH]; intros i s; simpl; auto.
  destruct (i <? tot_nodes s)%Z; auto.
  destruct (IH (to_int (i + 1))
              (insert_node (brk s) (snd (alloc_node i s)))) as (A & B & C).
  unfold alloc_node in *; simpl in *. rewrite A, B, C. auto.
Qed.

Lemma get_node_log : forall base hdr s d,
  indexed base (Z.to_nat hdr) s ->
  fst (get_node d s) =
    (if id_known hdr d then Some (base + Z.to_nat d) else None) /\
  cerr (snd (get_node d s)) =
    cerr s ++ (if id_known hdr d then [] else [get_node_error d]) /\
  same_store s (snd (get_node d s)).
Proof.
  intros base hdr s d H.
  rewrite (@get_node_indexed base _ s d H), id_known_nat.
  destruct (id_known hdr d); simpl.
  - rewrite app_nil_r. repeat split; auto.
  - repeat split; auto.
Qed.

Lemma insert_edge_log : forall e s,
  cerr (insert_edge e s) = cerr s /\ tot_nodes (insert_edge e s) = tot_nodes s.
Proof. intros; split; reflexivity. Qed.

Lemma load_line_log : forall base hdr line s,
  indexed base (Z.to_nat hdr) s ->
  cerr (load_line line s) = cerr s ++ line_errors hdr line /\
  tot_nodes (load_line line s) = tot_nodes s.
Proof.
  intros base hdr [[a b] w] s H. unfold load_line, line_errors.
  destruct (@get_node_log base hdr s a H) as (Fa & Ca & Sa).
  destruct (get_node a s) as [oa s1]; simpl in Fa, Ca, Sa.
  assert (indexed base (Z.to_nat hdr) s1) as H1
    by (eapply indexed_same_store; eauto).
  destruct (@get_node_log base hdr s1 b H1) as (Fb & Cb & Sb).
  destruct (get_node b s1) as [ob s2]; simpl in Fb, Cb, Sb.
  assert (tot_nodes s2 = tot_nodes s) as T.
  { destruct Sa as (_ & _ & _ & _ & Ta & _), Sb as (_ & _ & _ & _ & Tb & _).
    congruence. }
  assert (cerr s2 = cerr s
            ++ (if id_known hdr a then [] else [get_node_error a])
            ++ (if id_known hdr b then [] else [get_node_error b])) as C
    by (rewrite Cb, Ca, <- app_assoc; reflexivity).
  destruct oa, ob; auto.
Qed.

Lemma load_lines_log : forall base hdr lines s,
  indexed base (Z.to_nat hdr) s ->
  cerr (load_lines lines s) = cerr s ++ flat_map (line_errors hdr) lines /\
  tot_nodes (load_lines lines s) = tot_nodes s.
Proof.
  intros base hdr; induction lines as [|l lines IH]; intros s H; simpl.
  - now rewrite app_nil_r.
  - destruct (@load_line_indexed base _ hdr l s H eq_refl) as [H1 _].
    destruct (@load_line_log base hdr l s H) as [C1 T1].
    destruct (IH _ H1) as [C2 T2].
    rewrite C2, C1, T2, T1, <- app_assoc. auto.
Qed.

(** X6. After [load] with a header declaring [n] nodes, the stored nodes
    are [n] fresh objects in a row, [tot_nodes] is [n], and [get_node d]
    finds a node exactly for the ids [0 <= d < n]: the one allocated [d]-th,
    whose identity is [d]. *)
Theorem load_get_node : forall header lines s,
  (fst header <= INT_MAX)%Z ->
  let g := load header lines s in
  nodes g = seq (brk s) (Z.to_nat (fst header)) /\
  tot_nodes g = fst header /\
  (forall d, fst (get_node d g) =
     if id_known (fst header) d then Some (brk s + Z.to_nat d) else None) /\
  (forall d, id_known (fst header) d = true ->
     get_data g (brk s + Z.to_nat d) = d).
Proof.
  intros header lines s Hmax g; unfold g, load.
  destruct (load_nodes_header_indexed header s Hmax) as (I & _ & _ & T).
  set (s2 := load_nodes _ _ _) in *. clearbody s2.
  destruct (@load_lines_indexed (brk s) _ (fst header) lines s2 I eq_refl)
    as [I2 _].
  destruct (@load_lines_log (brk s) (fst header) lines s2 I) as [_ T2].
  split; [apply I2|]. split; [congruence|]. split.
  - intros d. apply (@get_node_log (brk s) (fst header) _ d I2).
  - intros d Hd. apply id_known_true in Hd.
    destruct I2 as [_ D]. rewrite D by lia. lia.
Qed.

Lemma load_get_node_witness :
  fst (get_node 2 (load (4, 3)%Z [(0, 1, 1); (0, 2, 1); (0, 3, 1)]%Z boot))
    = Some 2 /\
  fst (get_node 4 (load (4, 3)%Z [(0, 1, 1); (0, 2, 1); (0, 3, 1)]%Z boot))
    = None.
Proof.
  destruct (load_get_node (4, 3)%Z [(0, 1, 1); (0, 2, 1); (0, 3, 1)]%Z boot)
    as (_ & _ & G & _).
  - vm_compute; discriminate.
  - split; rewrite G; reflexivity.
Defined.

(** X7. [load] writes one diagnostic for every id of an edge line that is
    not a declared node, in the order of the file and source before
    destination, and nothing else. *)
Theorem load_diagnostics : forall header lines s,
  (fst header <= INT_MAX)%Z ->
  cerr (load header lines s) =
  cerr s ++ flat_map (line_errors (fst header)) lines.
Proof.
  intros header lines s Hmax; unfold load.
  destruct (load_nodes_header_indexed header s Hmax) as (I & _).
  destruct (@load_lines_log (brk s) (fst header) lines _ I) as [C _]. rewrite C.
  destruct (load_nodes_log (Z.to_nat (tot_nodes (load_header header s))) 0
              (load_header header s)) as (-> & _). reflexivity.
Qed.

Lemma load_diagnostics_witness :
  cerr (load (2, 2)%Z [(0, 1, 4); (7, -1, 5)]%Z boot) =
  ["[get_node ERROR] => Node (7) not found"%string;
   "[get_node ERROR] => Node (-1) not found"%string].
Proof.
  rewrite load_diagnostics.
  - vm_compute. reflexivity.
  - vm_compute; discriminate.
Defined.

Lemma get_edge_scan_lines : forall base n a b lines,
  id_known n a = true -> id_known n b = true ->
  get_edge_scan (map (line_edge base) (filter (line_known n) lines))
                (base + Z.to_nat a) (base + Z.to_nat b) =
  option_map (line_edge base)
    (find (fun l => line_known n l && line_joins a b l) lines).
Proof.
  intros base n a b lines Ha Hb.
  apply id_known_true in Ha. apply id_known_true in Hb.
  induction lines as [|[[x y] w] lines IH]; [reflexivity|].
  cbn [filter find].
  destruct (line_known n (x, y, w)) eqn:K;
    cbn [map andb get_edge_scan]; [|exact IH].
  apply line_known_true in K.
  assert (edge_joins (base + Z.to_nat a) (base + Z.to_nat b)
            (line_edge base (x, y, w)) = line_joins a b (x, y, w)) as ->.
  { unfold edge_joins, line_joins, line_edge; cbn [source destination].
    destruct (Z.eqb_spec x a), (Z.eqb_spec y b), (Z.eqb_spec x b),
      (Z.eqb_spec y a),
      (Nat.eqb_spec (base + Z.to_nat x) (base + Z.to_nat a)),
      (Nat.eqb_spec (base + Z.to_nat y) (base + Z.to_nat b)),
      (Nat.eqb_spec (base + Z.to_nat x) (base + Z.to_nat b)),
      (Nat.eqb_spec (base + Z.to_nat y) (base + Z.to_nat a));
      cbn [andb orb]; auto; lia. }
  destruct (line_joins a b (x, y, w)); [reflexivity | exact IH].
Qed.

(** X8. On a loaded graph, [get_edge] for the nodes of two declared ids
    gives the edge of the first line of the file that names the two ids, in
    either order, and nothing when no line does: of parallel edges the
    earliest one is found. *)
Theorem load_get_edge : forall header lines s a b,
  (fst header <= INT_MAX)%Z ->
  id_known (fst header) a = true -> id_known (fst header) b = true ->
  get_edge (load header lines s) (brk s + Z.to_nat a) (brk s + Z.to_nat b) =
  option_map (line_edge (brk s))
    (find (fun l => line_known (fst header) l && line_joins a b l) lines).
Proof.
  intros header lines s a b Hmax Ha Hb. unfold get_edge.
  rewrite load_edges by exact Hmax. now apply get_edge_scan_lines.
Qed.

Lemma load_get_edge_witness :
  get_edge (load (2, 2)%Z [(0, 1, 5); (1, 0, 1)]%Z boot) 1 0 =
  Some (mkEdge 0 1 5%Z).
Proof.
  apply (load_get_edge (2, 2)%Z [(0, 1, 5); (1, 0, 1)]%Z boot 1%Z 0%Z).
  - vm_compute; discriminate.
  - reflexivity.
  - reflexivity.
Defined.

Lemma edges_between_sym : forall s u v,
  edges_between s u v = edges_between s v u.
Proof.
  intros; unfold edges_between. f_equal.
  apply filter_ext. intros e. apply edge_joins_sym.
Qed.

Lemma edges_between_insert_edge : forall e s u v,
  edges_between (insert_edge e s) u v =
  edges_between s u v + (if edge_joins u v e then 1 else 0).
Proof.
  intros e s u v. unfold edges_between.
  change (edges (insert_edge e s)) with (edges s ++ [e]).
  rewrite filter_app, length_app. simpl.
  destruct (edge_joins u v e); reflexivity.
Qed.

Lemma insert_edge_adjacency_counted : forall e s,
  adjacency_counted s -> adjacency_counted (insert_edge e s).
Proof.
  intros e s H u v Hu.
  change (nodes (insert_edge e s)) with (nodes s) in Hu.
  rewrite insert_edge_adj_list, edges_between_insert_edge, !count_occ_app.
  pose proof (H u v Hu) as Q. unfold ptr in *. rewrite Q.
  unfold edge_joins.
  destruct (Nat.eqb_spec u (source e)), (Nat.eqb_spec u (destination e)),
    (Nat.eqb_spec (source e) u), (Nat.eqb_spec (destination e) u),
    (Nat.eqb_spec (source e) v), (Nat.eqb_spec (destination e) v),
    (Nat.eqb_spec u v); simpl;
    repeat match goal with
           | |- context [Nat.eq_dec ?a ?b] => destruct (Nat.eq_dec a b)
           end; simpl; try congruence; lia.
Qed.

Lemma same_store_adjacency_counted : forall s s',
  same_store s s' -> adjacency_counted s -> adjacency_counted s'.
Proof.
  intros s s' (C & _ & N & E & _) H u v Hu.
  unfold adjacency_counted, get_adj_list, edges_between in *.
  rewrite C, E. apply H. now rewrite <- N.
Qed.

Lemma load_line_adjacency_counted : forall line s,
  adjacency_counted s -> adjacency_counted (load_line line s).
Proof.
  intros [[a b] w] s H. unfold load_line.
  pose proof (get_node_same_store a s) as Sa.
  destruct (get_node a s) as [oa s1]; simpl in Sa.
  pose proof (get_node_same_store b s1) as Sb.
  destruct (get_node b s1) as [ob s2]; simpl in Sb.
  assert (adjacency_counted s2) as H2
    by (eapply same_store_adjacency_counted; [exact Sb|];
        eapply same_store_adjacency_counted; eauto).
  destruct oa, ob; auto. now apply insert_edge_adjacency_counted.
Qed.

Lemma load_lines_adjacency_counted : forall lines s,
  adjacency_counted s -> adjacency_counted (load_lines lines s).
Proof.
  induction lines as [|l lines IH]; intros s H; simpl; auto.
  apply IH, load_line_adjacency_counted, H.
Qed.

Lemma load_adjacency_counted : forall header lines s,
  adjacency_counted (load header lines s).
Proof.
  intros header lines s; unfold load.
  apply load_lines_adjacency_counted. intros u v Hu.
  rewrite load_nodes_no_adjacency; [ | intros x [] | exact Hu].
  unfold edges_between.
  destruct (load_nodes_log (Z.to_nat (tot_nodes (load_header header s))) 0
              (load_header header s)) as (_ & -> & _).
  simpl. lia.
Qed.

(** X9. In a loaded graph the adjacency lists mirror the stored edges: a
    stored node [u] lists [v] once for every stored edge joining the two, a
    self-loop counting twice; hence two stored nodes list each other equally
    often. *)
Theorem load_adjacency : forall header lines s u v,
  let g := load header lines s in
  In u (nodes g) ->
  count_occ Nat.eq_dec (get_adj_list g u) v =
    (if Nat.eqb u v then 2 else 1) * edges_between g u v /\
  (In v (nodes g) ->
   count_occ Nat.eq_dec (get_adj_list g v) u =
   count_occ Nat.eq_dec (get_adj_list g u) v).
Proof.
  intros header lines s u v g Hu.
  pose proof (load_adjacency_counted header lines s) as H. fold g in H.
  split; [now apply H|].
  intros Hv. rewrite (H u v Hu), (H v u Hv), edges_between_sym.
  destruct (Nat.eqb_spec u v), (Nat.eqb_spec v u); congruence.
Qed.

Lemma load_adjacency_witness :
  count_occ Nat.eq_dec (get_adj_list parallel 0) 1 = 2.
Proof.
  destruct (load_adjacency (2, 2)%Z [(0, 1, 5); (0, 1, 1)]%Z boot 0 1)
    as [A _].
  - vm_compute. left; reflexivity.
  - unfold parallel. rewrite A. vm_compute. reflexivity.
Defined.

(* ================================================================== *)
(** * Further properties: the shape classifiers *)
(* ================================================================== *)

Lemma children_of_no_predecessor : forall s node,
  get_predecessor s node = None -> children_of s node = get_adj_list s node.
Proof.
  intros s node H. unfold children_of.
  rewrite <- (filter_ext (fun _ => true)).
  - induction (get_adj_list s node) as [|a l IH]; simpl; congruence.
  - intros a. unfold is_child. now rewrite H.
Qed.

(** X10. A null predecessor excludes nothing: on a graph in which no stored
    node has a predecessor, every adjacency entry counts as a child, so
    [is_binary] returns true iff no stored node has more than two adjacency
    entries, and [is_complete_binary] returns true iff no stored node has
    exactly one. *)
Theorem classifiers_without_predecessor : forall s,
  (forall node, In node (nodes s) -> get_predecessor s node = None) ->
  (forall node, In node (nodes s) ->
     (Z.of_nat (length (get_adj_list s node)) <= INT_MAX)%Z) ->
  (fst (is_binary s) = true <->
     forall node, In node (nodes s) -> length (get_adj_list s node) <= 2) /\
  (fst (is_complete_binary s) = true <->
     forall node, In node (nodes s) -> length (get_adj_list s node) <> 1).
Proof.
  intros s Hpred Hlen.
  assert (forall node, In node (nodes s) ->
            children_of s node = get_adj_list s node) as C
    by (intros node Hin; now apply children_of_no_predecessor, Hpred).
  unfold is_binary, is_complete_binary.
  rewrite (is_binary_scan_true s (nodes s) Hlen), is_complete_binary_scan_true.
  split; split; intros H node Hin; specialize (H node Hin);
    rewrite C in * by exact Hin; exact H.
Qed.

(** After [prim 0] on [heavy] neither node has a predecessor, and each has
    one adjacency entry. *)
Lemma classifiers_without_predecessor_witness :
  (fst (is_binary heavy_mst) = true <->
     forall node, In node (nodes heavy_mst) ->
       length (get_adj_list heavy_mst node) <= 2) /\
  (fst (is_complete_binary heavy_mst) = true <->
     forall node, In node (nodes heavy_mst) ->
       length (get_adj_list heavy_mst node) <> 1).
Proof.
  apply (classifiers_without_predecessor heavy_mst).
  - intros node Hin. vm_compute in Hin.
    repeat (destruct Hin as [<-|Hin]; [vm_compute; reflexivity|]).
    destruct Hin.
  - intros node Hin. vm_compute in Hin.
    repeat (destruct Hin as [<-|Hin]; [vm_compute; discriminate|]).
    destruct Hin.
Defined.

(** X11. The two classifiers together: [is_binary] and [is_complete_binary]
    both return true iff every stored node has no child or exactly two
    children, the number of children being [child_count]: the entries of
    the adjacency list less the occurrences of the predecessor. *)
Theorem classifiers_together : forall s,
  (forall node, In node (nodes s) ->
     (Z.of_nat (length (get_adj_list s node)) <= INT_MAX)%Z) ->
  (fst (is_binary s) && fst (is_complete_binary s) = true <->
   forall node, In node (nodes s) ->
     child_count s node = 0 \/ child_count s node = 2).
Proof.
  intros s Hlen. unfold is_binary, is_complete_binary.
  rewrite andb_true_iff, (is_binary_scan_true s (nodes s) Hlen),
    is_complete_binary_scan_true.
  split.
  - intros [B C] node Hin. specialize (B node Hin). specialize (C node Hin).
    rewrite children_of_count in *. lia.
  - intros H; split; intros node Hin; specialize (H node Hin);
      rewrite children_of_count; lia.
Qed.

(** On the searched seven-node tree both classifiers return true: the root
    and the nodes 1 and 2 have two children each, the predecessor of 1 and
    of 2 not being counted, and the leaves have none. *)
Lemma classifiers_together_witness :
  fst (is_binary tree7_searched) && fst (is_complete_binary tree7_searched)
    = true /\
  length (get_adj_list tree7_searched 2) = 3 /\
  child_count tree7_searched 2 = 2.
Proof.
  split; [|split; vm_compute; reflexivity].
  apply (classifiers_together tree7_searched).
  - intros node Hin. vm_compute in Hin.
    repeat (destruct Hin as [<-|Hin]; [vm_compute; discriminate|]).
    destruct Hin.
  - intros node Hin. vm_compute in Hin.
    repeat (destruct Hin as [<-|Hin];
            [vm_compute; (now left) || (now right)|]).
    destruct Hin.
Defined.

(* ================================================================== *)
(** * The priority queue: nothing is lost, nothing is duplicated *)
(* ================================================================== *)

Section HeapCounts.
Variable comp : ptr -> ptr -> bool.
Variable y : nat.

Local Abbreviation occ l := (count_occ Nat.eq_dec (l : list nat) y).

Local Ltac plia := unfold ptr in *; lia.

Lemma count_assign : forall (c : list nat) i x,
  i < length c ->
  occ (assign c i x) + occ [nth i c 0] = occ c + occ [x].
Proof.
  induction c as [|h t IH]; intros [|i] x Hi; simpl in Hi; try lia.
  - simpl. destruct (Nat.eq_dec h y), (Nat.eq_dec x y); lia.
  - cbn [assign nth]. specialize (IH i x ltac:(lia)).
    change (h :: assign t i x) with ([h] ++ assign t i x).
    change (h :: t) with ([h] ++ t).
    rewrite !count_occ_app. lia.
Qed.

Lemma nth_assign_other : forall (c : list nat) i j x,
  i <> j -> nth j (assign c i x) 0 = nth j c 0.
Proof.
  induction c as [|h t IH]; intros [|i] [|j] x N; simpl; auto; try lia.
Qed.

Lemma nth_assign_same : forall (c : list nat) i x,
  i < length c -> nth i (assign c i x) 0 = x.
Proof.
  induction c as [|h t IH]; intros [|i] x Hi; simpl in *; auto; try lia.
  apply IH; lia.
Qed.

Lemma nth_assign_id : forall (c : list nat) i j,
  nth j (assign c i (nth j c 0)) 0 = nth j c 0.
Proof.
  induction c as [|h t IH]; intros [|i] [|j]; simpl; auto.
Qed.

Lemma count_push_heap_aux : forall fuel c hole top value,
  hole < length c ->
  occ (push_heap_aux fuel comp c hole top value) + occ [nth hole c 0] =
  occ c + occ [value].
Proof.
  induction fuel as [|fuel IH]; intros c hole top value Hh;
    cbn [push_heap_aux].
  - now apply count_assign.
  - destruct ((top <? hole) && comp (nth ((hole - 1) / 2) c 0) value).
    + pose proof (half_le (hole - 1)) as D.
      specialize (IH (assign c hole (nth ((hole - 1) / 2) c 0))
                     ((hole - 1) / 2) top value).
      rewrite length_assign, nth_assign_id in IH.
      pose proof (@count_assign c hole (nth ((hole - 1) / 2) c 0) Hh).
      specialize (IH ltac:(plia)). plia.
    + now apply count_assign.
Qed.

Lemma nth_push_heap_aux_above : forall fuel c hole top value j,
  hole < j -> nth j (push_heap_aux fuel comp c hole top value) 0 = nth j c 0.
Proof.
  induction fuel as [|fuel IH]; intros c hole top value j Hj;
    cbn [push_heap_aux].
  - apply nth_assign_other; plia.
  - destruct ((top <? hole) && comp (nth ((hole - 1) / 2) c 0) value).
    + pose proof (half_le (hole - 1)) as D.
      rewrite IH by plia. apply nth_assign_other; plia.
    + apply nth_assign_other; plia.
Qed.

Lemma count_pq_push : forall x c,
  occ (pq_push comp x c) = occ c + occ [x].
Proof.
  intros x c; unfold pq_push, push_heap.
  rewrite length_app; cbn [length]. rewrite Nat.add_1_r. cbv iota beta.
  pose proof (@count_push_heap_aux (length c) (c ++ [x]) (length c) 0
                (nth (length c) (c ++ [x]) 0)) as H.
  rewrite length_app in H; cbn [length] in H. specialize (H ltac:(plia)).
  rewrite count_occ_app in H. plia.
Qed.

Lemma count_adjust_heap_down : forall fuel c hole child len,
  hole < len -> len <= length c ->
  let '(c1, hole1, child1) := adjust_heap_down fuel comp c hole child len in
  hole1 < len /\ length c1 = length c /\
  occ c1 + occ [nth hole c 0] = occ c + occ [nth hole1 c1 0] /\
  forall j, len <= j -> nth j c1 0 = nth j c 0.
Proof.
  induction fuel as [|fuel IH]; intros c hole child len Hh Hl;
    cbn [adjust_heap_down]; auto.
  destruct (Nat.ltb_spec child ((len - 1) / 2)) as [L|L]; auto.
  pose proof (Nat.Div0.mul_div_le (len - 1) 2) as D.
  set (k := if comp (nth (2 * (child + 1)) c 0) (nth (2 * (child + 1) - 1) c 0)
            then 2 * (child + 1) - 1 else 2 * (child + 1)).
  assert (k < len) as Hk by (unfold k; destruct (comp _ _); plia).
  specialize (IH (assign c hole (nth k c 0)) k k len).
  destruct (adjust_heap_down fuel comp (assign c hole (nth k c 0)) k k len)
    as [[c1 hole1] child1].
  rewrite length_assign, nth_assign_id in IH.
  destruct IH as (A & B & C & E); auto.
  pose proof (@count_assign c hole (nth k c 0) ltac:(plia)).
  repeat split; auto; try plia.
  intros j Hj. rewrite E by exact Hj. apply nth_assign_other; plia.
Qed.

Lemma count_adjust_heap : forall c len value,
  0 < len <= length c ->
  occ (adjust_heap comp c 0 len value) + occ [nth 0 c 0] =
    occ c + occ [value] /\
  forall j, len <= j -> nth j (adjust_heap comp c 0 len value) 0 = nth j c 0.
Proof.
  intros c len value Hl; unfold adjust_heap.
  pose proof (@count_adjust_heap_down len c 0 0 len) as D.
  destruct (adjust_heap_down len comp c 0 0 len) as [[c1 hole1] child1].
  destruct D as (H1 & L1 & C1 & N1); try plia.
  destruct (Nat.even len && Nat.eqb child1 ((len - 2) / 2)) eqn:E.
  - apply andb_true_iff in E as [Ev E]. apply Nat.eqb_eq in E.
    assert (2 <= len) as L2
      by (destruct len as [|[|len']]; [plia | discriminate | plia]).
    pose proof (Nat.Div0.mul_div_le (len - 2) 2) as D.
    set (k := 2 * (child1 + 1) - 1) in *.
    assert (k < len) as Hk by (unfold k; plia).
    pose proof (@count_push_heap_aux k (assign c1 hole1 (nth k c1 0)) k 0 value)
      as P.
    rewrite length_assign, nth_assign_id in P. specialize (P ltac:(plia)).
    pose proof (@count_assign c1 hole1 (nth k c1 0) ltac:(plia)).
    split; [plia|].
    intros j Hj. rewrite nth_push_heap_aux_above by plia.
    rewrite nth_assign_other by plia. now apply N1.
  - pose proof (@count_push_heap_aux hole1 c1 hole1 0 value ltac:(plia)).
    split; [plia|].
    intros j Hj. rewrite nth_push_heap_aux_above by plia. now apply N1.
Qed.

Lemma count_pop_heap : forall c,
  occ (pop_heap comp c) = occ c /\
  nth (length c - 1) (pop_heap comp c) 0 = nth 0 c 0.
Proof.
  intros c; unfold pop_heap.
  destruct (Nat.ltb_spec 1 (length c)) as [L|L].
  - destruct (@count_adjust_heap (assign c (length c - 1) (nth 0 c 0))
                (length c - 1) (nth (length c - 1) c 0)) as [A B].
    + rewrite length_assign; plia.
    + rewrite nth_assign_other in A by plia.
      pose proof (@count_assign c (length c - 1) (nth 0 c 0) ltac:(plia)).
      split; [plia|].
      rewrite B by plia. apply nth_assign_same; plia.
  - split; [reflexivity|]. f_equal. plia.
Qed.

Lemma count_removelast : forall (l : list nat),
  l <> [] -> occ (removelast l) + occ [nth (length l - 1) l 0] = occ l.
Proof.
  induction l as [|a [|b l] IH]; intros N; [congruence | simpl; plia |].
  specialize (IH ltac:(discriminate)).
  change (removelast (a :: b :: l)) with ([a] ++ removelast (b :: l)).
  change (a :: b :: l) with ([a] ++ b :: l) at 3.
  rewrite !count_occ_app.
  replace (nth (length (a :: b :: l) - 1) (a :: b :: l) 0)
    with (nth (length (b :: l) - 1) (b :: l) 0).
  - plia.
  - cbn [length]. rewrite !Nat.sub_succ, !Nat.sub_0_r. reflexivity.
Qed.

Lemma count_pq_pop : forall c,
  c <> [] -> occ (pq_pop comp c) + occ [nth 0 c 0] = occ c.
Proof.
  intros c N; unfold pq_pop.
  destruct (count_pop_heap c) as [A B].
  assert (length (pop_heap comp c) = length c) as L.
  { destruct (@pop_heap_spec (fun _ => True) comp c) as [L _]; auto.
    apply Forall_forall; auto. }
  assert (pop_heap comp c <> []) as N'.
  { intros E. rewrite E in L. destruct c; [congruence | discriminate]. }
  pose proof (count_removelast N') as R. unfold ptr in *.
  rewrite L, B in R. lia.
Qed.
End HeapCounts.

Lemma In_pq_push : forall comp x c v,
  In v (pq_push comp x c) <-> v = x \/ In v c.
Proof.
  intros comp x c v.
  rewrite (count_occ_In Nat.eq_dec (pq_push comp x c) v), count_pq_push,
    (count_occ_In Nat.eq_dec c v).
  simpl. destruct (Nat.eq_dec x v); split; intros H; try lia; auto.
Qed.

Lemma In_pq_pop : forall comp node rest v,
  v <> node -> In v (node :: rest) -> In v (pq_pop comp (node :: rest)).
Proof.
  intros comp node rest v N H.
  apply (count_occ_In Nat.eq_dec) in H.
  apply (count_occ_In Nat.eq_dec).
  pose proof (@count_pq_pop comp v (node :: rest) ltac:(discriminate)) as C.
  cbn [nth] in C. simpl in C. simpl in H.
  destruct (Nat.eq_dec node v); [congruence|]. simpl. lia.
Qed.

(* ================================================================== *)
(** * Further properties: the tree [prim] builds *)
(* ================================================================== *)

Lemma stored_backedb_backed : forall s, stored_backedb s = true -> stored_backed s.
Proof.
  intros s H u v Hu Hv. unfold stored_backedb in H.
  rewrite forallb_forall in H. specialize (H u Hu).
  rewrite forallb_forall in H. specialize (H v Hv).
  destruct (get_edge s u v); [discriminate | discriminate].
Qed.

Lemma adjacency_counted_backed : forall s, adjacency_counted s -> stored_backed s.
Proof.
  intros s H u v Hu Hv.
  apply (count_occ_In Nat.eq_dec) in Hv.
  pose proof (H u v Hu) as C. unfold ptr in *. rewrite C in Hv.
  assert (edges_between s u v <> 0) as N
    by (destruct (Nat.eqb u v); lia).
  unfold edges_between in N. unfold get_edge.
  induction (edges s) as [|e es IH]; simpl in *; [congruence|].
  destruct (edge_joins u v e); [discriminate | auto].
Qed.

Lemma load_stored_backed : forall header lines s,
  stored_backed (load header lines s).
Proof. intros; apply adjacency_counted_backed, load_adjacency_counted. Qed.

Lemma get_predecessor_relax_write : forall adj node w s v,
  get_predecessor (set_distance adj w (set_predecessor adj node s)) v =
  if Nat.eqb v adj then node else get_predecessor s v.
Proof.
  intros; unfold get_predecessor, set_distance, set_predecessor.
  rewrite !cells_modify.
  destruct (Nat.eqb_spec v adj) as [->|N]; [|reflexivity].
  rewrite Nat.eqb_refl. reflexivity.
Qed.

Lemma In_set_insert : forall v x l, In v (set_insert x l) <-> v = x \/ In v l.
Proof.
  intros v x l. rewrite <- !set_find_true. apply set_find_insert.
Qed.

Lemma prim_relax_defined : forall node adjs p,
  (forall v, In v adjs -> get_edge (st p) node v <> None) ->
  prim_relax node adjs p <> None.
Proof.
  induction adjs as [|adj adjs IH]; intros p B; simpl; [discriminate|].
  assert (get_edge (st p) node adj <> None) as E by (apply B; now left).
  destruct (get_edge (st p) node adj) as [e|]; [|congruence].
  assert (forall v, In v adjs -> get_edge (st p) node v <> None) as B'
    by (intros; apply B; now right).
  destruct (negb (set_find adj (in_mst p))); [destruct (_ >? _)%Z|];
    apply IH; simpl; auto.
Qed.

Lemma ancestor_committed : forall s s' src (M : list ptr),
  (forall v, In v M -> get_predecessor s' v = get_predecessor s v) ->
  (forall v, In v M -> v <> src ->
     exists u, get_predecessor s v = Some u /\ In u M) ->
  get_predecessor s src = None ->
  forall n v, In v M -> ancestor s n v = Some src -> ancestor s' n v = Some src.
Proof.
  intros s s' src M Same Up Root; induction n as [|n IH]; intros v Hv H;
    simpl in *; auto.
  rewrite (Same v Hv).
  destruct (get_predecessor s v) as [u|] eqn:E; [|discriminate].
  apply IH; auto.
  destruct (Nat.eq_dec v src) as [->|N]; [congruence|].
  destruct (Up v Hv N) as (u' & Eu & Hu). congruence.
Qed.

Section PrimTree.
Variable s0 : State.
Variable src : ptr.
Hypothesis Hclosed : closed s0.

Lemma tree_inv_lookups : forall p l,
  prim_tree_inv s0 src p ->
  prim_tree_inv s0 src (mkPrim (st p) (pq p) (in_mst p) l).
Proof. intros p l [G St R F C T Q ND]; constructor; auto. Qed.

Lemma tree_inv_parent : forall p v,
  prim_tree_inv s0 src p -> In v (in_mst p) -> v <> src ->
  exists u, get_predecessor (st p) v = Some u /\ In u (in_mst p).
Proof.
  intros p v [G St R F C T Q ND] Hv N.
  destruct (C v Hv) as (Hn & _ & n & _ & A).
  destruct (T v Hn N) as [[P _]|(u & e & P & Hu & _)]; [|eauto].
  destruct n as [|n]; simpl in A; [congruence|].
  rewrite P in A. discriminate.
Qed.

Lemma tree_inv_write : forall p node adj e l comp,
  prim_tree_inv s0 src p ->
  In node (in_mst p) -> In src (in_mst p) -> ~ In adj (in_mst p) ->
  In adj (nodes s0) -> In adj (get_adj_list s0 node) ->
  get_edge (st p) node adj = Some e ->
  (weight e < get_distance (st p) adj)%Z ->
  prim_tree_inv s0 src
    (mkPrim (set_distance adj (weight e)
               (set_predecessor adj (Some node) (st p)))
            (pq_push comp adj (pq p)) (in_mst p) l).
Proof.
  intros p node adj e l comp I Hnode Hsrc Hadj Hstored Hnb He Hlt.
  pose proof (fun v => @tree_inv_parent p v I) as Up.
  destruct I as [G St R F C T Q ND].
  assert (adj <> src) as Ns by congruence.
  constructor; cbn [st pq in_mst].
  - eapply same_graph_trans; [exact G | apply same_graph_relax_write].
  - now right.
  - rewrite get_distance_relax_write, get_predecessor_relax_write.
    destruct (Nat.eqb_spec src adj); [congruence | exact R].
  - apply Forall_pq_push.
    + eapply Forall_impl; [|exact F]. intros v [Hv Pv]. split; auto.
      destruct Pv as [->|Pv]; [now left | right].
      rewrite get_predecessor_relax_write.
      destruct (Nat.eqb v adj); [discriminate | exact Pv].
    + split; auto. right. rewrite get_predecessor_relax_write, Nat.eqb_refl.
      discriminate.
  - intros v Hv. destruct (C v Hv) as (Hn & Hr & n & Ln & A).
    split; [exact Hn|]. split; [exact Hr|]. exists n. split; [exact Ln|].
    apply (@ancestor_committed (st p) _ src (in_mst p)); auto.
    + intros x Hx. rewrite get_predecessor_relax_write.
      destruct (Nat.eqb_spec x adj); [congruence | reflexivity].
    + apply R.
  - intros v Hv N.
    rewrite get_distance_relax_write, get_predecessor_relax_write.
    destruct (Nat.eqb_spec v adj) as [->|Nv].
    + right. exists node, e. repeat split; auto.
      * now rewrite <- (same_graph_get_edge _ _ G).
      * destruct (T adj Hstored Ns) as [[_ D]|(u' & e' & _ & _ & _ & _ & D & W)];
          lia.
    + apply T; auto.
  - intros v Hv P. rewrite get_predecessor_relax_write in P.
    destruct (Nat.eqb_spec v adj) as [->|Nv].
    + right. apply In_pq_push. now left.
    + destruct (Q v Hv P) as [?|?]; [now left | right].
      apply In_pq_push. now right.
  - exact ND.
Qed.

Lemma tree_inv_relax : forall node adjs p p',
  prim_relax node adjs p = Some p' ->
  (forall v, In v adjs -> In v (nodes s0) /\ In v (get_adj_list s0 node)) ->
  In node (in_mst p) -> In src (in_mst p) ->
  prim_tree_inv s0 src p -> prim_tree_inv s0 src p'.
Proof.
  intros node; induction adjs as [|adj adjs IH]; intros p p' H Hsub Hn Hs I;
    simpl in H.
  - now injection H as <-.
  - assert (forall v, In v adjs ->
              In v (nodes s0) /\ In v (get_adj_list s0 node)) as Hsub'
      by (intros; apply Hsub; now right).
    destruct (Hsub adj (or_introl eq_refl)) as [Hstored Hnb].
    destruct (set_find adj (in_mst p)) eqn:Fd; simpl in H.
    + eapply IH; [exact H | | | |]; auto. now apply tree_inv_lookups.
    + destruct (get_edge (st p) node adj) as [e|] eqn:Ge; [|discriminate].
      destruct (Z.gtb_spec (get_distance (st p) adj) (weight e)) as [Gt|Le].
      * eapply IH; [exact H | | | |]; auto.
        apply tree_inv_write; auto.
        intros Hin. apply set_find_true in Hin. congruence.
      * eapply IH; [exact H | | | |]; auto. now apply tree_inv_lookups.
Qed.

Lemma tree_inv_pop : forall p node rest comp,
  prim_tree_inv s0 src p -> pq p = node :: rest ->
  prim_tree_inv s0 src
    (mkPrim (st p) (pq_pop comp (pq p)) (set_insert node (in_mst p))
            (lookups p)) /\
  In node (nodes s0) /\ In src (set_insert node (in_mst p)).
Proof.
  intros p node rest comp I Eq.
  destruct I as [G St R F C T Q ND].
  assert (In node (nodes s0) /\
          (node = src \/ get_predecessor (st p) node <> None)) as [Hn Pn]
    by (rewrite Eq in F; now inversion F).
  assert (In src (set_insert node (in_mst p))) as Hsrc.
  { apply In_set_insert. destruct St as [[_ E]|St]; [|now right].
    rewrite Eq in E. injection E as -> _. now left. }
  split; [|split; auto].
  constructor; cbn [st pq in_mst].
  - exact G.
  - now right.
  - exact R.
  - now apply Forall_pq_pop.
  - intros v Hv. unfold set_insert in Hv |- *.
    destruct (set_find node (in_mst p)) eqn:Fn; [now apply C|].
    cbn [length]. destruct Hv as [<-|Hv].
    + split; [exact Hn|].
      destruct (Nat.eq_dec node src) as [->|N].
      * split; [exists 0; constructor |].
        exists 0. split; [lia | reflexivity].
      * destruct Pn as [?|Pn]; [contradiction|].
        destruct (T node Hn N) as [[P _]|(u & e & P & Hu & Hnb & _)];
          [contradiction|].
        destruct (C u Hu) as (_ & [k Hk] & n & Ln & A). split.
        -- exists (S k). eapply hops_step; eauto.
        -- exists (S n). split; [lia|]. simpl. now rewrite P.
    + destruct (C v Hv) as (A1 & A2 & n & Ln & A).
      split; [exact A1|]. split; [exact A2|].
      exists n. split; [lia | exact A].
  - intros v Hv N.
    destruct (T v Hv N) as [?|(u & e & P & Hu & X)]; [now left | right].
    exists u, e. split; auto. split; auto.
    apply In_set_insert. now right.
  - intros v Hv P.
    destruct (Nat.eq_dec v node) as [->|N].
    + left. apply In_set_insert. now left.
    + destruct (Q v Hv P) as [?|Hq].
      * left. apply In_set_insert. now right.
      * right. rewrite Eq in *. now apply In_pq_pop.
  - unfold set_insert. destruct (set_find node (in_mst p)) eqn:Fn; [exact ND|].
    constructor; [|exact ND].
    intros Hin. apply set_find_true in Hin. congruence.
Qed.

Lemma tree_inv_iter : forall p p',
  prim_tree_inv s0 src p -> prim_iter p = Some p' -> prim_tree_inv s0 src p'.
Proof.
  intros p p' I H. unfold prim_iter in H.
  destruct (pq p) as [|node rest] eqn:Eq.
  - now injection H as <-.
  - destruct (@tree_inv_pop p node rest (Compare (st p)) I Eq)
      as (I1 & Hn & Hs).
    rewrite Eq in I1.
    eapply tree_inv_relax; [exact H | | | | exact I1]; cbn [in_mst]; auto.
    + intros v Hv.
      rewrite (same_graph_adj _ (tinv_graph I)) in Hv.
      split; [eapply Hclosed; eauto | exact Hv].
    + apply In_set_insert. now left.
Qed.

Lemma tree_inv_start : In src (nodes s0) -> prim_tree_inv s0 src (prim_start src s0).
Proof.
  intros Hsrc.
  destruct (prim_start_frame src s0) as [G _].
  assert (forall v, In v (nodes s0) ->
            get_predecessor (st (prim_start src s0)) v = None /\
            (v <> src -> get_distance (st (prim_start src s0)) v = INT_MAX) /\
            (v = src -> get_distance (st (prim_start src s0)) v = 0%Z)) as K.
  { intros v Hv. unfold prim_start; cbn [st].
    unfold get_predecessor, get_distance, set_predecessor, set_distance.
    rewrite !cells_modify, prim_reset_cells.
    assert (set_find v (nodes s0) = true) as F1 by (now apply set_find_true).
    assert (set_find src (nodes s0) = true) as F2 by (now apply set_find_true).
    rewrite F2.
    destruct (Nat.eqb_spec v src) as [->|N].
    - rewrite Nat.eqb_refl. simpl. repeat split; auto. congruence.
    - rewrite prim_reset_cells, F1. simpl. repeat split; auto. congruence. }
  constructor.
  - exact G.
  - left. split; reflexivity.
  - destruct (K src Hsrc) as (P & _ & D). split; auto.
  - change (pq (prim_start src s0)) with [src]. constructor; auto.
  - intros v [].
  - intros v Hv N. left. destruct (K v Hv) as (P & D & _). auto.
  - intros v Hv P. destruct (K v Hv) as (P' & _). contradiction.
  - constructor.
Qed.

Hypothesis Hbacked : stored_backed s0.

Lemma tree_inv_defined : forall p,
  prim_tree_inv s0 src p -> prim_iter p <> None.
Proof.
  intros p I. unfold prim_iter.
  destruct (pq p) as [|node rest] eqn:Eq; [discriminate|].
  destruct (@tree_inv_pop p node rest (Compare (st p)) I Eq) as (_ & Hn & _).
  apply prim_relax_defined; cbn [st]. intros v Hv.
  rewrite (same_graph_get_edge _ _ (tinv_graph I)).
  rewrite (same_graph_adj _ (tinv_graph I)) in Hv.
  now apply Hbacked.
Qed.

Lemma tree_inv_steps : forall k p,
  prim_tree_inv s0 src p ->
  exists p', prim_steps k p = Some p' /\ prim_tree_inv s0 src p'.
Proof.
  induction k as [|k IH]; intros p I; simpl; [eauto|].
  pose proof (tree_inv_defined I) as D.
  destruct (prim_iter p) as [p1|] eqn:E; [|congruence].
  apply IH. eapply tree_inv_iter; eauto.
Qed.

Lemma prim_reaches_tree :
  In src (nodes s0) ->
  exists p, prim src s0 = Finished (st p) /\ pq p = [] /\
            prim_tree_inv s0 src p /\ relaxed p.
Proof.
  intros Hsrc.
  destruct (prim_terminates src Hclosed Hsrc) as [Fuel _].
  pose proof (tree_inv_start Hsrc) as I0.
  destruct (prim src s0) as [s'| |] eqn:E; [| |congruence].
  - unfold prim in E. destruct (prim_loop_steps _ _ E) as (k & p & Hk & Hq & <-).
    exists p. split; [reflexivity|]. split; [exact Hq|]. split.
    + destruct (tree_inv_steps k I0) as (p' & Hk' & I).
      rewrite Hk in Hk'. now injection Hk' as <-.
    + eapply prim_steps_relaxed; eauto.
  - unfold prim in E. destruct (prim_loop_null _ _ E) as [k Hk].
    destruct (tree_inv_steps k I0) as (p' & Hk' & _). congruence.
Qed.
End PrimTree.

(** X12. Whatever the header, the lines and the memory [load] starts from,
    the graph it builds can be searched from every stored node: its
    adjacency entries refer to stored nodes and have stored edges behind
    them, [bfs] returns, and [prim] returns without dereferencing a null
    edge. *)
Theorem loaded_graph_searches : forall header lines s src,
  let g := load header lines s in
  In src (nodes g) ->
  closed g /\ stored_backed g /\
  (exists s', bfs src g = Some s') /\
  (exists s', prim src g = Finished s').
Proof.
  intros header lines s src g Hsrc.
  pose proof (load_closed header lines s) as Hc.
  pose proof (load_stored_backed header lines s) as Hb.
  fold g in Hc, Hb. split; [exact Hc|]. split; [exact Hb|]. split.
  - destruct (bfs_terminates src Hc Hsrc) as (s' & H & _). eauto.
  - destruct (@prim_reaches_tree g src Hc Hb Hsrc) as (p & H & _). eauto.
Qed.

Lemma loaded_graph_searches_witness :
  (exists s', bfs 3 kite = Some s') /\ (exists s', prim 3 kite = Finished s').
Proof.
  apply (loaded_graph_searches (5, 6)%Z
           [(0, 1, 5); (0, 2, 7); (0, 3, 6); (1, 4, 8); (1, 2, 3); (2, 3, 1)]%Z
           boot 3).
  vm_compute. auto.
Defined.

(** X13. On a graph whose adjacency entries refer to stored nodes and have
    stored edges behind them, [prim] from a stored source returns, and then:
    the source is at distance 0 without predecessor; every other stored
    node either is untouched (no predecessor, distance [INT_MAX]) or has a
    stored predecessor to which it is adjacent, its distance is the weight,
    below [INT_MAX], of the edge [get_edge] finds between the two, it is
    reachable from the source, and following predecessors from it arrives at
    the source: the predecessor pointers form a tree rooted at the source. *)
Theorem prim_builds_tree : forall src s,
  closed s -> stored_backed s -> In src (nodes s) ->
  exists s', prim src s = Finished s' /\
    get_distance s' src = 0%Z /\ get_predecessor s' src = None /\
    forall v, In v (nodes s) -> v <> src ->
      (get_predecessor s' v = None /\ get_distance s' v = INT_MAX) \/
      (exists u e, get_predecessor s' v = Some u /\ In u (nodes s) /\
         In v (get_adj_list s u) /\ get_edge s u v = Some e /\
         get_distance s' v = weight e /\ (weight e < INT_MAX)%Z /\
         reachable s src v /\ exists n, ancestor s' n v = Some src).
Proof.
  intros src s Hc Hb Hsrc.
  destruct (@prim_reaches_tree s src Hc Hb Hsrc) as (p & H & Hq & I & _).
  exists (st p). split; [exact H|].
  destruct I as [G St R F C T Q ND].
  split; [apply R|]. split; [apply R|].
  intros v Hv N.
  destruct (T v Hv N) as [?|(u & e & P & Hu & Hnb & He & D & W)];
    [now left | right].
  exists u, e.
  assert (In v (in_mst p)) as Hin.
  { destruct (Q v Hv) as [?|Hin]; auto; [congruence|].
    rewrite Hq in Hin. destruct Hin. }
  destruct (C v Hin) as (_ & Hr & n & _ & A). destruct (C u Hu) as (Hun & _).
  repeat split; eauto.
Qed.

Lemma prim_builds_tree_witness :
  exists s', prim 0 kite = Finished s' /\
    get_distance s' 0 = 0%Z /\ get_predecessor s' 0 = None /\
    forall v, In v (nodes kite) -> v <> 0 ->
      (get_predecessor s' v = None /\ get_distance s' v = INT_MAX) \/
      (exists u e, get_predecessor s' v = Some u /\ In u (nodes kite) /\
         In v (get_adj_list kite u) /\ get_edge kite u v = Some e /\
         get_distance s' v = weight e /\ (weight e < INT_MAX)%Z /\
         reachable kite 0 v /\ exists n, ancestor s' n v = Some 0).
Proof.
  apply (@prim_builds_tree 0 kite).
  - apply closedb_closed. vm_compute. reflexivity.
  - apply stored_backedb_backed. vm_compute. reflexivity.
  - vm_compute. auto.
Defined.

Lemma prim_commits_reachable : forall src s p,
  closed s -> (forall e, In e (edges s) -> (weight e < INT_MAX)%Z) ->
  prim_tree_inv s src p -> relaxed p -> pq p = [] ->
  forall v, reachable s src v -> In v (in_mst p).
Proof.
  intros src s p Hc Hw [G St R F C T Q ND] Rx Hq v [n Hn].
  induction Hn as [|u w n Hn IH Hadj].
  - destruct St as [[_ E]|?]; auto. rewrite Hq in E. discriminate.
  - destruct (C u IH) as (Hu & _).
    assert (In w (nodes s)) as Hwn by (eapply Hc; eauto).
    rewrite <- (same_graph_adj _ G) in Hadj.
    destruct (Rx u w) as [Fw|(e & Ee & De)]; auto.
    + now apply set_find_true.
    + now apply set_find_true.
    + rewrite (same_graph_get_edge _ _ G) in Ee.
      apply get_edge_scan_In in Ee as [Ein _].
      specialize (Hw e Ein).
      destruct (Nat.eq_dec w src) as [->|N].
      * destruct St as [[_ E]|?]; auto. rewrite Hq in E. discriminate.
      * destruct (T w Hwn N) as [[_ D]|(u' & e' & P & _)]; [lia|].
        destruct (Q w Hwn) as [?|Hin]; auto; [congruence|].
        rewrite Hq in Hin. destruct Hin.
Qed.

(** X14. On a graph whose adjacency entries refer to stored nodes and have
    stored edges behind them, and whose stored weights are all below
    [INT_MAX], the tree of [prim] spans what can be reached: after [prim]
    from a stored source, a stored node other than the source has a
    predecessor iff it is reachable from the source. *)
Theorem prim_spans : forall src s,
  closed s -> stored_backed s -> In src (nodes s) ->
  (forall e, In e (edges s) -> (weight e < INT_MAX)%Z) ->
  exists s', prim src s = Finished s' /\
    forall v, In v (nodes s) -> v <> src ->
      (get_predecessor s' v <> None <-> reachable s src v).
Proof.
  intros src s Hc Hb Hsrc Hw.
  destruct (@prim_reaches_tree s src Hc Hb Hsrc) as (p & H & Hq & I & Rx).
  exists (st p). split; [exact H|].
  pose proof (@prim_commits_reachable src s p Hc Hw I Rx Hq) as Reach.
  destruct I as [G St R F C T Q ND].
  intros v Hv N. split.
  - intros P. destruct (Q v Hv P) as [Hin|Hin].
    + apply (C v Hin).
    + rewrite Hq in Hin. destruct Hin.
  - intros Hr. destruct (C v (Reach v Hr)) as (_ & _ & k & _ & A).
    destruct k as [|k]; simpl in A; [congruence|].
    destruct (get_predecessor (st p) v); [discriminate | discriminate].
Qed.

Lemma prim_spans_witness :
  exists s', prim 0 kite = Finished s' /\
    forall v, In v (nodes kite) -> v <> 0 ->
      (get_predecessor s' v <> None <-> reachable kite 0 v).
Proof.
  apply (@prim_spans 0 kite).
  - apply closedb_closed. vm_compute. reflexivity.
  - apply stored_backedb_backed. vm_compute. reflexivity.
  - vm_compute. auto.
  - intros e He. vm_compute in He.
    repeat (destruct He as [<-|He]; [vm_compute; reflexivity|]).
    destruct He.
Defined.

Lemma ptrs_eqb_refl : forall l, ptrs_eqb l l = true.
Proof.
  induction l as [|x l IH]; simpl; [reflexivity|].
  now rewrite Nat.eqb_refl, IH.
Qed.

Lemma edge_eqb_refl : forall e, edge_eqb e e = true.
Proof.
  intros e; unfold edge_eqb. now rewrite !Nat.eqb_refl, Z.eqb_refl.
Qed.

Lemma other_end_connects : forall e v u, connects e v u -> other_end e v = u.
Proof.
  intros e v u [[A B]|[A B]]; unfold other_end.
  - rewrite A, Nat.eqb_refl. exact B.
  - destruct (Nat.eqb_spec (source e) v); congruence.
Qed.

Lemma predecessor_tree_nodes : forall s src ns,
  get_predecessor s src = None ->
  (forall v, In v ns -> v <> src ->
     exists u e, get_predecessor s v = Some u /\ get_edge s v u = Some e) ->
  map fst (flat_map (fun v =>
             match get_predecessor s v with
             | Some u =>
                 match get_edge s v u with
                 | Some e => [(v, e)]
                 | None => []
                 end
             | None => []
             end) ns) =
  filter (fun v => negb (Nat.eqb v src)) ns.
Proof.
  intros s src ns Root; induction ns as [|v ns IH]; intros H;
    [reflexivity|].
  cbn [flat_map filter]. rewrite map_app, IH by (intros x Hx; apply H; now right).
  destruct (Nat.eqb_spec v src) as [->|N]; cbn [negb].
  - now rewrite Root.
  - destruct (H v (or_introl eq_refl) N) as (u & e & -> & ->). reflexivity.
Qed.

Lemma predecessor_tree_edges : forall s c e,
  In (c, e) (predecessor_tree s) ->
  In e (edges s) /\ (source e = c \/ destination e = c).
Proof.
  intros s c e H. unfold predecessor_tree in H.
  apply in_flat_map in H as (v & _ & H).
  destruct (get_predecessor s v) as [u|]; [|destruct H].
  destruct (get_edge s v u) as [e'|] eqn:Ge; [|destruct H].
  destruct H as [[= <- <-]|[]].
  apply get_edge_scan_In in Ge as [Hin [[A _]|[_ B]]]; auto.
Qed.

Lemma tree_parent_predecessor_tree : forall s v u e,
  In v (nodes s) -> get_predecessor s v = Some u -> get_edge s v u = Some e ->
  tree_parent (predecessor_tree s) v = Some u.
Proof.
  intros s v u e Hv P Ge. unfold predecessor_tree.
  induction (nodes s) as [|w ns IH]; [destruct Hv|].
  cbn [flat_map].
  destruct (Nat.eq_dec w v) as [->|N].
  - rewrite P, Ge. cbn [app tree_parent]. rewrite Nat.eqb_refl.
    f_equal. apply other_end_connects.
    now apply get_edge_scan_In in Ge as [_ C].
  - assert (In v ns) as Hv' by (destruct Hv; [contradiction | assumption]).
    destruct (get_predecessor s w) as [x|]; [|now apply IH].
    destruct (get_edge s w x) as [e'|]; [|now apply IH].
    cbn [app tree_parent].
    destruct (Nat.eqb_spec w v); [contradiction | now apply IH].
Qed.

Lemma climbs_root : forall t root fuel, climbs t root fuel root = true.
Proof. intros t root [|fuel]; simpl; now rewrite Nat.eqb_refl. Qed.

Lemma climbs_ancestor : forall s t src (ns : list ptr),
  (forall w u, In w ns -> get_predecessor s w = Some u -> w <> src ->
     In u ns /\ tree_parent t w = Some u) ->
  forall n v fuel, In v ns -> ancestor s n v = Some src -> n <= fuel ->
    climbs t src fuel v = true.
Proof.
  intros s t src ns Par; induction n as [|n IH]; intros v fuel Hv A Hf.
  - injection A as ->. apply climbs_root.
  - destruct (Nat.eq_dec v src) as [->|N]; [apply climbs_root|].
    simpl in A. destruct (get_predecessor s v) as [u|] eqn:P; [|discriminate].
    destruct fuel as [|fuel]; [lia|]. cbn [climbs].
    destruct (Nat.eqb_spec v src); [contradiction|].
    destruct (Par v u Hv P N) as [Hu ->]. apply IH; [exact Hu | exact A | lia].
Qed.

(** X15. On a connected graph, one where every stored node is reachable
    from the source, with every stored weight below [INT_MAX], the
    predecessor pointers [prim] leaves select a spanning tree: each stored
    node other than the source contributes exactly one stored edge incident
    to it, and every stored node climbs to the source within as many steps
    as there are stored nodes. *)
Theorem prim_spanning_tree : forall src s,
  closed s -> stored_backed s -> In src (nodes s) ->
  (forall e, In e (edges s) -> (weight e < INT_MAX)%Z) ->
  (forall v, In v (nodes s) -> reachable s src v) ->
  exists s', prim src s = Finished s' /\
    spanning_treeb s' src (predecessor_tree s') = true.
Proof.
  intros src s Hc Hb Hsrc Hw Hconn.
  destruct (@prim_reaches_tree s src Hc Hb Hsrc) as (p & H & Hq & I & Rx).
  exists (st p). split; [exact H|].
  pose proof (@prim_commits_reachable src s p Hc Hw I Rx Hq) as Reach.
  destruct I as [G St R F C T Q ND].
  assert (forall v, In v (nodes s) -> v <> src ->
            exists u e, get_predecessor (st p) v = Some u /\
                        In u (nodes s) /\ get_edge (st p) v u = Some e) as Par.
  { intros v Hv N.
    destruct (T v Hv N) as [[P _]|(u & e & P & Hu & _ & Ge & _)].
    - destruct (C v (Reach v (Hconn v Hv))) as (_ & _ & k & _ & A).
      destruct k as [|k]; simpl in A; [congruence|].
      rewrite P in A. discriminate.
    - exists u, e. split; [exact P|]. split; [apply (C u Hu)|].
      rewrite (same_graph_get_edge _ _ G). unfold get_edge in *.
      now rewrite get_edge_scan_sym. }
  unfold spanning_treeb. rewrite !andb_true_iff. split; [split|].
  - unfold predecessor_tree. rewrite (same_graph_nodes G).
    rewrite (@predecessor_tree_nodes (st p) src (nodes s)).
    + apply ptrs_eqb_refl.
    + apply R.
    + intros v Hv N. destruct (Par v Hv N) as (u & e & P & _ & Ge). eauto.
  - apply forallb_forall. intros [c e] Hin.
    apply predecessor_tree_edges in Hin as [He Hc'].
    cbn [fst snd]. apply andb_true_iff. split.
    + apply existsb_exists. exists e. split; [exact He | apply edge_eqb_refl].
    + apply orb_true_iff.
      destruct Hc' as [<-|<-]; [left | right]; apply Nat.eqb_refl.
  - apply forallb_forall. intros v Hv. rewrite (same_graph_nodes G) in Hv |- *.
    destruct (C v (Reach v (Hconn v Hv))) as (_ & _ & n & Ln & A).
    apply (@climbs_ancestor (st p) (predecessor_tree (st p)) src (nodes s))
      with (n := n); auto.
    + intros w u Hwn P N.
      destruct (Par w Hwn N) as (u' & e & P' & Hu & Ge).
      assert (u' = u) as -> by congruence.
      split; [exact Hu|].
      apply (@tree_parent_predecessor_tree (st p) w u e); auto.
      now rewrite (same_graph_nodes G).
    + assert (length (in_mst p) <= length (nodes s)); [|lia].
      apply NoDup_incl_length; [exact ND|].
      intros x Hx. apply (C x Hx).
Qed.

Lemma prim_spanning_tree_witness :
  exists s', prim 0 star3 = Finished s' /\
    spanning_treeb s' 0 (predecessor_tree s') = true.
Proof.
  apply (@prim_spanning_tree 0 star3).
  - apply closedb_closed. vm_compute. reflexivity.
  - apply stored_backedb_backed. vm_compute. reflexivity.
  - vm_compute. auto.
  - intros e He. vm_compute in He.
    repeat (destruct He as [<-|He]; [vm_compute; reflexivity|]).
    destruct He.
  - intros v Hv. vm_compute in Hv.
    destruct Hv as [<-|Hv]; [exists 0; constructor|].
    repeat (destruct Hv as [<-|Hv];
            [exists 1; eapply hops_step; [constructor | vm_compute; auto]|]).
    destruct Hv.
Defined.

(* ================================================================== *)
(** * Further properties: a search does not depend on earlier searches *)
(* ================================================================== *)

(** X16. [bfs] starts from scratch: on a graph whose adjacency entries refer
    to stored nodes, the result of [bfs] from a stored node is the same
    whether or not a [bfs] or a [prim] from any stored node has run
    before. *)
Theorem bfs_forgets_searches : forall src src' s,
  closed s -> In src (nodes s) -> In src' (nodes s) ->
  (forall s1, bfs src s = Some s1 -> bfs src' s1 = bfs src' s) /\
  (forall s1, prim src s = Finished s1 -> bfs src' s1 = bfs src' s).
Proof.
  intros src src' s Hc Hsrc Hsrc'. split; intros s1 H.
  - destruct (bfs_terminates src Hc Hsrc) as (s' & H' & G & O).
    assert (s' = s1) as -> by congruence.
    unfold bfs. rewrite (@bfs_start_again src' s s1 Hsrc' G O).
    now rewrite (same_graph_nodes G).
  - destruct (prim_terminates src Hc Hsrc) as [_ F].
    destruct (F _ H) as (G & _ & O).
    unfold bfs. rewrite (@bfs_start_again src' s s1 Hsrc' G O).
    now rewrite (same_graph_nodes G).
Qed.

Lemma bfs_forgets_searches_witness :
  (forall s1, bfs 0 star3 = Some s1 -> bfs 2 s1 = bfs 2 star3) /\
  (forall s1, prim 0 star3 = Finished s1 -> bfs 2 s1 = bfs 2 star3).
Proof.
  apply (@bfs_forgets_searches 0 2 star3).
  - apply closedb_closed. vm_compute. reflexivity.
  - vm_compute. auto.
  - vm_compute. auto.
Defined.

(** X17. [prim] starts from scratch as far as distances and predecessors
    go, and never looks at a colour: after an earlier [prim] it returns the
    very state it returns without it, and after an earlier [bfs] it returns
    the same distances and predecessors, with the colours [bfs] left. *)
Theorem prim_forgets_searches : forall src src' s,
  closed s -> In src (nodes s) -> In src' (nodes s) ->
  (forall s1, prim src s = Finished s1 -> prim src' s1 = prim src' s) /\
  (forall s1 s2, bfs src s = Some s1 -> prim src' s = Finished s2 ->
     exists s3, prim src' s1 = Finished s3 /\
       forall v, get_distance s3 v = get_distance s2 v /\
                 get_predecessor s3 v = get_predecessor s2 v /\
                 get_color s3 v = get_color s1 v).
Proof.
  intros src src' s Hc Hsrc Hsrc'. split.
  - intros s1 H.
    destruct (prim_terminates src Hc Hsrc) as [_ F].
    destruct (F _ H) as (G & C & O).
    unfold prim. rewrite (@prim_start_again src' s s1 Hsrc' G C O).
    unfold prim_fuel. now rewrite (same_graph_nodes G), (same_graph_edges G).
  - intros s1 s2 H1 H2.
    destruct (bfs_terminates src Hc Hsrc) as (s' & H' & G & O).
    assert (s' = s1) as -> by congruence.
    exists (repaint (get_color s1) s2). split.
    + assert (prim src' s1 = prim src' (repaint (get_color s1) s)) as ->.
      { unfold prim. f_equal.
        - unfold prim_fuel. cbn [repaint nodes edges].
          now rewrite (same_graph_nodes G), (same_graph_edges G).
        - rewrite prim_start_repaint. unfold prim_start, repaint_prim.
          cbn [st pq in_mst lookups].
          rewrite (same_graph_nodes G), (repaint_after_bfs G O).
          rewrite repaint_set_distance, repaint_set_predecessor.
          now rewrite Compare_repaint. }
      rewrite prim_repaint, H2. reflexivity.
    + intros v. repeat split.
Qed.

Lemma prim_forgets_searches_witness :
  (forall s1, prim 0 kite = Finished s1 -> prim 3 s1 = prim 3 kite) /\
  (forall s1 s2, bfs 0 kite = Some s1 -> prim 3 kite = Finished s2 ->
     exists s3, prim 3 s1 = Finished s3 /\
       forall v, get_distance s3 v = get_distance s2 v /\
                 get_predecessor s3 v = get_predecessor s2 v /\
                 get_color s3 v = get_color s1 v).
Proof.
  apply (@prim_forgets_searches 0 3 kite).
  - apply closedb_closed. vm_compute. reflexivity.
  - vm_compute. auto.
  - vm_compute. auto.
Defined.

(* ================================================================== *)
(** * Further properties: format_line *)
(* ================================================================== *)

Lemma back_append : forall a c, back (a ++ String c EmptyString) = Some c.
Proof.
  induction a as [|x a IH]; intros c; simpl; [reflexivity|].
  rewrite IH. destruct (a ++ String c "")%string eqn:E; [|reflexivity].
  destruct a; discriminate.
Qed.

Lemma pop_back_append : forall a c, pop_back (a ++ String c EmptyString) = a.
Proof.
  induction a as [|x a IH]; intros c; simpl; [reflexivity|].
  rewrite IH. destruct (a ++ String c "")%string eqn:E; [|reflexivity].
  destruct a; discriminate.
Qed.

Lemma back_none : forall line, back line = None -> line = EmptyString.
Proof.
  induction line as [|c rest IH]; [reflexivity|].
  intros H. destruct rest as [|d rest]; [simpl in H; discriminate|].
  change (back (String d rest) = None) in H. apply IH in H. discriminate.
Qed.

Lemma commas_to_spaces_length : forall line,
  String.length (commas_to_spaces line) = String.length line.
Proof. induction line as [|c rest IH]; simpl; congruence. Qed.

Lemma commas_to_spaces_get : forall line i,
  String.get i (commas_to_spaces line) =
  match String.get i line with
  | Some c => Some (if Ascii.eqb c ","%char then " "%char else c)
  | None => None
  end.
Proof.
  induction line as [|c rest IH]; intros i; [reflexivity|].
  destruct i as [|i]; [reflexivity|]. cbn [commas_to_spaces String.get].
  apply IH.
Qed.

(** X18. [format_line] turns a line in angle brackets into its body with
    every comma replaced by a space: exactly one leading [<] and one
    trailing [>] are removed, the result is as long as the body, and at
    every position it has a space where the body has a comma and the
    character of the body otherwise. *)
Theorem format_line_brackets : forall body,
  exists out,
    format_line ("<" ++ body ++ ">") = Some out /\
    String.length out = String.length body /\
    forall i c, String.get i body = Some c ->
      (c = ","%char -> String.get i out = Some " "%char) /\
      (c <> ","%char -> String.get i out = Some c).
Proof.
  intros body. exists (commas_to_spaces body). split; [|split].
  - unfold format_line; simpl.
    now rewrite back_append, pop_back_append.
  - apply commas_to_spaces_length.
  - intros i c H. rewrite commas_to_spaces_get, H.
    destruct (Ascii.eqb_spec c ","%char); split; intros; congruence.
Qed.

(** X19. [format_line] calls [front()] or [back()] on an empty string, which
    is undefined, for exactly two lines: the empty line and the line that
    consists of a single [<]. *)
Theorem format_line_undefined : forall line,
  format_line line = None <-> line = EmptyString \/ line = "<"%string.
Proof.
  intros line; split.
  - unfold format_line. destruct line as [|c rest]; [auto|].
    cbn [front]. destruct (Ascii.eqb_spec c "<"%char) as [->|N];
      cbn [substr_1].
    + destruct (back rest) eqn:B; [discriminate|].
      apply back_none in B. subst. auto.
    + destruct (back (String c rest)) eqn:B; [discriminate|].
      apply back_none in B. discriminate.
  - intros [->| ->]; reflexivity.
Qed.
